(** * MazeWalker: a shallow embedding of the maze pipeline

    The development follows the Python sources [MazeCell.py],
    [MazeWalker.py] and [CLProcessor.py].  Integers are [Z], numpy
    arrays of shape (height, width) are lists of rows, Python
    exceptions are an explicit outcome of a small state-and-exception
    monad, and objects that the source mutates in place (the maze
    cells, the [all_paths] list, the scanner's grid) live in the state
    that the monad threads. *)

From Stdlib Require Import Ascii.
From Stdlib Require Import ZArith Lia Bool List.
From stdpp Require Import base option list.
Import ListNotations.

Local Open Scope Z_scope.

(** ** Exceptions, outcomes and the monad *)

Inductive exn : Type :=
| IndexError
| ValueError
| AttributeError
| ZeroDivisionError
| OverflowError.

(** [OutOfFuel] is an artefact of the embedding of recursion; it is not
    a Python behaviour and is shown never to occur with enough fuel. *)
Inductive outcome (A : Type) : Type :=
| Ret (a : A)
| Raise (e : exn)
| OutOfFuel.

Arguments Ret {A} a.
Arguments Raise {A} e.
Arguments OutOfFuel {A}.

(** A computation over a mutable store [St].  The store survives an
    exception, as the mutated Python objects do. *)
Definition M (St A : Type) : Type := St -> outcome A * St.

Definition ret {St A} (a : A) : M St A := fun s => (Ret a, s).
Definition raise {St A} (e : exn) : M St A := fun s => (Raise e, s).
Definition out_of_fuel {St A} : M St A := fun s => (OutOfFuel, s).

Definition bind {St A B} (m : M St A) (k : A -> M St B) : M St B :=
  fun s =>
    match m s with
    | (Ret a, s') => k a s'
    | (Raise e, s') => (Raise e, s')
    | (OutOfFuel, s') => (OutOfFuel, s')
    end.

Notation "'let*' x ':=' m 'in' k" := (bind m (fun x => k))
  (at level 10, x pattern, m at level 100, k at level 200).

Definition get {St} : M St St := fun s => (Ret s, s).
Definition put {St} (s : St) : M St unit := fun _ => (Ret tt, s).

(** [for x in l: body x] *)
Fixpoint for_each {St A} (l : list A) (body : A -> M St unit) : M St unit :=
  match l with
  | [] => ret tt
  | x :: l' => let* _ := body x in for_each l' body
  end.

(** [range(n)] *)
Definition py_range (n : Z) : list Z := map Z.of_nat (seq 0 (Z.to_nat n)).

(** ** Python sequence indexing

    [l[i]] accepts [-len <= i < len]; a negative index counts from the
    end; anything else raises IndexError.  numpy indexes each axis the
    same way. *)
Definition py_index (n : nat) (i : Z) : option nat :=
  if (0 <=? i) && (i <? Z.of_nat n) then Some (Z.to_nat i)
  else if (- Z.of_nat n <=? i) && (i <? 0) then Some (Z.to_nat (i + Z.of_nat n))
  else None.

Definition py_get {A} (l : list A) (i : Z) : option A :=
  match py_index (length l) i with
  | Some k => l !! k
  | None => None
  end.

Definition py_alter {A} (f : A -> A) (l : list A) (i : Z) : option (list A) :=
  match py_index (length l) i with
  | Some k => Some (alter f k l)
  | None => None
  end.

(** ** MazeCell.Cell *)

Definition wi_none : Z := 0.
Definition wi_left : Z := 1.
Definition wi_top : Z := 2.
Definition wi_right : Z := 4.
Definition wi_bottom : Z := 8.
Definition wi_all : Z := 15.
Definition wi_filled : Z := 16.

Definition go_nodir : Z := 32.
Definition go_left : Z := 64.
Definition go_up : Z := 128.
Definition go_right : Z := 256.
Definition go_down : Z := 512.
Definition go_none : Z := 0.

Definition wi_start : Z := 1024.
Definition wi_finish : Z := 2048.

(** The instance attributes the pipeline uses: the private
    [__wall_index] (read through the method [wall_index()]), the
    private [__display_index], and the public [visited] and
    [direction]. *)
Record Cell : Type := mkCell {
  wall_index : Z;
  display_index : Z;
  visited : bool;
  direction : Z
}.

(** [Cell.__init__(wall_index)] with the default scale. *)
Definition Cell_init (wi : Z) : exn + Cell :=
  if 4095 <? wi then inl ValueError
  else inr {| wall_index := wi; display_index := wi;
              visited := false; direction := go_none |}.

(** [Cell.add_wall] *)
Definition add_wall (wi : Z) (self : Cell) : exn + Cell :=
  if 16 <? wi then inl ValueError
  else inr {| wall_index := Z.lor (wall_index self) wi;
              display_index := display_index self;
              visited := visited self; direction := direction self |}.

(** Python truth of an integer. *)
Definition truthy (z : Z) : bool := negb (z =? 0).

Definition with_display (d : Z) (self : Cell) : Cell :=
  {| wall_index := wall_index self; display_index := d;
     visited := visited self; direction := direction self |}.

(** [Cell.set_direction]: an invalid direction returns (does not raise)
    a ValueError object and leaves the cell alone. *)
Definition set_direction (dir : Z) (self : Cell) : Cell :=
  if negb (existsb (Z.eqb dir)
             [go_none; go_nodir; go_left; go_up; go_right; go_down])
  then self
  else
    let d := display_index self in
    let d := if truthy (Z.land d go_nodir) then d - go_nodir else d in
    let d := if truthy (Z.land d go_left) then d - go_left else d in
    let d := if truthy (Z.land d go_up) then d - go_up else d in
    let d := if truthy (Z.land d go_right) then d - go_right else d in
    let d := if truthy (Z.land d go_down) then d - go_down else d in
    with_display (d + dir) self.

(** [Cell.clear_navigation]: its first statement reads [self.go.none];
    a Cell has no attribute [go], so a call raises AttributeError before
    anything is reset. *)
Definition clear_navigation (self : Cell) : exn + Cell :=
  inl AttributeError.

(** [Cell.set_as_start] *)
Definition set_as_start (self : Cell) : Cell :=
  let d := display_index self in
  if negb (truthy (Z.land d wi_start)) then
    let d := if truthy (Z.land d wi_finish) then d - wi_finish else d in
    with_display (d + wi_start) self
  else self.

(** [Cell.set_as_finish] *)
Definition set_as_finish (show_dot : bool) (self : Cell) : Cell :=
  let d := display_index self in
  let self :=
    if negb (truthy (Z.land d wi_finish)) then
      let d := if truthy (Z.land d wi_start) then d - wi_start else d in
      with_display (d + wi_finish) self
    else self in
  if show_dot then set_direction go_nodir self
  else set_direction go_none self.

(** Attribute assignments [cell.visited = True] and
    [cell.direction = d]. *)
Definition mark_visited (self : Cell) : Cell :=
  {| wall_index := wall_index self; display_index := display_index self;
     visited := true; direction := direction self |}.

Definition assign_direction (d : Z) (self : Cell) : Cell :=
  {| wall_index := wall_index self; display_index := display_index self;
     visited := visited self; direction := d |}.

(** ** The maze: a two-dimensional array of cells *)

Abbreviation Maze := (list (list Cell)).
Abbreviation coord := (Z * Z)%type.
Abbreviation path := (list (Z * Z)).

(** [maze[row][col]] as an expression. *)
Definition maze_get (m : Maze) (row col : Z) : option Cell :=
  match py_get m row with
  | Some r => py_get r col
  | None => None
  end.

(** The maze after an in-place update of the object [maze[row][col]]. *)
Definition maze_alter (f : Cell -> Cell) (m : Maze) (row col : Z) : option Maze :=
  match py_index (length m) row with
  | Some i =>
      match m !! i with
      | Some r =>
          match py_alter f r col with
          | Some r' => Some (<[i := r']> m)
          | None => None
          end
      | None => None
      end
  | None => None
  end.

Definition cell_count (m : Maze) : nat :=
  list_sum (map (fun r : list Cell => length r) m).

Definition unvisited_row (r : list Cell) : nat :=
  list_sum (map (fun c : Cell => if visited c then 0%nat else 1%nat) r).

Definition unvisited (m : Maze) : nat := list_sum (map unvisited_row m).

(** ** navigate_maze

    The store of one run: the maze, the list object passed as
    [all_paths], and two ghost counters that exist only in the model
    ([calls] counts activations of [navigate_maze], [entered] counts the
    activations that pass the unvisited guard).

    The recursion limit of the interpreter is outside the model.  The
    source recurses one frame for every cell it enters, and a run that
    needs more frames than the interpreter allows ends in
    RecursionError where the model goes on.  The model describes the
    runs of the source that stay below that limit: what is stated about
    an answer of [navigate_maze], [find_paths], [solve_maze] or [solve]
    is stated for the answers that are returned. *)
Record world : Type := mkWorld {
  maze : Maze;
  all_paths : list path;
  entered : nat;
  calls : nat
}.

Definition flag : coord := (-1, -1).

Definition coord_eqb (a b : coord) : bool :=
  (fst a =? fst b) && (snd a =? snd b).

(** [_maze_path[0]] *)
Definition path_first (p : path) : M world coord :=
  match p with
  | [] => raise IndexError
  | c :: _ => ret c
  end.

(** Reading [maze[row][col]]. *)
Definition cell_ref (row col : Z) : M world Cell :=
  fun w =>
    match maze_get (maze w) row col with
    | Some c => (Ret c, w)
    | None => (Raise IndexError, w)
    end.

(** Updating the object [maze[row][col]] in place. *)
Definition cell_update (f : Cell -> Cell) (row col : Z) : M world unit :=
  fun w =>
    match maze_alter f (maze w) row col with
    | Some m' => (Ret tt, {| maze := m'; all_paths := all_paths w;
                             entered := entered w; calls := calls w |})
    | None => (Raise IndexError, w)
    end.

Definition append_all_paths (p : path) : M world unit :=
  fun w => (Ret tt, {| maze := maze w; all_paths := all_paths w ++ [p];
                       entered := entered w; calls := calls w |}).

Definition tick_call : M world unit :=
  fun w => (Ret tt, {| maze := maze w; all_paths := all_paths w;
                       entered := entered w; calls := S (calls w) |}).

Definition tick_entered : M world unit :=
  fun w => (Ret tt, {| maze := maze w; all_paths := all_paths w;
                       entered := S (entered w); calls := calls w |}).

(** [_maze_path.pop()] returning the shortened list. *)
Definition path_pop (p : path) : M world path :=
  match p with
  | [] => raise IndexError
  | _ => ret (removelast p)
  end.

(** One of the four blocks
    [if not maze[row][col].wall_index() & wi and _maze_path[0] != (-1,-1):
         maze[row][col].direction = go
         _maze_path = navigate_maze(maze, next, to_cell, _maze_path, all_paths)] *)
Definition try_move (rec : coord -> path -> M world path)
    (row col wi go : Z) (next : coord) (_maze_path : path) : M world path :=
  let* c := cell_ref row col in
  if truthy (Z.land (wall_index c) wi) then ret _maze_path
  else
    let* h := path_first _maze_path in
    if coord_eqb h flag then ret _maze_path
    else
      let* _ := cell_update (assign_direction go) row col in
      rec next _maze_path.

Fixpoint navigate_maze (fuel : nat) (from_cell to_cell : coord)
    (maze_path : path) : M world path :=
  match fuel with
  | O => out_of_fuel
  | S fuel' =>
      let* _ := tick_call in
      let _maze_path := maze_path in
      let row := fst from_cell in
      let col := snd from_cell in
      if coord_eqb from_cell to_cell then
        ret (flag :: (_maze_path ++ [from_cell]))
      else
        let* c := cell_ref row col in
        if visited c then ret _maze_path
        else
          let* h := path_first _maze_path in
          if coord_eqb h flag then ret _maze_path
          else
            let _maze_path := _maze_path ++ [from_cell] in
            let* _ := cell_update mark_visited row col in
            let* _ := tick_entered in
            let rec := fun n p => navigate_maze fuel' n to_cell p in
            let* _maze_path :=
              try_move rec row col wi_left go_left (row, col - 1) _maze_path in
            let* _maze_path :=
              try_move rec row col wi_top go_up (row - 1, col) _maze_path in
            let* _maze_path :=
              try_move rec row col wi_right go_right (row, col + 1) _maze_path in
            let* _maze_path :=
              try_move rec row col wi_bottom go_down (row + 1, col) _maze_path in
            let* h := path_first _maze_path in
            if coord_eqb h flag then ret _maze_path
            else
              let* _ := append_all_paths _maze_path in
              path_pop _maze_path
  end.

(** ** find_paths *)

(** What [find_paths] returns: [maze_path, []] or
    [from_start, from_finish]. *)
Inductive find_result : Type :=
| FoundPath (maze_path : path)
| DeadEnds (from_start from_finish : list path).

(** The statement [cell.clear_navigation] names the bound method and
    discards it; the method is not called. *)
Definition clear_navigation_stmt (cell : Cell) : Cell :=
  let _bound_method := fun _ : unit => clear_navigation cell in
  cell.

(** [for row in maze: for cell in row: cell.clear_navigation] *)
Definition clear_loop : M Maze unit :=
  fun m => (Ret tt, map (map clear_navigation_stmt) m).

(** A call [navigate_maze(maze, a, b, [a], lst)] with a fresh list
    [lst = []]; the result is the returned path together with the final
    contents of [lst].  The recursion is given one unit of fuel more
    than the maze has cells. *)
Definition run_navigate (from_cell to_cell : coord) : M Maze (path * list path) :=
  fun m =>
    let w0 := {| maze := m; all_paths := []; entered := 0; calls := 0 |} in
    match navigate_maze (S (cell_count m)) from_cell to_cell [from_cell] w0 with
    | (Ret p, w) => (Ret (p, all_paths w), maze w)
    | (Raise e, w) => (Raise e, maze w)
    | (OutOfFuel, w) => (OutOfFuel, maze w)
    end.

(** The first half of [find_paths]: the clearing loop and the search
    from start to finish.  [find_paths] is split here so that the maze
    handed to the second [navigate_maze] call can be named. *)
Definition forward_search (start_cell finish_cell : coord)
  : M Maze (path * list path) :=
  let* _ := clear_loop in
  run_navigate start_cell finish_cell.

Definition find_paths (start_cell finish_cell : coord) : M Maze find_result :=
  let* (maze_path, from_start) := forward_search start_cell finish_cell in
  if (1 <? Z.of_nat (length maze_path)) then ret (FoundPath maze_path)
  else
    let* _ := clear_loop in
    let* (maze_path, from_finish) := run_navigate finish_cell start_cell in
    ret (DeadEnds from_start from_finish).

(** The maze as it stands when the reverse search is about to start
    ([None] when the forward search solved the maze or raised). *)
Definition maze_before_reverse_search (m : Maze) (start_cell finish_cell : coord)
  : option Maze :=
  match forward_search start_cell finish_cell m with
  | (Ret (maze_path, _), m1) =>
      if (1 <? Z.of_nat (length maze_path)) then None
      else Some (snd (clear_loop m1))
  | _ => None
  end.

(** ** Reading a returned path

    [wall_toward a b] is the wall bit of cell [a] that faces cell [b]
    when [b] is one unit step away from [a]; [passable] says that
    [maze[a]] exists and does not have that bit; [linked] says it of
    every consecutive pair of a path. *)
Definition wall_toward (a b : coord) : option Z :=
  let row_shift := fst a - fst b in
  let col_shift := snd a - snd b in
  if (row_shift =? 0) && (col_shift =? 1) then Some wi_left
  else if (row_shift =? 1) && (col_shift =? 0) then Some wi_top
  else if (row_shift =? 0) && (col_shift =? -1) then Some wi_right
  else if (row_shift =? -1) && (col_shift =? 0) then Some wi_bottom
  else None.

(** The radicand of [calc_distance].  The float
    [radicand ** 0.5] compares equal to [1.0] exactly when the radicand
    is 1; the conversion of the radicand to a float raises
    OverflowError from [float_overflow] on. *)
Definition calc_distance_sq (t1 t2 : coord) : Z :=
  (fst t1 - fst t2) ^ 2 + (snd t1 - snd t2) ^ 2.

Definition float_overflow : Z := 2 ^ 1024 - 2 ^ 970.

(** [calc_distance(a, b) == 1.0] *)
Definition adjacent (a b : coord) : bool := calc_distance_sq a b =? 1.

Definition passable (m : Maze) (a b : coord) : bool :=
  match wall_toward a b, maze_get m (fst a) (snd a) with
  | Some wi, Some c => negb (truthy (Z.land (wall_index c) wi))
  | _, _ => false
  end.

(** Two consecutive cells of a route: one unit apart, and the first has
    no wall on the side of the second. *)
Definition step_ok (m : Maze) (a b : coord) : bool :=
  adjacent a b && passable m a b.

Fixpoint linked (m : Maze) (q : path) : bool :=
  match q with
  | a :: q' =>
      match q' with
      | b :: _ => step_ok m a b && linked m q'
      | [] => true
      end
  | [] => true
  end.

(** [a] names a cell of the grid by non-negative indices. *)
Definition in_bounds (m : Maze) (a : coord) : bool :=
  (0 <=? fst a) && (fst a <? Z.of_nat (length m)) &&
  match m !! Z.to_nat (fst a) with
  | Some r => (0 <=? snd a) && (snd a <? Z.of_nat (length r))
  | None => false
  end.

(** The property of a solved path as the specification words it: with
    the flag removed, the path starts at the start cell, ends at the
    finish cell, and every two consecutive entries are one step apart
    with no wall in between. *)
Definition claimed_solved_route (m : Maze) (start finish : coord) : Prop :=
  forall p m',
    find_paths start finish m = (Ret (FoundPath p), m') ->
    head p = Some flag ->
    head (tail p) = Some start /\
    last (tail p) = Some finish /\
    linked m (tail p) = true.

(** Two one-row mazes as [create_maze] builds them: from the grid
    [[5, 4]] (a wall between the two cells) and from [[0, 0]] (no wall
    between them). *)
Definition walled_pair : Maze :=
  [[ {| wall_index := 15; display_index := 5; visited := false; direction := 0 |};
     {| wall_index := 15; display_index := 4; visited := false; direction := 0 |} ]].

Definition open_pair : Maze :=
  [[ {| wall_index := 11; display_index := 0; visited := false; direction := 0 |};
     {| wall_index := 14; display_index := 0; visited := false; direction := 0 |} ]].

(** ** The frame of the search: what a run may change in a cell *)

Definition cell_le (c c' : Cell) : Prop :=
  wall_index c' = wall_index c /\
  display_index c' = display_index c /\
  (visited c = true -> visited c' = true).

Definition maze_le (m m' : Maze) : Prop := Forall2 (Forall2 cell_le) m m'.

(** ** What one activation of [navigate_maze] does to the store

    [frame k w w']: the maze only gained visited marks and direction
    assignments, every guard-passing activation consumed one unvisited
    cell, and the activations are paid for by [k] plus four per entered
    cell. *)
Definition frame (k : Z) (w w' : world) : Prop :=
  maze_le (maze w) (maze w') /\
  (entered w + unvisited (maze w) = entered w' + unvisited (maze w'))%nat /\
  Z.of_nat (calls w') - 4 * Z.of_nat (entered w')
    <= Z.of_nat (calls w) - 4 * Z.of_nat (entered w) + k.

Definition sat {A} (k : Z) (m : M world A) : Prop :=
  forall w, frame k w (snd (m w)).

(** A computation that cannot starve when given [n] units of fuel for
    a maze with fewer than [n] unvisited cells. *)
Definition total {A} (n : nat) (m : M world A) : Prop :=
  forall w, (unvisited (maze w) < n)%nat -> fst (m w) <> OutOfFuel.

Definition unflagged (p : path) : Prop :=
  exists h t, p = h :: t /\ coord_eqb h flag = false.

Definition flagged (p : path) : Prop := exists t, p = flag :: t.

(** [p'] is the solved form of the call that started at [from_cell]
    with the path [p]. *)
Definition solved_from (m : Maze) (p : path) (from_cell to_cell : coord)
    (p' : path) : Prop :=
  exists q, p' = flag :: p ++ from_cell :: q /\
            linked m (from_cell :: q) = true /\
            last (from_cell :: q) = Some to_cell.

Definition shape_spec (to_cell : coord) (rec : coord -> path -> M world path) : Prop :=
  forall n q w p' w',
    rec n q w = (Ret p', w') -> unflagged q ->
    p' = q \/ solved_from (maze w) q n to_cell p'.

(** ** create_maze

    The store is the array [Maze] under construction. *)

(** [Maze[row][col]] read. *)
Definition maze_ref (row col : Z) : M Maze Cell :=
  fun m =>
    match maze_get m row col with
    | Some c => (Ret c, m)
    | None => (Raise IndexError, m)
    end.

(** The effect of a successful [add_wall(b)] on a cell. *)
Definition or_wall (b : Z) (c : Cell) : Cell :=
  {| wall_index := Z.lor (wall_index c) b; display_index := display_index c;
     visited := visited c; direction := direction c |}.

(** [Maze[row][col].add_wall(wi)] *)
Definition call_add_wall (row col wi : Z) : M Maze unit :=
  fun m =>
    match maze_get m row col with
    | Some c =>
        match add_wall wi c with
        | inr c' =>
            match maze_alter (fun _ => c') m row col with
            | Some m' => (Ret tt, m')
            | None => (Raise IndexError, m)
            end
        | inl e => (Raise e, m)
        end
    | None => (Raise IndexError, m)
    end.

(** [Maze[row][col] = mzCell(grid[row][col])] for every position, in
    row-major order; the first ValueError wins. *)
Fixpoint load_row (r : list Z) : exn + list Cell :=
  match r with
  | [] => inr []
  | v :: r' =>
      match Cell_init v with
      | inl e => inl e
      | inr c =>
          match load_row r' with
          | inl e => inl e
          | inr cs => inr (c :: cs)
          end
      end
  end.

Fixpoint load_cells (grid : list (list Z)) : exn + Maze :=
  match grid with
  | [] => inr []
  | r :: grid' =>
      match load_row r with
      | inl e => inl e
      | inr cs =>
          match load_cells grid' with
          | inl e => inl e
          | inr m => inr (cs :: m)
          end
      end
  end.

(** [if Maze[r0][c0].wall_index() & wi0: Maze[row][col].add_wall(wi)] *)
Definition infer_stmt (r0 c0 wi0 row col wi : Z) : M Maze unit :=
  let* neighbour := maze_ref r0 c0 in
  if truthy (Z.land (wall_index neighbour) wi0)
  then call_add_wall row col wi
  else ret tt.

(** Body of the propagation loop at [(row, col)]. *)
Definition propagate_body (row col : Z) : M Maze unit :=
  let* _ :=
    (if 0 <? row then infer_stmt (row - 1) col wi_bottom row col wi_top
     else ret tt) in
  if 0 <? col then infer_stmt row (col - 1) wi_right row col wi_left
  else ret tt.

(** [if not Maze[row][col].wall_index() & wi: Maze[row][col].add_wall(wi)] *)
Definition seal_stmt (row col wi : Z) : M Maze unit :=
  let* c := maze_ref row col in
  if negb (truthy (Z.land (wall_index c) wi))
  then call_add_wall row col wi
  else ret tt.

(** Body of [for col in range(maze_width)] in the sealing pass. *)
Definition seal_cols_body (maze_height col : Z) : M Maze unit :=
  let* _ := seal_stmt 0 col wi_top in
  seal_stmt (maze_height - 1) col wi_bottom.

(** Body of [for row in range(maze_height)] in the sealing pass. *)
Definition seal_rows_body (maze_width row : Z) : M Maze unit :=
  let* _ := seal_stmt row 0 wi_left in
  seal_stmt row (maze_width - 1) wi_right.

(** [grid.shape[0]] and [grid.shape[1]] of a non-empty array. *)
Definition shape0 {A} (a : list (list A)) : Z := Z.of_nat (length a).
Definition shape1 {A} (a : list (list A)) : Z := Z.of_nat (length (hd [] a)).

Definition assemble (maze_height maze_width : Z) : M Maze unit :=
  let* _ :=
    for_each (py_range maze_height) (fun row =>
      for_each (py_range maze_width) (fun col => propagate_body row col)) in
  let* _ := for_each (py_range maze_width) (seal_cols_body maze_height) in
  for_each (py_range maze_height) (seal_rows_body maze_width).

Definition create_maze (grid : list (list Z)) : outcome Maze :=
  let maze_height := shape0 grid in
  let maze_width := shape1 grid in
  match load_cells grid with
  | inl e => Raise e
  | inr Maze0 =>
      match assemble maze_height maze_width Maze0 with
      | (Ret _, m) => Ret m
      | (Raise e, _) => Raise e
      | (OutOfFuel, _) => OutOfFuel
      end
  end.

(** ** Arrays given by their entries

    [tab h w F] is the array of shape (h, w) whose entry at [(r, c)] is
    [F r c]; [upd] changes one entry. *)
Definition tab {A} (h w : nat) (F : nat -> nat -> A) : list (list A) :=
  (fun r => F r <$> seq 0 w) <$> seq 0 h.

Definition upd {A} (F : nat -> nat -> A) (r c : nat) (x : A) : nat -> nat -> A :=
  fun r' c' => if ((r' =? r) && (c' =? c))%nat then x else F r' c'.

Definition entry (grid : list (list Z)) (r c : nat) : Z :=
  nth c (nth r grid []) 0.

Definition rectangular {A} (h w : nat) (a : list (list A)) : Prop :=
  length a = h /\ Forall (fun row => length row = w) a.

(** ** The assembled maze in closed form

    What each pass of [create_maze] leaves in the cell at [(r, c)], as a
    function of the scanned entries [G]. *)
Definition initial_cell (v : Z) : Cell :=
  {| wall_index := v; display_index := v; visited := false; direction := go_none |}.

Definition seal (b : Z) (c : Cell) : Cell :=
  if negb (truthy (Z.land (wall_index c) b)) then or_wall b c else c.

Definition propagated (G : nat -> nat -> Z) (r c : nat) : Cell :=
  let x := initial_cell (G r c) in
  let x := if (0 <? r)%nat && truthy (Z.land (G (r - 1)%nat c) wi_bottom)
           then or_wall wi_top x else x in
  if (0 <? c)%nat && truthy (Z.land (G r (c - 1)%nat) wi_right)
  then or_wall wi_left x else x.

Definition sealed_cols (h : nat) (F : nat -> nat -> Cell) (r c : nat) : Cell :=
  let x := F r c in
  let x := if (r =? 0)%nat then seal wi_top x else x in
  if (r =? h - 1)%nat then seal wi_bottom x else x.

Definition sealed_rows (w : nat) (F : nat -> nat -> Cell) (r c : nat) : Cell :=
  let x := F r c in
  let x := if (c =? 0)%nat then seal wi_left x else x in
  if (c =? w - 1)%nat then seal wi_right x else x.

Definition assembled (h w : nat) (G : nat -> nat -> Z) : nat -> nat -> Cell :=
  sealed_rows w (sealed_cols h (propagated G)).

(** The cell one propagation step leaves at [(r, c)], read off the
    current array [F]. *)
Definition prop_cell (F : nat -> nat -> Cell) (r c : nat) : Cell :=
  let x := F r c in
  let x := if (0 <? r)%nat
              && truthy (Z.land (wall_index (F (r - 1)%nat c)) wi_bottom)
           then or_wall wi_top x else x in
  if (0 <? c)%nat && truthy (Z.land (wall_index (F r (c - 1)%nat)) wi_right)
  then or_wall wi_left x else x.

(** Loop invariants of the three passes. *)
Definition prop_rows (G : nat -> nat -> Z) (r : nat) : nat -> nat -> Cell :=
  fun r' c' => if (r' <? r)%nat then propagated G r' c' else initial_cell (G r' c').

Definition prop_cols (G : nat -> nat -> Z) (r c : nat) : nat -> nat -> Cell :=
  fun r' c' =>
    if ((r' <? r) || ((r' =? r) && (c' <? c)))%nat
    then propagated G r' c' else initial_cell (G r' c').

Definition seal_cols_upto (h : nat) (F : nat -> nat -> Cell) (c : nat)
  : nat -> nat -> Cell :=
  fun r' c' => if (c' <? c)%nat then sealed_cols h F r' c' else F r' c'.

Definition seal_rows_upto (w : nat) (F : nat -> nat -> Cell) (r : nat)
  : nat -> nat -> Cell :=
  fun r' c' => if (r' <? r)%nat then sealed_rows w F r' c' else F r' c'.

(** ** Wall grids as the scanner produces them

    Entries are wall masks in [0, 15]; LEFT occurs only in column 0 and
    TOP only in row 0. *)
Definition scanner_entry_ok (r c : nat) (v : Z) : bool :=
  (0 <=? v) && (v <=? 15)
  && ((c =? 0)%nat || (Z.land v wi_left =? 0))
  && ((r =? 0)%nat || (Z.land v wi_top =? 0)).

Definition scanner_shaped (grid : list (list Z)) : bool :=
  let h := length grid in
  let w := length (hd [] grid) in
  (1 <=? h)%nat && (1 <=? w)%nat
  && forallb (fun row : list Z => (length row =? w)%nat) grid
  && forallb (fun r =>
       forallb (fun c => scanner_entry_ok r c (entry grid r c)) (seq 0 w))
     (seq 0 h).

(** The cell at a position given by natural numbers, and the test
    [cell.wall_index() & wi]. *)
Definition cell_at (m : Maze) (r c : nat) : option Cell :=
  match m !! r with
  | Some row => row !! c
  | None => None
  end.

Definition has_wall (c : Cell) (wi : Z) : bool :=
  truthy (Z.land (wall_index c) wi).

Arguments has_wall : simpl never.

(** ** find_suggestions

    Only the machine-readable [coordinates] list is modelled; the list
    of human-readable strings is built alongside it and does not
    influence it.  A suggestion is a triple (row, col, wall_index). *)
Abbreviation suggestion := (Z * Z * Z)%type.

(** The filter [distances[i] == 1.0] is [adjacent]. *)

(** [pairs = [[i, j] for i in fStart for j in fFinish]] *)
Definition pairs (fStart fFinish : path) : list (coord * coord) :=
  flat_map (fun i => map (fun j => (i, j)) fFinish) fStart.

Definition candidates (fStart fFinish : path) : list (coord * coord) :=
  List.filter (fun c => adjacent (fst c) (snd c)) (pairs fStart fFinish).

(** The if/elif chain on [row_shift] and [col_shift]; [None] is the
    final [else], which raises ValueError. *)
Definition shift_wall (row_shift col_shift : Z) : option Z :=
  if row_shift =? -1 then Some wi_bottom
  else if row_shift =? 1 then Some wi_top
  else if col_shift =? -1 then Some wi_right
  else if col_shift =? 1 then Some wi_left
  else None.

(** Body of [for c in candidates]; the store is the list
    [coordinates]. *)
Definition candidate_body (c : coord * coord) : M (list suggestion) unit :=
  let row_shift := fst (fst c) - fst (snd c) in
  let col_shift := snd (fst c) - snd (snd c) in
  match shift_wall row_shift col_shift with
  | Some wall_index =>
      fun coordinates =>
        (Ret tt, coordinates ++ [(fst (fst c), snd (fst c), wall_index)])
  | None => raise ValueError
  end.

(** [distances = [calc_distance(i, j) for i in fStart for j in fFinish]]
    is evaluated in full before the candidates are looked at. *)
Definition distances_defined (fStart fFinish : path) : bool :=
  forallb (fun c => calc_distance_sq (fst c) (snd c) <? float_overflow)
          (pairs fStart fFinish).

Definition collect_coordinates (from_start from_finish : list path)
  : M (list suggestion) unit :=
  for_each from_start (fun fStart =>
    for_each from_finish (fun fFinish =>
      if distances_defined fStart fFinish
      then for_each (candidates fStart fFinish) candidate_body
      else raise OverflowError)).

(** Lexicographic order of triples, as Python compares tuples. *)
Definition suggestion_leb (a b : suggestion) : bool :=
  let '(a1, a2, a3) := a in
  let '(b1, b2, b3) := b in
  (a1 <? b1) || ((a1 =? b1) && ((a2 <? b2) || ((a2 =? b2) && (a3 <=? b3)))).

Fixpoint sorted_asc (l : list suggestion) : bool :=
  match l with
  | a :: l' =>
      match l' with
      | b :: _ => suggestion_leb a b && sorted_asc l'
      | [] => true
      end
  | [] => true
  end.

(** What Python promises of [list(set(l))]: the elements of [l], each
    once, in an order the language leaves open. *)
Definition set_listing (list_of_set : list suggestion -> list suggestion) : Prop :=
  forall l, List.NoDup (list_of_set l) /\
            forall x, In x (list_of_set l) <-> In x l.

(** One admissible listing: the distinct elements, last seen first. *)
Fixpoint distinct (l : list suggestion) : list suggestion :=
  match l with
  | [] => []
  | x :: l' =>
      if existsb (fun y => suggestion_leb x y && suggestion_leb y x) l'
      then distinct l' else x :: distinct l'
  end.

Definition last_seen_first (l : list suggestion) : list suggestion :=
  rev (distinct l).

Section FindSuggestions.
(** [list(set(...))] for lists of triples. *)
Variable list_of_set : list suggestion -> list suggestion.

(** The statement [coordinates.sort] names the bound method without
    calling it, so the list keeps the order of [list(set(...))]. *)
Definition find_suggestions (from_start from_finish : list path)
  : outcome (list suggestion) :=
  match collect_coordinates from_start from_finish [] with
  | (Ret _, coordinates) =>
      let coordinates := list_of_set coordinates in
      let _bound_method := fun _ : unit => coordinates in
      Ret coordinates
  | (Raise e, _) => Raise e
  | (OutOfFuel, _) => OutOfFuel
  end.
End FindSuggestions.

(** ** CLProcessor: the validated command entry

    Of a CLProcessor instance the pipeline reads the maze dimensions
    and the start and finish cells.  Its constructor parses the command
    line and ends with [__check_inputs]; the check that the image file
    exists is input/output and is not modelled. *)
Module CLProcessor.
Record t : Type := {
  width : Z;
  height : Z;
  start_cell : Z * Z;
  finish_cell : Z * Z
}.

(** [x in range(n)] *)
Definition in_range (x n : Z) : bool := (0 <=? x) && (x <? n).

(** [CLProcessor.__check_inputs] *)
Definition check_inputs (self : t) : exn + unit :=
  if width self <? 1 then inl ValueError
  else if height self <? 1 then inl ValueError
  else if negb (in_range (fst (start_cell self)) (width self)) then inl ValueError
  else if negb (in_range (fst (finish_cell self)) (width self)) then inl ValueError
  else if negb (in_range (snd (start_cell self)) (height self)) then inl ValueError
  else if negb (in_range (snd (finish_cell self)) (height self)) then inl ValueError
  else inr tt.
End CLProcessor.

(** ** solve_maze

    The images that [solve_maze] draws are rendering and are not
    modelled; the result is the returned [solved] flag together with
    the suggestions circled on the solution image. *)

(** [Maze[pos].method()] for a method that updates the cell. *)
Definition cell_call (f : Cell -> Cell) (pos : coord) : M Maze unit :=
  fun m =>
    match maze_alter f m (fst pos) (snd pos) with
    | Some m' => (Ret tt, m')
    | None => (Raise IndexError, m)
    end.

Section SolveMaze.
Variable list_of_set : list suggestion -> list suggestion.

Definition call_find_suggestions (from_start from_finish : list path)
  : M Maze (bool * list suggestion) :=
  match find_suggestions list_of_set from_start from_finish with
  | Ret coordinates => ret (false, coordinates)
  | Raise e => raise e
  | OutOfFuel => out_of_fuel
  end.

Definition solve_maze (cmd_entry : CLProcessor.t)
  : M Maze (bool * list suggestion) :=
  let start_cell := CLProcessor.start_cell cmd_entry in
  let finish_cell := CLProcessor.finish_cell cmd_entry in
  let* _ := cell_call set_as_start start_cell in
  let* _ := cell_call (set_as_finish false) finish_cell in
  let* found := find_paths start_cell finish_cell in
  match found with
  | FoundPath from_start =>
      match from_start with
      | [] => raise IndexError
      | first :: rest =>
          if coord_eqb first flag then
            let* _ :=
              for_each rest
                (cell_call (fun c => set_direction (direction c) c)) in
            let* _ := cell_call (set_as_finish true) finish_cell in
            ret (true, [])
          else
            (* [from_finish] is empty: nothing is collected *)
            ret (false, list_of_set [])
      end
  | DeadEnds from_start from_finish =>
      match from_start with
      | [] => raise IndexError
      | _ :: _ =>
          (* [from_start[0]] is a list and never equals the tuple *)
          call_find_suggestions from_start from_finish
      end
  end.

(** [solve_maze] as its callers reach it: the command entry is a
    CLProcessor instance, whose constructor has run
    [__check_inputs]. *)
Definition solve (cmd_entry : CLProcessor.t) : M Maze (bool * list suggestion) :=
  match CLProcessor.check_inputs cmd_entry with
  | inl e => raise e
  | inr _ => solve_maze cmd_entry
  end.
End SolveMaze.

(** The maze is an array of shape (h, w). *)
Definition has_shape (m : Maze) (h w : Z) : bool :=
  (Z.of_nat (length m) =? h)
  && forallb (fun row : list Cell => Z.of_nat (length row) =? w) m.

(** A cell outside [0, h) x [0, w). *)
Definition off_grid (h w : Z) (a : coord) : bool :=
  negb ((0 <=? fst a) && (fst a <? h) && (0 <=? snd a) && (snd a <? w)).

(** A cell that numpy indexing itself rejects: a component outside
    [-dim, dim). *)
Definition beyond_index (h w : Z) (a : coord) : bool :=
  negb ((- h <=? fst a) && (fst a <? h) && (- w <=? snd a) && (snd a <? w)).

(** ** read_maze_file

    The image is a two-dimensional array of pixel values ([0] is
    black).  The floating-point expressions of the source are rendered
    in integer arithmetic, which is exact for pixel indices:
    [int(sum(lst)/len(lst))] is the truncated quotient, and
    [int(a / d + 0.5)] is the truncated quotient of [2a + d] by [2d].
    The store holds the array [Grid] and the list [scan_index]. *)
Record scan_state : Type := {
  Grid : list (list Z);
  scan_index : list Z
}.

Definition arr_get (a : list (list Z)) (row col : Z) : option Z :=
  match py_get a row with
  | Some r => py_get r col
  | None => None
  end.

Definition arr_alter (f : Z -> Z) (a : list (list Z)) (row col : Z)
  : option (list (list Z)) :=
  match py_index (length a) row with
  | Some i =>
      match a !! i with
      | Some r =>
          match py_alter f r col with
          | Some r' => Some (<[i := r']> a)
          | None => None
          end
      | None => None
      end
  | None => None
  end.

(** [listAvg = lambda lst: int(sum(lst)/len(lst))] *)
Definition listAvg (lst : list Z) : Z :=
  Z.quot (fold_right Z.add 0 lst) (Z.of_nat (length lst)).

(** [int(listAvg(scan_index) / cell_dim + 0.5)]: the boundary index of
    a run closed by a non-wall pixel. *)
Definition cindex_closed (cell_dim : Z) (run : list Z) : Z :=
  Z.quot (2 * listAvg run + cell_dim) (2 * cell_dim).

(** [int(listAvg(scan_index) / cell_dim)]: the boundary index of a run
    still open when the scan line ends. *)
Definition cindex_open (cell_dim : Z) (run : list Z) : Z :=
  Z.quot (listAvg run) cell_dim.

(** [Grid[row][col] = ...] and [Grid[row][col] += ...] *)
Definition grid_update (f : Z -> Z) (row col : Z) : M scan_state unit :=
  fun st =>
    match arr_alter f (Grid st) row col with
    | Some g => (Ret tt, {| Grid := g; scan_index := scan_index st |})
    | None => (Raise IndexError, st)
    end.

Definition set_scan_index (l : list Z) : M scan_state unit :=
  fun st => (Ret tt, {| Grid := Grid st; scan_index := l |}).

Definition get_scan_index : M scan_state (list Z) :=
  fun st => (Ret (scan_index st), st).

(** [img.item(r, c)] *)
Definition img_item (img : list (list Z)) (r c : Z) : M scan_state Z :=
  match arr_get img r c with
  | Some v => ret v
  | None => raise IndexError
  end.

(** A division of floats by the cell size. *)
Definition check_divisor (d : Z) : M scan_state unit :=
  if d =? 0 then raise ZeroDivisionError else ret tt.

(** The block that records a vertical wall at boundary [cindex] of row
    [rows]. *)
Definition record_vertical (rows cindex : Z) : M scan_state unit :=
  let* _ :=
    (if cindex =? 0 then grid_update (fun _ => 1) rows 0
     else grid_update (fun v => v + 4) rows (cindex - 1)) in
  set_scan_index [].

(** Body of [for scan in range(num_cols)] of the row scan. *)
Definition row_scan_body (img : list (list Z)) (cell_width rows row_centre scan : Z)
  : M scan_state unit :=
  let* px := img_item img row_centre scan in
  let* run := get_scan_index in
  if px =? 0 then set_scan_index (run ++ [scan])
  else
    match run with
    | [] => ret tt
    | _ :: _ =>
        let* _ := check_divisor cell_width in
        record_vertical rows (cindex_closed cell_width run)
    end.

(** Body of [for rows in range(height)]. *)
Definition row_scan (img : list (list Z))
    (num_cols cell_width cell_height horiz_midpoint rows : Z) : M scan_state unit :=
  let row_centre := horiz_midpoint + cell_height * rows in
  let* _ :=
    for_each (py_range num_cols) (row_scan_body img cell_width rows row_centre) in
  let* run := get_scan_index in
  match run with
  | [] => ret tt
  | _ :: _ =>
      let* _ := check_divisor cell_width in
      record_vertical rows (cindex_open cell_width run)
  end.

(** Body of [for scan in range(num_rows)] of the column scan. *)
Definition col_scan_body (img : list (list Z)) (cell_height cols col_centre scan : Z)
  : M scan_state unit :=
  let* px := img_item img scan col_centre in
  let* run := get_scan_index in
  if px =? 0 then set_scan_index (run ++ [scan])
  else
    match run with
    | [] => ret tt
    | _ :: _ =>
        let* _ := check_divisor cell_height in
        let cindex := cindex_closed cell_height run in
        let* _ :=
          (if cindex =? 0 then grid_update (fun v => v + 2) 0 cols
           else grid_update (fun v => v + 8) (cindex - 1) cols) in
        set_scan_index []
    end.

(** Body of [for cols in range(width)]. *)
Definition col_scan (img : list (list Z))
    (num_rows cell_width cell_height vert_midpoint height cols : Z)
  : M scan_state unit :=
  let col_centre := vert_midpoint + cell_width * cols in
  let* _ := set_scan_index [] in
  let* _ :=
    for_each (py_range num_rows) (col_scan_body img cell_height cols col_centre) in
  let* run := get_scan_index in
  match run with
  | [] => ret tt
  | _ :: _ =>
      let* _ := check_divisor cell_height in
      let cindex := cindex_open cell_height run in
      let* _ :=
        (if cindex =? 0 then grid_update (fun v => v + 2) 0 cols
         else
           let cindex :=
             if (cols =? 0) && (cindex <? height - 1) then cindex + 1 else cindex in
           grid_update (fun v => v + 8) (cindex - 1) cols) in
      set_scan_index []
  end.

Definition read_maze_file (img : list (list Z)) (width height : Z)
  : outcome (list (list Z)) :=
  (* np.zeros((height, width)) *)
  if (width <? 0) || (height <? 0) then Raise ValueError
  else
    let Grid0 := replicate (Z.to_nat height) (replicate (Z.to_nat width) 0) in
    let num_rows := shape0 img in
    let num_cols := shape1 img in
    if width =? 0 then Raise ZeroDivisionError
    else if height =? 0 then Raise ZeroDivisionError
    else
      let cell_width := num_cols / width in
      let cell_height := num_rows / height in
      let horiz_midpoint := cell_height / 2 in
      let vert_midpoint := cell_width / 2 in
      let scan :=
        let* _ :=
          for_each (py_range height)
            (row_scan img num_cols cell_width cell_height horiz_midpoint) in
        for_each (py_range width)
          (col_scan img num_rows cell_width cell_height vert_midpoint height) in
      match scan {| Grid := Grid0; scan_index := [] |} with
      | (Ret _, st) => Ret (Grid st)
      | (Raise e, _) => Raise e
      | (OutOfFuel, _) => OutOfFuel
      end.

(** [process_maze] *)
Definition process_maze (img : list (list Z)) (width height : Z) : outcome Maze :=
  match read_maze_file img width height with
  | Ret grid => create_maze grid
  | Raise e => Raise e
  | OutOfFuel => OutOfFuel
  end.

(** Two one-row images with the same run of black pixels at columns
    6 and 7: in the first the scan line ends inside the run, in the
    second a white pixel closes it. *)
Definition image_ending_on_wall : list (list Z) :=
  [[255; 255; 255; 255; 255; 255; 0; 0]].

Definition image_wall_then_white : list (list Z) :=
  [[255; 255; 255; 255; 255; 255; 0; 0; 255]].

(** A 2 x 8 image of a maze with one row and two columns: black
    pixel columns 0, 4 and 7 are its left border, its inner wall and its
    right border. *)
Definition image_one_row_maze : list (list Z) :=
  [[0; 255; 255; 255; 0; 255; 255; 0];
   [0; 255; 255; 255; 0; 255; 255; 0]].

(** ** Further methods of MazeCell.Cell *)

(** [Cell.remove_wall] *)
Definition remove_wall (wi : Z) (self : Cell) : exn + Cell :=
  if 16 <? wi then inl ValueError
  else
    let remove_index := Z.land (wall_index self) wi in
    inr {| wall_index := wall_index self - remove_index;
           display_index := display_index self;
           visited := visited self; direction := direction self |}.

(** The directions [set_direction] accepts, and the bits of
    [display_index] that hold a direction. *)
Definition valid_direction (dir : Z) : bool :=
  existsb (Z.eqb dir) [go_none; go_nodir; go_left; go_up; go_right; go_down].

Definition direction_bits : Z :=
  Z.lor go_nodir (Z.lor go_left (Z.lor go_up (Z.lor go_right go_down))).

(** The START and FINISH captions of a cell as [image] tests them. *)
Definition shows_start (c : Cell) : bool := truthy (Z.land (display_index c) wi_start).
Definition shows_finish (c : Cell) : bool := truthy (Z.land (display_index c) wi_finish).

(** ** Reading a suggestion

    The cell on the other side of wall [w] of cell [a]. *)
Definition across (a : coord) (w : Z) : coord :=
  if w =? wi_bottom then (fst a + 1, snd a)
  else if w =? wi_top then (fst a - 1, snd a)
  else if w =? wi_right then (fst a, snd a + 1)
  else (fst a, snd a - 1).

Definition is_wall (w : Z) : bool :=
  (w =? wi_left) || (w =? wi_top) || (w =? wi_right) || (w =? wi_bottom).

(** The triples one candidate list contributes. *)
Definition suggestions_of (cands : list (coord * coord)) : list suggestion :=
  flat_map (fun c =>
    match shift_wall (fst (fst c) - fst (snd c)) (snd (fst c) - snd (snd c)) with
    | Some w => [(fst (fst c), snd (fst c), w)]
    | None => []
    end) cands.

(** ** Enclosed mazes, routes and visited cells

    Vocabulary for the statements about complete searches.  A maze is
    [enclosed] when it is a non-empty rectangle whose boundary cells
    all carry their outward wall; [fresh] when no cell is marked
    visited; [reachable m a b] when a route of open unit steps leads
    from [a] to [b]. *)
Definition is_visited (m : Maze) (a : coord) : bool :=
  match maze_get m (fst a) (snd a) with
  | Some c => visited c
  | None => false
  end.

Definition boundary_ok (h w r c : nat) (v : Z) : bool :=
  implb (r =? 0)%nat (truthy (Z.land v wi_top))
  && implb (r =? h - 1)%nat (truthy (Z.land v wi_bottom))
  && implb (c =? 0)%nat (truthy (Z.land v wi_left))
  && implb (c =? w - 1)%nat (truthy (Z.land v wi_right)).

Definition enclosed (m : Maze) : bool :=
  let walls := map (map wall_index) m in
  let h := length walls in
  let w := length (hd [] walls) in
  (1 <=? h)%nat && (1 <=? w)%nat
  && forallb (fun row : list Z => (length row =? w)%nat) walls
  && forallb (fun r =>
       forallb (fun c => boundary_ok h w r c (entry walls r c)) (seq 0 w))
     (seq 0 h).

Definition fresh (m : Maze) : bool :=
  forallb (forallb (fun c : Cell => negb (visited c))) m.

Definition reachable (m : Maze) (a b : coord) : Prop :=
  exists q, linked m (a :: q) = true /\ last (a :: q) = Some b.

(** The value [navigate_maze] assigns to [direction] before it steps
    from [a] to the neighbour [b]. *)
Definition go_toward (a b : coord) : option Z :=
  let row_shift := fst a - fst b in
  let col_shift := snd a - snd b in
  if (row_shift =? 0) && (col_shift =? 1) then Some go_left
  else if (row_shift =? 1) && (col_shift =? 0) then Some go_up
  else if (row_shift =? 0) && (col_shift =? -1) then Some go_right
  else if (row_shift =? -1) && (col_shift =? 0) then Some go_down
  else None.

(** Every cell of the route but the last holds the direction of the
    step to its successor. *)
Fixpoint pointing (m : Maze) (q : path) : Prop :=
  match q with
  | a :: q' =>
      match q' with
      | b :: _ =>
          (exists c, maze_get m (fst a) (snd a) = Some c /\
                     go_toward a b = Some (direction c))
          /\ pointing m q'
      | [] => True
      end
  | [] => True
  end.

(** Results of a monadic computation: it does not raise, and a
    returned value satisfies [P]. *)
Definition post {St A} (P : A -> St -> Prop) (r : outcome A * St) : Prop :=
  match r with
  | (Ret a, s) => P a s
  | (Raise _, _) => False
  | (OutOfFuel, _) => True
  end.

(** Cells visited between [m] and [m'] have all their open neighbours
    visited in [m']. *)
Definition closed_after (m m' : Maze) : Prop :=
  forall x y,
    in_bounds m x = true -> is_visited m x = false -> is_visited m' x = true ->
    step_ok m x y = true -> is_visited m' y = true.

(** Cells already visited in [m] are the same objects in [m']. *)
Definition frozen (m m' : Maze) : Prop :=
  forall x,
    in_bounds m x = true -> is_visited m x = true ->
    maze_get m' (fst x) (snd x) = maze_get m (fst x) (snd x).

(** Every cell visited between [m] and [m'] occurs in a recorded path. *)
Definition covered (m m' : Maze) (new : list path) : Prop :=
  forall x,
    in_bounds m x = true -> is_visited m x = false -> is_visited m' x = true ->
    exists r, In r new /\ In x r.

(** No cell visited between [m] and [m'] is the target. *)
Definition spares (to_cell : coord) (m m' : Maze) : Prop :=
  forall x,
    in_bounds m x = true -> is_visited m x = false -> is_visited m' x = true ->
    x <> to_cell.

(** A recorded path: the path handed to the activation, then a route
    from the activation's cell. *)
Definition record_of (m : Maze) (p : path) (from_cell : coord) (r : path) : Prop :=
  exists q, r = p ++ from_cell :: q /\ linked m (from_cell :: q) = true.

(** A solved route found by the activation at [from_cell]. *)
Definition route_of (m m' : Maze) (from_cell to_cell : coord) (q : path) : Prop :=
  linked m (from_cell :: q) = true /\
  last (from_cell :: q) = Some to_cell /\
  List.NoDup (from_cell :: q) /\
  (forall x, In x (removelast (from_cell :: q)) -> is_visited m x = false) /\
  pointing m' (from_cell :: q).

(** What an activation [navigate_maze(maze, from_cell, to_cell, p,
    all_paths)] that starts in maze [m] with the list [L] leaves
    behind. *)
Definition explored (m : Maze) (L : list path) (from_cell to_cell : coord)
    (p : path) (p' : path) (w' : world) : Prop :=
  maze_le m (maze w') /\
  frozen m (maze w') /\
  spares to_cell m (maze w') /\
  exists new,
    all_paths w' = L ++ new /\
    Forall (record_of m p from_cell) new /\
    ((exists q, p' = flag :: p ++ from_cell :: q /\
                route_of m (maze w') from_cell to_cell q)
     \/
     (p' = p /\ is_visited (maze w') from_cell = true /\
      closed_after m (maze w') /\ covered m (maze w') new)).

Definition explores (to_cell : coord) (rec : coord -> path -> M world path) : Prop :=
  forall n q w,
    enclosed (maze w) = true -> in_bounds (maze w) n = true -> unflagged q ->
    post (explored (maze w) (all_paths w) n to_cell q) (rec n q w).

(** The state between two of the four direction blocks of the
    activation at [from_cell], which started in maze [m0] with the
    list [L0] and the path [p]; [m1] is the maze after the cell was
    marked, [tried] the neighbours already dealt with. *)
Definition stage (m0 m1 : Maze) (L0 : list path) (from_cell to_cell : coord)
    (p : path) (tried : list coord) (q : path) (w : world) : Prop :=
  maze_le m1 (maze w) /\
  frozen m0 (maze w) /\
  spares to_cell m0 (maze w) /\
  exists new,
    all_paths w = L0 ++ new /\
    Forall (record_of m0 p from_cell) new /\
    ((exists qq, q = flag :: p ++ from_cell :: qq /\
                 route_of m0 (maze w) from_cell to_cell qq)
     \/
     (q = p ++ [from_cell] /\
      closed_after m1 (maze w) /\ covered m1 (maze w) new /\
      forall y, In y tried -> passable m0 from_cell y = true ->
                is_visited (maze w) y = true)).

(** Walls agree on both sides: a cell has RIGHT exactly when its right
    neighbour has LEFT, and BOTTOM exactly when the cell below has
    TOP. *)
Definition two_way (m : Maze) : bool :=
  forallb (fun r =>
    forallb (fun c =>
      match cell_at m r c with
      | Some x =>
          match cell_at m r (S c) with
          | Some y => Bool.eqb (has_wall x wi_right) (has_wall y wi_left)
          | None => true
          end
          && match cell_at m (S r) c with
             | Some y => Bool.eqb (has_wall x wi_bottom) (has_wall y wi_top)
             | None => true
             end
      | None => true
      end) (seq 0 (length (hd [] m)))) (seq 0 (length m)).

(** ** Mazes related cell by cell

    [maze_rel R m m']: the two mazes have the same shape and their
    cells are related by [R].  [same_search] relates cells that a
    search cannot tell apart; [keeps_search] lets visited marks be
    added. *)
Definition maze_rel (R : Cell -> Cell -> Prop) (m m' : Maze) : Prop :=
  Forall2 (Forall2 R) m m'.

Definition same_search (c c' : Cell) : Prop :=
  wall_index c' = wall_index c /\ visited c' = visited c.

Definition keeps_search (c c' : Cell) : Prop :=
  wall_index c' = wall_index c /\ (visited c = true -> visited c' = true).

(** Every cell of the route but the last displays the arrow of the
    step to its successor, and no other direction mark. *)
Fixpoint arrows (m : Maze) (q : path) : Prop :=
  match q with
  | a :: q' =>
      match q' with
      | b :: _ =>
          (exists c, maze_get m (fst a) (snd a) = Some c /\
                     go_toward a b
                     = Some (Z.land (display_index c) direction_bits))
          /\ arrows m q'
      | [] => True
      end
  | [] => True
  end.

(** ** Invariants of the scanner's store

    [on_grid P]: the array [Grid] satisfies [P]; [grid_ok h w]: shape
    (h, w) and no negative entry; [keeps I m]: a run of [m] that
    returns preserves [I]. *)
Definition on_grid (P : list (list Z) -> Prop) (st : scan_state) : Prop :=
  P (Grid st).

Definition grid_ok (h w : nat) (g : list (list Z)) : Prop :=
  rectangular h w g /\ Forall (Forall (fun v => 0 <= v)) g.

(** Bit 0 (LEFT) occurs only in column 0 and bit 1 (TOP) only in
    row 0. *)
Definition low_bits_ok (g : list (list Z)) : Prop :=
  forall r c row v,
    g !! r = Some row -> row !! c = Some v ->
    ((0 < c)%nat -> Z.testbit v 0 = false) /\
    ((0 < r)%nat -> Z.testbit v 1 = false).

Definition keeps {A} (I : scan_state -> Prop) (m : M scan_state A) : Prop :=
  forall st a st', I st -> m st = (Ret a, st') -> I st'.

(** ** circle_wall

    The class attributes [Cell.cell_width], [Cell.cell_height] and
    [Cell.scale], and the ellipse that [circle_wall] hands to
    [cv.ellipse]: its centre (x, y) and its axes.  The drawing itself
    is rendering and is not modelled.  When [wall] is none of the four
    wall masks no branch of the if/elif chain binds [axes_len], and
    the call ends in UnboundLocalError: [None]. *)
Definition Cell_cell_width : Z := 36.
Definition Cell_cell_height : Z := 36.
Definition Cell_scale : Z := 1.

Definition circle_wall (row col wall thickness : Z)
  : option ((Z * Z) * (Z * Z)) :=
  let cell_width := Cell_cell_width * Cell_scale in
  let cell_height := Cell_cell_height * Cell_scale in
  if wall =? wi_left then
    let axes_len := (cell_width / 4, cell_height / 2) in
    let r := (row + 1) * cell_height - cell_height / 2 in
    let c := col * cell_width - thickness in
    Some ((c, r), axes_len)
  else if wall =? wi_top then
    let axes_len := (cell_width / 2, cell_height / 4) in
    let r := row * cell_height - thickness in
    let c := (col + 1) * cell_width - cell_width / 2 in
    Some ((c, r), axes_len)
  else if wall =? wi_right then
    let axes_len := (cell_width / 4, cell_height / 2) in
    let r := (row + 1) * cell_height - cell_height / 2 in
    let c := (col + 1) * cell_width - thickness in
    Some ((c, r), axes_len)
  else if wall =? wi_bottom then
    let axes_len := (cell_width / 2, cell_height / 4) in
    let r := (row + 1) * cell_height - thickness in
    let c := (col + 1) * cell_width - cell_width / 2 in
    Some ((c, r), axes_len)
  else None.

(** The mask of the same wall seen from the cell on its other side. *)
Definition opposite_wall (w : Z) : Z :=
  if w =? wi_left then wi_right
  else if w =? wi_top then wi_bottom
  else if w =? wi_right then wi_left
  else wi_top.

(** ** One wall taken out

The cell that a successful [remove_wall(w)] leaves, and the
    relation "same visited mark, and no wall that was absent". *)
Definition open_cell (w : Z) (c : Cell) : Cell :=
  {| wall_index := wall_index c - Z.land (wall_index c) w;
     display_index := display_index c;
     visited := visited c; direction := direction c |}.

Definition opens (w : Z) (c c' : Cell) : Prop :=
  visited c' = visited c /\
  forall k, Z.land (wall_index c) k = 0 -> Z.land (wall_index c') k = 0.

(** ** Output file names (CLProcessor.py, MazeGUI.py)

    A Python string is a list of characters; the code below only
    compares them with the period.  [s.rfind(c)] for a
    one-character [c] is the highest index at which [c] occurs, or -1. *)
Fixpoint rfind (s : list ascii) (c : ascii) : Z :=
  match s with
  | [] => -1
  | x :: t =>
      let r := rfind t c in
      if 0 <=? r then r + 1 else if Ascii.eqb x c then 0 else -1
  end.

(** A slice bound of Python: a negative bound counts from the end, and
    every bound is clamped to the string. *)
Definition slice_bound (n i : Z) : nat :=
  Z.to_nat (if i <? 0 then Z.max 0 (n + i) else Z.min i n).

(** [s[:stop]] and [s[start:]] *)
Definition slice_to {A} (s : list A) (stop : Z) : list A :=
  firstn (slice_bound (Z.of_nat (length s)) stop) s.

Definition slice_from {A} (s : list A) (start : Z) : list A :=
  skipn (slice_bound (Z.of_nat (length s)) start) s.

Definition period : ascii := "."%char.

Definition jpg : list ascii := ["."; "j"; "p"; "g"]%char.

(** [CLProcessor.__make_new_filename]; [MainWindow.__make_new_filename]
    of MazeGUI.py has the same body. *)
Definition make_new_filename (filename add_string : list ascii) : list ascii :=
  let dotpos := rfind filename period in
  if dotpos =? -1 then
    (filename ++ add_string) ++ jpg
  else
    (slice_to filename (dotpos - Z.of_nat (length filename)) ++ add_string)
      ++ slice_from filename dotpos.

(** * Properties of the search *)

(** ** Python indexing *)

Lemma py_index_lt n i k : py_index n i = Some k -> (k < n)%nat.
Proof.
  unfold py_index.
  destruct ((0 <=? i) && (i <? Z.of_nat n)) eqn:E1.
  - intros [= <-]. apply andb_true_iff in E1 as [? ?]. lia.
  - destruct ((- Z.of_nat n <=? i) && (i <? 0)) eqn:E2; [|discriminate].
    intros [= <-]. apply andb_true_iff in E2 as [? ?]. lia.
Qed.

Lemma py_index_nonneg n i : 0 <= i < Z.of_nat n -> py_index n i = Some (Z.to_nat i).
Proof.
  intros H. unfold py_index.
  replace ((0 <=? i) && (i <? Z.of_nat n)) with true; [done|].
  symmetry. apply andb_true_iff. lia.
Qed.

Lemma py_index_of_nat n k : (k < n)%nat -> py_index n (Z.of_nat k) = Some k.
Proof.
  intros H. rewrite py_index_nonneg by lia. by rewrite Nat2Z.id.
Qed.

Lemma py_index_out n i : i < - Z.of_nat n \/ Z.of_nat n <= i -> py_index n i = None.
Proof.
  intros H. unfold py_index.
  replace ((0 <=? i) && (i <? Z.of_nat n)) with false
    by (symmetry; apply andb_false_iff; lia).
  replace ((- Z.of_nat n <=? i) && (i <? 0)) with false
    by (symmetry; apply andb_false_iff; lia).
  done.
Qed.

Lemma py_get_of_nat {A} (l : list A) k : py_get l (Z.of_nat k) = l !! k.
Proof.
  unfold py_get. destruct (decide (k < length l)%nat) as [Hk|Hk].
  - by rewrite py_index_of_nat.
  - rewrite py_index_out by lia. symmetry. apply lookup_ge_None. lia.
Qed.

(** ** The frame relation *)

Lemma cell_le_refl c : cell_le c c.
Proof. by repeat split. Qed.

Lemma cell_le_trans c1 c2 c3 : cell_le c1 c2 -> cell_le c2 c3 -> cell_le c1 c3.
Proof.
  intros (?&?&?) (?&?&?). repeat split; [congruence..|auto].
Qed.

Lemma row_le_refl (r : list Cell) : Forall2 cell_le r r.
Proof. induction r; constructor; auto using cell_le_refl. Qed.

Lemma maze_le_refl m : maze_le m m.
Proof. induction m; constructor; auto using row_le_refl. Qed.

Lemma maze_le_trans m1 m2 m3 : maze_le m1 m2 -> maze_le m2 m3 -> maze_le m1 m3.
Proof.
  unfold maze_le. intros H12 H23.
  eapply Forall2_trans; [|exact H12|exact H23].
  intros r1 r2 r3 Ha Hb. eapply Forall2_trans; [|exact Ha|exact Hb].
  apply cell_le_trans.
Qed.

Lemma maze_alter_le f m row col m' :
  (forall c, cell_le c (f c)) ->
  maze_alter f m row col = Some m' -> maze_le m m'.
Proof.
  intros Hf. unfold maze_alter, py_alter.
  destruct (py_index (length m) row) as [i|]; [|discriminate].
  destruct (m !! i) as [r|] eqn:Hr; [|discriminate].
  destruct (py_index (length r) col) as [k|]; [|discriminate].
  intros [= <-].
  rewrite <- (list_insert_id m i r Hr) at 1.
  apply Forall2_insert; [apply maze_le_refl|].
  apply Forall2_alter_r; [apply row_le_refl|].
  intros x y _ _ Hxy. eapply cell_le_trans; [exact Hxy|apply Hf].
Qed.

Lemma mark_visited_le c : cell_le c (mark_visited c).
Proof. by repeat split. Qed.

Lemma assign_direction_le d c : cell_le c (assign_direction d c).
Proof. by repeat split. Qed.

Lemma maze_le_walls m m' :
  maze_le m m' -> map (map wall_index) m' = map (map wall_index) m.
Proof.
  induction 1 as [|r r' m m' Hr _ IH]; [done|].
  simpl. f_equal; [|exact IH].
  induction Hr as [|c c' r r' (Hw&_) _ IHr]; [done|].
  simpl. by f_equal.
Qed.

Lemma maze_le_get m m' row col c' :
  maze_le m m' -> maze_get m' row col = Some c' ->
  exists c, maze_get m row col = Some c /\ cell_le c c'.
Proof.
  intros Hle. unfold maze_get, py_get.
  rewrite <- (Forall2_length _ _ _ Hle).
  destruct (py_index (length m) row) as [i|]; [|discriminate].
  destruct (m' !! i) as [r'|] eqn:Hr'; [|discriminate].
  destruct (Forall2_lookup_r _ _ _ _ _ Hle Hr') as (r & Hr & Hrr).
  rewrite Hr. rewrite <- (Forall2_length _ _ _ Hrr).
  destruct (py_index (length r) col) as [k|]; [|discriminate].
  intros Hc'. destruct (Forall2_lookup_r _ _ _ _ _ Hrr Hc') as (c & Hc & Hcc).
  eauto.
Qed.

Lemma maze_le_get_l m m' row col c :
  maze_le m m' -> maze_get m row col = Some c ->
  exists c', maze_get m' row col = Some c' /\ cell_le c c'.
Proof.
  intros Hle. unfold maze_get, py_get.
  rewrite <- (Forall2_length _ _ _ Hle).
  destruct (py_index (length m) row) as [i|]; [|discriminate].
  destruct (m !! i) as [r|] eqn:Hr; [|discriminate].
  destruct (Forall2_lookup_l _ _ _ _ _ Hle Hr) as (r' & Hr' & Hrr).
  rewrite Hr'. rewrite <- (Forall2_length _ _ _ Hrr).
  destruct (py_index (length r) col) as [k|]; [|discriminate].
  intros Hc. destruct (Forall2_lookup_l _ _ _ _ _ Hrr Hc) as (c' & Hc' & Hcc).
  eauto.
Qed.

Lemma row_le_unvisited r r' :
  Forall2 cell_le r r' -> (unvisited_row r' <= unvisited_row r)%nat.
Proof.
  induction 1 as [|c c' r r' (_&_&Hv) _ IH]; [done|].
  unfold unvisited_row in *. simpl.
  destruct (visited c); [rewrite Hv by done|destruct (visited c')]; lia.
Qed.

Lemma maze_le_unvisited m m' : maze_le m m' -> (unvisited m' <= unvisited m)%nat.
Proof.
  induction 1 as [|r r' m m' Hr _ IH]; [done|].
  unfold unvisited in *. simpl. apply row_le_unvisited in Hr. lia.
Qed.

Lemma row_le_length_sum m m' : maze_le m m' -> cell_count m' = cell_count m.
Proof.
  induction 1 as [|r r' m m' Hr _ IH]; [done|].
  unfold cell_count in *. simpl. rewrite IH.
  by rewrite (Forall2_length _ _ _ Hr).
Qed.

Lemma unvisited_row_le_length r : (unvisited_row r <= length r)%nat.
Proof.
  induction r as [|c r IH]; [done|].
  unfold unvisited_row in *. simpl. destruct (visited c); lia.
Qed.

Lemma unvisited_le_cell_count m : (unvisited m <= cell_count m)%nat.
Proof.
  induction m as [|r m IH]; [done|].
  unfold unvisited, cell_count in *. simpl.
  pose proof (unvisited_row_le_length r). lia.
Qed.

Lemma unvisited_row_mark r k c :
  r !! k = Some c -> visited c = false ->
  S (unvisited_row (alter mark_visited k r)) = unvisited_row r.
Proof.
  revert k. induction r as [|x r IH]; intros k Hk Hv; [done|].
  destruct k as [|k]; simplify_eq/=.
  - unfold unvisited_row. simpl. by rewrite Hv.
  - unfold unvisited_row in *. simpl. rewrite <- (IH k Hk Hv). lia.
Qed.

Lemma unvisited_insert m i r r' :
  m !! i = Some r ->
  (unvisited (<[i := r']> m) + unvisited_row r = unvisited m + unvisited_row r')%nat.
Proof.
  revert i. induction m as [|x m IH]; intros i Hi; [done|].
  destruct i as [|i]; simplify_eq/=.
  - unfold unvisited. simpl. lia.
  - unfold unvisited in *. simpl. specialize (IH i Hi). lia.
Qed.

Lemma unvisited_mark m row col c m' :
  maze_get m row col = Some c -> visited c = false ->
  maze_alter mark_visited m row col = Some m' ->
  S (unvisited m') = unvisited m.
Proof.
  unfold maze_get, maze_alter, py_get, py_alter.
  destruct (py_index (length m) row) as [i|]; [|discriminate].
  destruct (m !! i) as [r|] eqn:Hr; [|discriminate].
  destruct (py_index (length r) col) as [k|]; [|discriminate].
  intros Hc Hv [= <-].
  pose proof (unvisited_insert m i r (alter mark_visited k r) Hr).
  pose proof (unvisited_row_mark r k c Hc Hv). lia.
Qed.

Lemma maze_alter_defined f m row col c :
  maze_get m row col = Some c -> exists m', maze_alter f m row col = Some m'.
Proof.
  unfold maze_get, maze_alter, py_get, py_alter.
  destruct (py_index (length m) row) as [i|]; [|discriminate].
  destruct (m !! i) as [r|] eqn:Hr; [|discriminate].
  destruct (py_index (length r) col) as [k|]; [|discriminate].
  eauto.
Qed.

Ltac split_frame := unfold frame; split; [|split].

Lemma frame_refl w : frame 0 w w.
Proof. split_frame; [apply maze_le_refl|lia|lia]. Qed.

Lemma frame_trans k1 k2 w1 w2 w3 :
  frame k1 w1 w2 -> frame k2 w2 w3 -> frame (k1 + k2) w1 w3.
Proof.
  intros (Hm1&Hu1&Hc1) (Hm2&Hu2&Hc2).
  split_frame; [eapply maze_le_trans; eauto|lia|lia].
Qed.

Lemma frame_weaken k k' w w' : k <= k' -> frame k w w' -> frame k' w w'.
Proof. intros Hk (Hm&Hu&Hc). split_frame; [done|done|lia]. Qed.

Lemma frame_bind {A B} k1 k2 (m : M world A) (f : A -> M world B) w :
  0 <= k2 ->
  frame k1 w (snd (m w)) -> (forall a, sat k2 (f a)) ->
  frame (k1 + k2) w (snd (bind m f w)).
Proof.
  intros Hk Hm Hf. unfold bind.
  destruct (m w) as [[a|e|] w1]; simpl in *.
  - eapply frame_trans; [exact Hm|apply Hf].
  - eapply frame_weaken; [|exact Hm]. lia.
  - eapply frame_weaken; [|exact Hm]. lia.
Qed.

Lemma bind_assoc {St A B C} (m : M St A) (f : A -> M St B) (g : B -> M St C) s :
  bind (bind m f) g s = bind m (fun a => bind (f a) g) s.
Proof. unfold bind. by destruct (m s) as [[a|e|] s1]. Qed.

Lemma frame_bind2 {A B C} k1 k2 (m : M world A) (f : A -> M world B)
    (g : B -> M world C) w :
  0 <= k2 ->
  frame k1 w (snd (bind m f w)) -> (forall b, sat k2 (g b)) ->
  frame (k1 + k2) w (snd (bind m (fun a => bind (f a) g) w)).
Proof. intros Hk Hm Hg. rewrite <- bind_assoc. by apply frame_bind. Qed.

Lemma sat_bind {A B} k1 k2 (m : M world A) (f : A -> M world B) :
  0 <= k2 -> sat k1 m -> (forall a, sat k2 (f a)) -> sat (k1 + k2) (bind m f).
Proof. intros Hk Hm Hf w. by apply frame_bind. Qed.

Lemma sat_weaken {A} k k' (m : M world A) : k <= k' -> sat k m -> sat k' m.
Proof. intros Hk Hm w. eapply frame_weaken; [exact Hk|apply Hm]. Qed.

Lemma sat_ret {A} (a : A) : sat 0 (ret a).
Proof. intros w. apply frame_refl. Qed.

Lemma sat_raise {A} e : sat 0 (@raise world A e).
Proof. intros w. apply frame_refl. Qed.

Lemma sat_path_first p : sat 0 (path_first p).
Proof. destruct p; [apply sat_raise|apply sat_ret]. Qed.

Lemma sat_path_pop p : sat 0 (path_pop p).
Proof. destruct p; [apply sat_raise|apply sat_ret]. Qed.

Lemma sat_cell_ref row col : sat 0 (cell_ref row col).
Proof.
  intros w. unfold cell_ref.
  destruct (maze_get (maze w) row col); apply frame_refl.
Qed.

Lemma sat_assign_direction go row col :
  sat 0 (cell_update (assign_direction go) row col).
Proof.
  intros w. unfold cell_update.
  destruct (maze_alter _ (maze w) row col) as [m'|] eqn:Hm; [|apply frame_refl].
  pose proof (maze_alter_le _ _ _ _ _ (assign_direction_le go) Hm) as Hle.
  assert (unvisited (maze w) = unvisited m') as Hu.
  { apply Nat.le_antisymm; [|by apply maze_le_unvisited].
    clear Hle. revert Hm. unfold maze_alter, py_alter.
    destruct (py_index (length (maze w)) row) as [i|]; [|discriminate].
    destruct (maze w !! i) as [r|] eqn:Hr; [|discriminate].
    destruct (py_index (length r) col) as [k|]; [|discriminate].
    intros [= <-].
    pose proof (unvisited_insert (maze w) i r (alter (assign_direction go) k r) Hr).
    assert (unvisited_row (alter (assign_direction go) k r) = unvisited_row r) as Hrow.
    { clear. revert k. unfold unvisited_row.
      induction r as [|x r IH]; intros [|k]; simpl; [done..|].
      f_equal. apply IH. }
    lia. }
  split_frame; simpl; [done|lia|lia].
Qed.

Lemma sat_append_all_paths p : sat 0 (append_all_paths p).
Proof. intros w. split_frame; simpl; [apply maze_le_refl|lia|lia]. Qed.

Lemma sat_tick_call : sat 1 tick_call.
Proof. intros w. split_frame; simpl; [apply maze_le_refl|lia|lia]. Qed.

Lemma sat_try_move rec row col wi go next p :
  (forall n q, sat 1 (rec n q)) ->
  sat 1 (try_move rec row col wi go next p).
Proof.
  intros Hrec. unfold try_move.
  apply (sat_bind 0 1); [lia|apply sat_cell_ref|]. intros c.
  destruct (truthy _); [eapply sat_weaken; [|apply sat_ret]; lia|].
  apply (sat_bind 0 1); [lia|apply sat_path_first|]. intros h.
  destruct (coord_eqb h flag); [eapply sat_weaken; [|apply sat_ret]; lia|].
  apply (sat_bind 0 1); [lia|apply sat_assign_direction|]. intros _.
  apply Hrec.
Qed.

(** The guard-passing step: marking an unvisited cell and counting it. *)
Lemma frame_enter row col w c :
  maze_get (maze w) row col = Some c -> visited c = false ->
  frame (-4) w
    (snd ((let* _ := cell_update mark_visited row col in tick_entered) w)).
Proof.
  intros Hc Hv. unfold bind, cell_update.
  destruct (maze_alter_defined mark_visited _ _ _ _ Hc) as (m' & Hm').
  rewrite Hm'. simpl.
  pose proof (unvisited_mark _ _ _ _ _ Hc Hv Hm').
  split_frame; simpl; [|lia|lia].
  eapply maze_alter_le; [apply mark_visited_le|exact Hm'].
Qed.

Lemma sat_navigate_maze fuel :
  forall from_cell to_cell p, sat 1 (navigate_maze fuel from_cell to_cell p).
Proof.
  induction fuel as [|fuel IH]; intros from_cell to_cell p.
  { intros w. simpl. eapply frame_weaken; [|apply frame_refl]. lia. }
  simpl.
  apply (sat_bind 1 0); [lia|apply sat_tick_call|]. intros _.
  destruct (coord_eqb from_cell to_cell); [apply sat_ret|].
  intros w. unfold bind at 1. unfold cell_ref at 1.
  destruct (maze_get (maze w) (fst from_cell) (snd from_cell)) as [c|] eqn:Hc;
    [|apply frame_refl].
  destruct (visited c) eqn:Hv; [apply frame_refl|].
  destruct p as [|h p]; [apply frame_refl|].
  cbn [path_first]. unfold bind at 1, ret at 1.
  destruct (coord_eqb h flag); [apply frame_refl|].
  change 0 with (-4 + 4).
  pose proof (frame_enter _ _ _ _ Hc Hv) as Hent.
  apply (frame_bind2 (-4) 4 _ (fun _ => tick_entered)); [lia|exact Hent|].
  intros _.
  assert (forall n q, sat 1 (navigate_maze fuel n to_cell q)) as Hrec by auto.
  apply (sat_bind 1 3); [lia|by apply sat_try_move|]. intros p1.
  apply (sat_bind 1 2); [lia|by apply sat_try_move|]. intros p2.
  apply (sat_bind 1 1); [lia|by apply sat_try_move|]. intros p3.
  apply (sat_bind 1 0); [lia|by apply sat_try_move|]. intros p4.
  apply (sat_bind 0 0); [lia|apply sat_path_first|]. intros h'.
  destruct (coord_eqb h' flag); [apply sat_ret|].
  apply (sat_bind 0 0); [lia|apply sat_append_all_paths|]. intros _.
  apply sat_path_pop.
Qed.


(** ** Termination: the fuel never runs out *)

Lemma frame_unvisited k w w' :
  frame k w w' -> (unvisited (maze w') <= unvisited (maze w))%nat.
Proof. intros (Hm&_). by apply maze_le_unvisited. Qed.

Lemma total_bind {A B} n k (m : M world A) (f : A -> M world B) :
  total n m -> sat k m -> (forall a, total n (f a)) -> total n (bind m f).
Proof.
  intros Hm Hs Hf w Hw. unfold bind.
  specialize (Hm w Hw). specialize (Hs w). apply frame_unvisited in Hs.
  destruct (m w) as [[a|e|] w1]; simpl in *; [|done|done].
  apply Hf. lia.
Qed.

Lemma total_ret {A} n (a : A) : total n (ret a).
Proof. by intros w _. Qed.

Lemma total_raise {A} n e : total n (@raise world A e).
Proof. by intros w _. Qed.

Lemma total_path_first n p : total n (path_first p).
Proof. destruct p; [apply total_raise|apply total_ret]. Qed.

Lemma total_path_pop n p : total n (path_pop p).
Proof. destruct p; [apply total_raise|apply total_ret]. Qed.

Lemma total_cell_ref n row col : total n (cell_ref row col).
Proof. intros w _. unfold cell_ref. by destruct (maze_get _ _ _). Qed.

Lemma total_cell_update n f row col : total n (cell_update f row col).
Proof. intros w _. unfold cell_update. by destruct (maze_alter _ _ _ _). Qed.

Lemma total_try_move n rec row col wi go next p :
  (forall c q, total n (rec c q)) ->
  total n (try_move rec row col wi go next p).
Proof.
  intros Hrec. unfold try_move.
  eapply total_bind; [apply total_cell_ref|apply sat_cell_ref|]. intros c.
  destruct (truthy _); [apply total_ret|].
  eapply total_bind; [apply total_path_first|apply sat_path_first|]. intros h.
  destruct (coord_eqb h flag); [apply total_ret|].
  eapply total_bind; [apply total_cell_update|apply sat_assign_direction|].
  intros _. apply Hrec.
Qed.

Lemma navigate_maze_total fuel :
  forall from_cell to_cell p, total fuel (navigate_maze fuel from_cell to_cell p).
Proof.
  induction fuel as [|fuel IH]; intros from_cell to_cell p w Hw; [lia|].
  simpl. unfold bind at 1. cbn [tick_call].
  destruct (coord_eqb from_cell to_cell); [done|].
  unfold bind at 1, cell_ref at 1. cbn [maze].
  destruct (maze_get (maze w) (fst from_cell) (snd from_cell)) as [c|] eqn:Hc;
    [|done].
  destruct (visited c) eqn:Hv; [done|].
  destruct p as [|h p]; [done|].
  cbn [path_first]. unfold bind at 1, ret at 1.
  destruct (coord_eqb h flag); [done|].
  set (w1 := {| maze := maze w; all_paths := all_paths w;
                entered := entered w; calls := S (calls w) |}).
  assert (maze_get (maze w1) (fst from_cell) (snd from_cell) = Some c) as Hc1
    by exact Hc.
  pose proof (frame_enter _ _ _ _ Hc1 Hv) as Hent.
  rewrite <- bind_assoc. unfold bind at 1.
  destruct ((let* _ := cell_update mark_visited _ _ in tick_entered) w1)
    as [[[]|e|] w3] eqn:Hw3; simpl in Hent |- *.
  2:{ done. }
  2:{ revert Hw3. unfold bind, cell_update, tick_entered.
      by destruct (maze_alter _ _ _ _). }
  assert (unvisited (maze w3) < fuel)%nat as Hlt.
  { destruct Hent as (_&Hu&_).
    assert (entered w3 = S (entered w1)) as He.
    { revert Hw3. unfold bind, cell_update, tick_entered.
      destruct (maze_alter _ _ _ _); [|done]. by intros [= <-]. }
    simpl in Hu. rewrite He in Hu. simpl in Hu. lia. }
  clear Hw3 Hent. revert w3 Hlt.
  assert (forall c q, total fuel (navigate_maze fuel c to_cell q)) as Hrec by auto.
  assert (forall c q, sat 1 (navigate_maze fuel c to_cell q)) as Hsat
    by (intros; apply sat_navigate_maze).
  change (total fuel
    (let* p1 := try_move (fun n q => navigate_maze fuel n to_cell q)
                  (fst from_cell) (snd from_cell) wi_left go_left
                  (fst from_cell, snd from_cell - 1) ((h :: p) ++ [from_cell]) in
     let* p2 := try_move (fun n q => navigate_maze fuel n to_cell q)
                  (fst from_cell) (snd from_cell) wi_top go_up
                  (fst from_cell - 1, snd from_cell) p1 in
     let* p3 := try_move (fun n q => navigate_maze fuel n to_cell q)
                  (fst from_cell) (snd from_cell) wi_right go_right
                  (fst from_cell, snd from_cell + 1) p2 in
     let* p4 := try_move (fun n q => navigate_maze fuel n to_cell q)
                  (fst from_cell) (snd from_cell) wi_bottom go_down
                  (fst from_cell + 1, snd from_cell) p3 in
     let* h0 := path_first p4 in
     if coord_eqb h0 flag then ret p4
     else let* _ := append_all_paths p4 in path_pop p4)).
  eapply total_bind; [by apply total_try_move|by apply sat_try_move|]. intros p1.
  eapply total_bind; [by apply total_try_move|by apply sat_try_move|]. intros p2.
  eapply total_bind; [by apply total_try_move|by apply sat_try_move|]. intros p3.
  eapply total_bind; [by apply total_try_move|by apply sat_try_move|]. intros p4.
  eapply total_bind; [apply total_path_first|apply sat_path_first|]. intros h'.
  destruct (coord_eqb h' flag); [apply total_ret|].
  eapply total_bind; [|apply sat_append_all_paths|intros _; apply total_path_pop].
  by intros ? _.
Qed.

(** ** The shape of the returned path *)

Lemma coord_eqb_eq a b : coord_eqb a b = true <-> a = b.
Proof.
  unfold coord_eqb. destruct a as [a1 a2], b as [b1 b2]. simpl.
  rewrite andb_true_iff, !Z.eqb_eq. split; [intros [-> ->]|intros [= -> ->]]; done.
Qed.

Lemma bind_Ret_inv {St A B} (m : M St A) (f : A -> M St B) s b s' :
  bind m f s = (Ret b, s') ->
  exists a s1, m s = (Ret a, s1) /\ f a s1 = (Ret b, s').
Proof.
  unfold bind. destruct (m s) as [[a|e|] s1]; [eauto|done|done].
Qed.

Lemma passable_le m m' a b : maze_le m m' -> passable m' a b = passable m a b.
Proof.
  intros Hle. unfold passable. destruct (wall_toward a b) as [wi|]; [|done].
  destruct (maze_get m (fst a) (snd a)) as [c|] eqn:Hc.
  - destruct (maze_le_get_l _ _ _ _ _ Hle Hc) as (c' & -> & (Hw&_)).
    by rewrite Hw.
  - destruct (maze_get m' (fst a) (snd a)) as [c'|] eqn:Hc'; [|done].
    destruct (maze_le_get _ _ _ _ _ Hle Hc') as (c & Hc2 & _). congruence.
Qed.

Lemma linked_le m m' q : maze_le m m' -> linked m' q = linked m q.
Proof.
  intros Hle. induction q as [|a q IH]; [done|].
  simpl. destruct q as [|b q]; [done|].
  unfold step_ok. by rewrite IH, (passable_le _ _ _ _ Hle).
Qed.

Lemma wall_toward_adjacent a b wi : wall_toward a b = Some wi -> adjacent a b = true.
Proof.
  unfold wall_toward, adjacent, calc_distance_sq.
  repeat match goal with
  | |- context [(?x =? ?y) && (?u =? ?v)] =>
      let E := fresh "E" in
      destruct ((x =? y) && (u =? v)) eqn:E;
      [apply andb_true_iff in E as [Hr Hc];
       apply Z.eqb_eq in Hr, Hc; rewrite Hr, Hc; done|]
  end; done.
Qed.

Lemma try_move_flagged rec row col wi go next x w p' w' :
  try_move rec row col wi go next x w = (Ret p', w') -> flagged x -> p' = x.
Proof.
  intros H [t ->]. unfold try_move in H.
  apply bind_Ret_inv in H as (c & w1 & _ & H).
  destruct (truthy _); [by injection H|].
  apply bind_Ret_inv in H as (h & w2 & Hh & H).
  injection Hh as <- <-. cbn in H. by injection H.
Qed.

Lemma try_move_shape to_cell rec row col wi go next p w p' w' :
  shape_spec to_cell rec ->
  wall_toward (row, col) next = Some wi ->
  unflagged p ->
  try_move rec row col wi go next (p ++ [(row, col)]) w = (Ret p', w') ->
  p' = p ++ [(row, col)] \/ solved_from (maze w) p (row, col) to_cell p'.
Proof.
  intros Hrec Hwi (h & t & -> & Hh) H. unfold try_move in H.
  apply bind_Ret_inv in H as (c & w1 & Hc & H).
  unfold cell_ref in Hc.
  destruct (maze_get (maze w) row col) as [c0|] eqn:Hget; [|done].
  injection Hc as -> <-.
  destruct (truthy _) eqn:Hwall; [left; by injection H|].
  apply bind_Ret_inv in H as (h' & w2 & Hh' & H).
  injection Hh' as <- <-. rewrite Hh in H.
  apply bind_Ret_inv in H as ([] & w3 & Hupd & H).
  pose proof (sat_assign_direction go row col w) as (Hle & _).
  rewrite Hupd in Hle. simpl in Hle.
  assert (unflagged ((h :: t) ++ [(row, col)])) as Hun
    by (by exists h, (t ++ [(row, col)])).
  destruct (Hrec _ _ _ _ _ H Hun) as [->|(q & -> & Hq & Hlast)]; [by left|right].
  exists (next :: q). split; [by rewrite <- app_assoc|].
  split.
  - rewrite (linked_le _ _ _ Hle) in Hq.
    change (step_ok (maze w) (row, col) next && linked (maze w) (next :: q) = true).
    rewrite Hq, andb_true_r. unfold step_ok, passable.
    rewrite (wall_toward_adjacent _ _ _ Hwi), Hwi. simpl.
    by rewrite Hget, Hwall.
  - exact Hlast.
Qed.

Lemma navigate_maze_shape fuel :
  forall to_cell, shape_spec to_cell (fun n q => navigate_maze fuel n to_cell q).
Proof.
  induction fuel as [|fuel IH]; intros to_cell from_cell p w p' w' H Hp; [done|].
  simpl in H.
  apply bind_Ret_inv in H as ([] & w1 & Hw1 & H).
  injection Hw1 as Hw1.
  destruct (coord_eqb from_cell to_cell) eqn:Heq.
  { injection H as <- _. right. exists []. apply coord_eqb_eq in Heq. by subst. }
  apply bind_Ret_inv in H as (c & w1' & Hc & H).
  unfold cell_ref in Hc.
  destruct (maze_get (maze w1) (fst from_cell) (snd from_cell)) as [c0|]; [|done].
  injection Hc as -> <-.
  destruct (visited c); [left; by injection H|].
  destruct Hp as (h & t & -> & Hh).
  apply bind_Ret_inv in H as (h' & w2 & Hh' & H). injection Hh' as <- <-.
  rewrite Hh in H.
  apply bind_Ret_inv in H as ([] & w2 & Hw2 & H).
  apply bind_Ret_inv in H as ([] & w3 & Hw3 & H).
  assert (maze_le (maze w) (maze w3)) as Hle3.
  { subst w1. unfold cell_update in Hw2. simpl in Hw2.
    destruct (maze_alter _ _ _ _) as [m2|] eqn:Hm2; [|done].
    injection Hw2 as <-. injection Hw3 as <-. simpl.
    eapply maze_alter_le; [apply mark_visited_le|exact Hm2]. }
  clear Hw1 Hw2 Hw3 w1 w2.
  set (rec := fun n q => navigate_maze fuel n to_cell q) in *.
  assert (forall wi go next x wa pb wb,
    maze_le (maze w) (maze wa) ->
    wall_toward (fst from_cell, snd from_cell) next = Some wi ->
    try_move rec (fst from_cell) (snd from_cell) wi go next x wa = (Ret pb, wb) ->
    (x = (h :: t) ++ [from_cell] \/
     solved_from (maze w) (h :: t) from_cell to_cell x) ->
    maze_le (maze w) (maze wb) /\
    (pb = (h :: t) ++ [from_cell] \/
     solved_from (maze w) (h :: t) from_cell to_cell pb)) as Hstage.
  { intros wi go next x wa pb wb Hle Hwi Htm Hx.
    assert (maze_le (maze w) (maze wb)) as Hleb.
    { eapply maze_le_trans; [exact Hle|].
      assert (sat 1 (try_move rec (fst from_cell) (snd from_cell) wi go next x))
        as Hs by (apply sat_try_move; intros; apply sat_navigate_maze).
      specialize (Hs wa) as (Hs&_). by rewrite Htm in Hs. }
    split; [exact Hleb|].
    destruct Hx as [->|Hx].
    - destruct from_cell as [row col]. simpl in *.
      assert (unflagged (h :: t)) as Hun by (by exists h, t).
      destruct (try_move_shape to_cell rec row col wi go next (h :: t)
                  wa pb wb (IH to_cell) Hwi Hun Htm)
        as [->|(q & -> & Hq & Hlast)]; [by left|right].
      exists q. by rewrite <- (linked_le _ _ _ Hle).
    - assert (pb = x) as ->; [|by right].
      eapply try_move_flagged; [exact Htm|].
      destruct Hx as (q & -> & _). by eexists. }
  apply bind_Ret_inv in H as (p1 & w4 & H1 & H).
  apply bind_Ret_inv in H as (p2 & w5 & H2 & H).
  apply bind_Ret_inv in H as (p3 & w6 & H3 & H).
  apply bind_Ret_inv in H as (p4 & w7 & H4 & H).
  eapply Hstage in H1 as (Hle4 & Hp1); [|exact Hle3| |by left].
  2:{ unfold wall_toward; simpl.
      replace (fst from_cell - fst from_cell) with 0 by lia.
      by replace (snd from_cell - (snd from_cell - 1)) with 1 by lia. }
  eapply Hstage in H2 as (Hle5 & Hp2); [|exact Hle4| |exact Hp1].
  2:{ unfold wall_toward; simpl.
      replace (fst from_cell - (fst from_cell - 1)) with 1 by lia.
      by replace (snd from_cell - snd from_cell) with 0 by lia. }
  eapply Hstage in H3 as (Hle6 & Hp3); [|exact Hle5| |exact Hp2].
  2:{ unfold wall_toward; simpl.
      replace (fst from_cell - fst from_cell) with 0 by lia.
      by replace (snd from_cell - (snd from_cell + 1)) with (-1) by lia. }
  eapply Hstage in H4 as (Hle7 & Hp4); [|exact Hle6| |exact Hp3].
  2:{ unfold wall_toward; simpl.
      replace (fst from_cell - (fst from_cell + 1)) with (-1) by lia.
      by replace (snd from_cell - snd from_cell) with 0 by lia. }
  destruct Hp4 as [->|Hsolved].
  - simpl in H. apply bind_Ret_inv in H as (h' & w8 & Hh' & H).
    injection Hh' as <- <-. rewrite Hh in H.
    apply bind_Ret_inv in H as ([] & w9 & _ & H).
    injection H as <- _. left.
    change (removelast ((h :: t) ++ [from_cell]) = h :: t).
    apply removelast_last.
  - right. destruct Hsolved as (q & -> & Hq).
    apply bind_Ret_inv in H as (h' & w8 & Hh' & H).
    injection Hh' as <- <-. cbn in H. injection H as <- _.
    by exists q.
Qed.

(** ** find_paths *)

Lemma clear_loop_id m : clear_loop m = (Ret tt, m).
Proof.
  unfold clear_loop. f_equal.
  induction m as [|r m IH]; [done|]. simpl. rewrite IH. f_equal.
  induction r as [|c r IHr]; [done|]. simpl. by rewrite IHr.
Qed.

Lemma run_navigate_le a b m : maze_le m (snd (run_navigate a b m)).
Proof.
  unfold run_navigate.
  pose proof (sat_navigate_maze (S (cell_count m)) a b [a]
    {| maze := m; all_paths := []; entered := 0; calls := 0 |}) as (Hle&_).
  by destruct (navigate_maze _ _ _ _ _) as [[?|?|] w].
Qed.

Lemma run_navigate_total a b m : fst (run_navigate a b m) <> OutOfFuel.
Proof.
  unfold run_navigate.
  assert (fst (navigate_maze (S (cell_count m)) a b [a]
    {| maze := m; all_paths := []; entered := 0; calls := 0 |}) <> OutOfFuel) as Ht.
  { apply navigate_maze_total. cbn [maze].
    pose proof (unvisited_le_cell_count m). lia. }
  by destruct (navigate_maze _ _ _ _ _) as [[?|?|] w].
Qed.

Lemma run_navigate_shape a b m p paths m' :
  run_navigate a b m = (Ret (p, paths), m') -> coord_eqb a flag = false ->
  p = [a] \/ solved_from m [a] a b p.
Proof.
  unfold run_navigate. intros H Ha.
  destruct (navigate_maze _ _ _ _ _) as [[p0|?|] w] eqn:Hnav; [|done|done].
  injection H as <- _ _.
  apply (navigate_maze_shape (S (cell_count m)) b a [a] _ _ _ Hnav).
  by exists a, [].
Qed.

Lemma find_paths_unfold s f m :
  find_paths s f m =
  match run_navigate s f m with
  | (Ret (p, from_start), m1) =>
      if 1 <? Z.of_nat (length p) then (Ret (FoundPath p), m1)
      else
        match run_navigate f s m1 with
        | (Ret (_, from_finish), m2) => (Ret (DeadEnds from_start from_finish), m2)
        | (Raise e, m2) => (Raise e, m2)
        | (OutOfFuel, m2) => (OutOfFuel, m2)
        end
  | (Raise e, m1) => (Raise e, m1)
  | (OutOfFuel, m1) => (OutOfFuel, m1)
  end.
Proof.
  unfold find_paths, forward_search.
  unfold bind at 1. unfold bind at 1. rewrite clear_loop_id.
  destruct (run_navigate s f m) as [[[p from_start]|e|] m1]; [|done|done].
  destruct (1 <? _); [done|].
  unfold bind at 1. rewrite clear_loop_id. unfold bind.
  by destruct (run_navigate f s m1) as [[[p' from_finish]|e|] m2].
Qed.

Lemma find_paths_le s f m : maze_le m (snd (find_paths s f m)).
Proof.
  rewrite find_paths_unfold.
  pose proof (run_navigate_le s f m) as H1.
  destruct (run_navigate s f m) as [[[p from_start]|?|] m1]; simpl in *; [|done|done].
  destruct (1 <? _); [done|].
  pose proof (run_navigate_le f s m1) as H2.
  destruct (run_navigate f s m1) as [[[p' from_finish]|?|] m2]; simpl in *;
    eapply maze_le_trans; eauto.
Qed.

Lemma find_paths_total s f m : fst (find_paths s f m) <> OutOfFuel.
Proof.
  rewrite find_paths_unfold.
  pose proof (run_navigate_total s f m) as H1.
  destruct (run_navigate s f m) as [[[p from_start]|?|] m1]; simpl in *; [|done|done].
  destruct (1 <? _); [done|].
  pose proof (run_navigate_total f s m1) as H2.
  by destruct (run_navigate f s m1) as [[[p' from_finish]|?|] m2].
Qed.

Lemma find_paths_found s f m p m' :
  find_paths s f m = (Ret (FoundPath p), m') -> coord_eqb s flag = false ->
  solved_from m [s] s f p.
Proof.
  rewrite find_paths_unfold. intros H Hs.
  destruct (run_navigate s f m) as [[[p0 from_start]|?|] m1] eqn:Hrun; [|done|done].
  destruct (1 <? Z.of_nat (length p0)) eqn:Hlen.
  - injection H as <- _.
    destruct (run_navigate_shape _ _ _ _ _ _ Hrun Hs) as [->|Hsol]; [done|exact Hsol].
  - by destruct (run_navigate f s m1) as [[[p' from_finish]|?|] m2].
Qed.

Lemma in_bounds_not_flag m a : in_bounds m a = true -> coord_eqb a flag = false.
Proof.
  unfold in_bounds, coord_eqb, flag. simpl. intros H.
  apply andb_true_iff in H as [H _]. apply andb_true_iff in H as [H _].
  destruct (Z.eqb_spec (fst a) (-1)); [lia|done].
Qed.

(** ** More fuel does not change a result *)

Lemma bind_agree {St A B} (m1 m2 : M St A) (f1 f2 : A -> M St B) s :
  fst (bind m1 f1 s) <> OutOfFuel ->
  (fst (m1 s) <> OutOfFuel -> m2 s = m1 s) ->
  (forall a s1, fst (f1 a s1) <> OutOfFuel -> f2 a s1 = f1 a s1) ->
  bind m2 f2 s = bind m1 f1 s.
Proof.
  unfold bind. intros H Hm Hf.
  destruct (m1 s) as [[a|e|] s1] eqn:Hm1; simpl in *.
  - rewrite Hm by done. by apply Hf.
  - by rewrite Hm.
  - done.
Qed.

Lemma try_move_agree rec1 rec2 row col wi go next p w :
  (forall n q s, fst (rec1 n q s) <> OutOfFuel -> rec2 n q s = rec1 n q s) ->
  fst (try_move rec1 row col wi go next p w) <> OutOfFuel ->
  try_move rec2 row col wi go next p w = try_move rec1 row col wi go next p w.
Proof.
  intros Hrec H. unfold try_move in *.
  apply bind_agree; [done|done|]. intros c w1 H1.
  destruct (truthy _); [done|].
  apply bind_agree; [done|done|]. intros h w2 H2.
  destruct (coord_eqb h flag); [done|].
  apply bind_agree; [done|done|]. intros _ w3 H3. by apply Hrec.
Qed.

Lemma navigate_maze_fuel_mono fuel :
  forall k from_cell to_cell p w,
    fst (navigate_maze fuel from_cell to_cell p w) <> OutOfFuel ->
    navigate_maze (fuel + k) from_cell to_cell p w
    = navigate_maze fuel from_cell to_cell p w.
Proof.
  induction fuel as [|fuel IH]; intros k from_cell to_cell p w H; [done|].
  simpl in *.
  assert (forall n q s,
            fst (navigate_maze fuel n to_cell q s) <> OutOfFuel ->
            navigate_maze (fuel + k) n to_cell q s
            = navigate_maze fuel n to_cell q s) as Hrec by (intros; by apply IH).
  apply bind_agree; [done|done|]. intros _ w1 H1.
  destruct (coord_eqb from_cell to_cell); [done|].
  apply bind_agree; [done|done|]. intros c w2 H2.
  destruct (visited c); [done|].
  apply bind_agree; [done|done|]. intros h w3 H3.
  destruct (coord_eqb h flag); [done|].
  apply bind_agree; [done|done|]. intros _ w4 H4.
  apply bind_agree; [done|done|]. intros _ w5 H5.
  apply bind_agree; [done|intros; by apply try_move_agree|]. intros p1 w6 H6.
  apply bind_agree; [done|intros; by apply try_move_agree|]. intros p2 w7 H7.
  apply bind_agree; [done|intros; by apply try_move_agree|]. intros p3 w8 H8.
  apply bind_agree; [done|intros; by apply try_move_agree|]. intros p4 w9 H9.
  done.
Qed.

(** Any fuel above the number of unvisited cells gives the result that
    [run_navigate] computes. *)
Lemma navigate_maze_fuel_irrelevant fuel m from_cell to_cell p paths :
  (unvisited m < fuel)%nat ->
  let w0 := {| maze := m; all_paths := paths; entered := 0; calls := 0 |} in
  navigate_maze fuel from_cell to_cell p w0
  = navigate_maze (S (unvisited m)) from_cell to_cell p w0.
Proof.
  intros Hfuel w0.
  replace fuel with (S (unvisited m) + (fuel - S (unvisited m)))%nat by lia.
  apply navigate_maze_fuel_mono. apply navigate_maze_total. simpl. lia.
Qed.

(** ** The origin of a failed search stays visited *)

Lemma maze_get_alter_same f m row col c m' :
  maze_get m row col = Some c -> maze_alter f m row col = Some m' ->
  maze_get m' row col = Some (f c).
Proof.
  unfold maze_get, maze_alter, py_get, py_alter.
  destruct (py_index (length m) row) as [i|] eqn:Hi; [|discriminate].
  destruct (m !! i) as [r|] eqn:Hr; [|discriminate].
  destruct (py_index (length r) col) as [k|] eqn:Hk; [|discriminate].
  intros Hc [= <-]. rewrite length_insert, Hi.
  rewrite list_lookup_insert_eq by (by apply py_index_lt in Hi).
  rewrite length_alter, Hk, list_lookup_alter_eq, Hc. done.
Qed.

Lemma navigate_maze_marks_origin fuel from_cell to_cell p w c :
  coord_eqb from_cell to_cell = false ->
  maze_get (maze w) (fst from_cell) (snd from_cell) = Some c ->
  visited c = false ->
  unflagged p ->
  exists c',
    maze_get (maze (snd (navigate_maze (S fuel) from_cell to_cell p w)))
             (fst from_cell) (snd from_cell) = Some c' /\
    visited c' = true.
Proof.
  intros Hne Hc Hv (h & t & -> & Hh). simpl.
  unfold bind at 1. cbn [tick_call]. rewrite Hne.
  unfold bind at 1, cell_ref at 1. cbn [maze]. rewrite Hc, Hv.
  unfold bind at 1. cbn [path_first ret]. rewrite Hh.
  unfold bind at 1, cell_update at 1. cbn [maze].
  destruct (maze_alter_defined mark_visited _ _ _ _ Hc) as (m1 & Hm1).
  rewrite Hm1. unfold bind at 1. cbn [tick_entered].
  pose proof (maze_get_alter_same _ _ _ _ _ _ Hc Hm1) as Hc1.
  match goal with
  | |- context [snd (?K ?w3)] =>
      assert (frame 4 w3 (snd (K w3))) as (Hle & _)
  end.
  { assert (forall n q, sat 1 (navigate_maze fuel n to_cell q)) as Hrec
      by (intros; apply sat_navigate_maze).
    apply (sat_bind 1 3); [lia|by apply sat_try_move|]. intros p1.
    apply (sat_bind 1 2); [lia|by apply sat_try_move|]. intros p2.
    apply (sat_bind 1 1); [lia|by apply sat_try_move|]. intros p3.
    apply (sat_bind 1 0); [lia|by apply sat_try_move|]. intros p4.
    apply (sat_bind 0 0); [lia|apply sat_path_first|]. intros h'.
    destruct (coord_eqb h' flag); [apply sat_ret|].
    apply (sat_bind 0 0); [lia|apply sat_append_all_paths|]. intros _.
    apply sat_path_pop. }
  cbn [maze] in Hle.
  destruct (maze_le_get_l _ _ _ _ _ Hle Hc1) as (c' & Hc' & (_ & _ & Hvis)).
  exists c'. split; [exact Hc'|]. by apply Hvis.
Qed.

Lemma forward_search_marks_start s f m c :
  coord_eqb s f = false -> coord_eqb s flag = false ->
  maze_get m (fst s) (snd s) = Some c -> visited c = false ->
  exists c',
    maze_get (snd (forward_search s f m)) (fst s) (snd s) = Some c' /\
    visited c' = true.
Proof.
  intros Hne Hs Hc Hv. unfold forward_search, bind.
  rewrite clear_loop_id. unfold run_navigate.
  destruct (navigate_maze_marks_origin (cell_count m) s f [s]
              {| maze := m; all_paths := []; entered := 0; calls := 0 |} c
              Hne Hc Hv) as (c' & Hc' & Hvis); [by exists s, []|].
  exists c'. split; [|exact Hvis].
  by destruct (navigate_maze _ _ _ _ _) as [[?|?|] w'].
Qed.

(** ** Main statements about the search *)

(** C1 (evaluation of the code at the failing input).  On the
    two-cell maze with a wall between the cells, the forward search from
    (0,0) toward (0,1) fails; the maze that [find_paths] then hands to
    the reverse search still has the visited flag of (0,0) set, because
    the loop written to reset the cells never calls
    [clear_navigation].  In general the reverse search starts on the
    very maze the forward search left, in which the start cell (when it
    was unvisited and is not the finish cell) is marked visited. *)
Theorem reverse_search_inherits_visited_flags :
  maze_before_reverse_search walled_pair (0, 0) (0, 1) =
    Some [[ {| wall_index := 15; display_index := 5;
               visited := true; direction := 0 |};
            {| wall_index := 15; display_index := 4;
               visited := false; direction := 0 |} ]]
  /\ (forall m s f m',
        maze_before_reverse_search m s f = Some m' ->
        m' = snd (forward_search s f m))
  /\ (forall m s f m' c,
        maze_before_reverse_search m s f = Some m' ->
        coord_eqb s f = false -> coord_eqb s flag = false ->
        maze_get m (fst s) (snd s) = Some c -> visited c = false ->
        exists c', maze_get m' (fst s) (snd s) = Some c' /\ visited c' = true).
Proof.
  assert (forall m s f m',
            maze_before_reverse_search m s f = Some m' ->
            m' = snd (forward_search s f m)) as Hsame.
  { intros m s f m'. unfold maze_before_reverse_search.
    destruct (forward_search s f m) as [[[p paths]|e|] m1]; [|done|done].
    destruct (1 <? _); [done|]. rewrite clear_loop_id. by intros [= <-]. }
  split; [reflexivity|]. split; [exact Hsame|].
  intros m s f m' c Hm' Hne Hs Hc Hv. rewrite (Hsame _ _ _ _ Hm').
  by eapply forward_search_marks_start.
Qed.

(** C2 (the property as stated fails).  On the open two-cell maze the
    solved path is [(-1,-1), (0,0), (0,0), (0,1)]: with the flag removed
    its first two entries are both the start cell, which are not one
    step apart. *)
Lemma solved_route_repeats_start :
  ~ claimed_solved_route open_pair (0, 0) (0, 1).
Proof.
  intros H.
  destruct (H [flag; (0, 0); (0, 0); (0, 1)]
              (snd (find_paths (0, 0) (0, 1) open_pair)))
    as (_ & _ & Hl); [reflexivity|reflexivity|].
  vm_compute in Hl. discriminate.
Qed.

(** C2 (amended).  When [find_paths] returns a solved path for an
    in-bounds start and finish, the path is the flag, then the start
    cell twice (the seed entry [[start_cell]] and the entry appended on
    entering the start cell), then the rest of the route; from the
    second occurrence of the start cell on, the route ends at the finish
    cell and every two consecutive entries are one unit step apart and
    the first of the two has no wall bit on the side of the second. *)
Theorem solved_route_shape m start finish p m' :
  in_bounds m start = true ->
  in_bounds m finish = true ->
  find_paths start finish m = (Ret (FoundPath p), m') ->
  exists q, p = flag :: start :: start :: q /\
            last (start :: q) = Some finish /\
            linked m (start :: q) = true.
Proof.
  intros Hs _ H.
  destruct (find_paths_found _ _ _ _ _ H (in_bounds_not_flag _ _ Hs))
    as (q & -> & Hq & Hlast).
  by exists q.
Qed.

Lemma solved_route_shape_witness :
  exists q, [flag; (0, 0); (0, 0); (0, 1)] = flag :: (0, 0) :: (0, 0) :: q /\
            last ((0, 0) :: q) = Some (0, 1) /\
            linked open_pair ((0, 0) :: q) = true.
Proof.
  apply (solved_route_shape open_pair (0, 0) (0, 1) _
           (snd (find_paths (0, 0) (0, 1) open_pair)));
    reflexivity.
Defined.

(** C9.  [navigate_maze] terminates on every maze, origin, destination
    and path: with more fuel than the maze has unvisited cells the
    recursion never starves.  A run only sets visited flags
    ([maze_le]), the number of activations that pass the unvisited
    guard is the number of cells that became visited, hence at most the
    cell count, and there are at most four activations per entered cell
    besides the first one. *)
Theorem navigate_maze_terminates (m : Maze) from_cell to_cell maze_path paths extra :
  let w0 := {| maze := m; all_paths := paths; entered := 0; calls := 0 |} in
  let r := navigate_maze (S (unvisited m + extra)) from_cell to_cell maze_path w0 in
  fst r <> OutOfFuel /\
  maze_le m (maze (snd r)) /\
  (entered (snd r) + unvisited (maze (snd r)) = unvisited m)%nat /\
  (entered (snd r) <= cell_count m)%nat /\
  (calls (snd r) <= 1 + 4 * entered (snd r))%nat.
Proof.
  intros w0 r.
  pose proof (navigate_maze_total (S (unvisited m + extra))
                from_cell to_cell maze_path w0) as Ht.
  pose proof (sat_navigate_maze (S (unvisited m + extra))
                from_cell to_cell maze_path w0) as (Hle & Hu & Hc).
  fold r in Ht, Hle, Hu, Hc. simpl in Hu, Hc.
  pose proof (unvisited_le_cell_count m).
  split; [apply Ht; simpl; lia|].
  repeat split; [exact Hle|lia|lia|lia].
Qed.

(** C10.  The search never changes a wall mask: after [navigate_maze]
    (whatever the fuel, the cells and the path) and after [find_paths]
    the matrix of [wall_index] values is the one before the call. *)
Theorem search_keeps_wall_index :
  (forall fuel from_cell to_cell maze_path w,
     map (map wall_index)
         (maze (snd (navigate_maze fuel from_cell to_cell maze_path w)))
     = map (map wall_index) (maze w)) /\
  (forall start_cell finish_cell (m : Maze),
     map (map wall_index) (snd (find_paths start_cell finish_cell m))
     = map (map wall_index) m).
Proof.
  split.
  - intros fuel from_cell to_cell maze_path w.
    apply maze_le_walls.
    by destruct (sat_navigate_maze fuel from_cell to_cell maze_path w).
  - intros s f m. apply maze_le_walls, find_paths_le.
Qed.

(** * Properties of the grid assembler *)

(** ** Arrays given by their entries *)

Lemma tab_length {A} h w (F : nat -> nat -> A) : length (tab h w F) = h.
Proof. unfold tab. by rewrite length_fmap, length_seq. Qed.

Lemma tab_lookup {A} h w (F : nat -> nat -> A) r :
  (r < h)%nat -> tab h w F !! r = Some (F r <$> seq 0 w).
Proof.
  intros H. unfold tab. rewrite list_lookup_fmap.
  by rewrite (lookup_seq_lt 0 h r H).
Qed.

Lemma tab_row_lookup {A} w (f : nat -> A) c :
  (c < w)%nat -> (f <$> seq 0 w) !! c = Some (f c).
Proof.
  intros H. rewrite list_lookup_fmap. by rewrite (lookup_seq_lt 0 w c H).
Qed.

Lemma tab_ext {A} h w (F F' : nat -> nat -> A) :
  (forall r c, (r < h)%nat -> (c < w)%nat -> F r c = F' r c) ->
  tab h w F = tab h w F'.
Proof.
  intros H. unfold tab. apply list_eq. intros r.
  rewrite !list_lookup_fmap.
  destruct (seq 0 h !! r) as [r'|] eqn:Hr; [|done]. simpl. f_equal.
  apply lookup_seq in Hr as [-> Hr]. simpl.
  apply list_eq. intros c. rewrite !list_lookup_fmap.
  destruct (seq 0 w !! c) as [c'|] eqn:Hc; [|done]. simpl. f_equal.
  apply lookup_seq in Hc as [-> Hc]. simpl. by apply H.
Qed.

Lemma maze_get_tab h w (F : nat -> nat -> Cell) r c :
  (r < h)%nat -> (c < w)%nat ->
  maze_get (tab h w F) (Z.of_nat r) (Z.of_nat c) = Some (F r c).
Proof.
  intros Hr Hc. unfold maze_get.
  rewrite py_get_of_nat, (tab_lookup h w F r Hr), py_get_of_nat.
  by apply tab_row_lookup.
Qed.

Lemma maze_alter_tab f h w (F : nat -> nat -> Cell) r c :
  (r < h)%nat -> (c < w)%nat ->
  maze_alter f (tab h w F) (Z.of_nat r) (Z.of_nat c)
  = Some (tab h w (upd F r c (f (F r c)))).
Proof.
  intros Hr Hc. unfold maze_alter, py_alter.
  rewrite tab_length, (py_index_of_nat h r Hr), (tab_lookup h w F r Hr).
  rewrite length_fmap, length_seq, (py_index_of_nat w c Hc). f_equal.
  apply list_eq. intros i.
  destruct (decide (i = r)) as [->|Hne].
  - rewrite list_lookup_insert_eq by (by rewrite tab_length).
    rewrite (tab_lookup h w _ r Hr). f_equal.
    apply list_eq. intros j.
    destruct (decide (j = c)) as [->|Hnc].
    + rewrite list_lookup_alter_eq, !(tab_row_lookup w _ c Hc). simpl.
      unfold upd. by rewrite !Nat.eqb_refl.
    + rewrite list_lookup_alter_ne by done. rewrite !list_lookup_fmap.
      destruct (seq 0 w !! j) as [j'|] eqn:Hj; [|done]. simpl. f_equal.
      apply lookup_seq in Hj as [-> Hj]. simpl. unfold upd.
      rewrite Nat.eqb_refl. simpl.
      by destruct (Nat.eqb_spec j c).
  - rewrite list_lookup_insert_ne by done.
    unfold tab. rewrite !list_lookup_fmap.
    destruct (seq 0 h !! i) as [i'|] eqn:Hi; [|done]. simpl. f_equal.
    apply lookup_seq in Hi as [-> Hi]. simpl.
    apply list_eq. intros j. rewrite !list_lookup_fmap.
    destruct (seq 0 w !! j) as [j'|]; [|done]. simpl. f_equal. unfold upd.
    by destruct (Nat.eqb_spec i r).
Qed.

Lemma rectangular_tab h w (grid : list (list Z)) :
  rectangular h w grid -> grid = tab h w (entry grid).
Proof.
  intros [Hh Hw]. apply list_eq. intros r.
  destruct (decide (r < h)%nat) as [Hr|Hr].
  - rewrite (tab_lookup h w _ r Hr).
    destruct (grid !! r) as [row|] eqn:Hrow.
    2:{ apply lookup_ge_None in Hrow. lia. }
    f_equal.
    assert (length row = w) as Hlen.
    { rewrite Forall_forall in Hw. apply Hw.
      by eapply list_elem_of_lookup_2. }
    assert (nth r grid [] = row) as Hnth by (by apply nth_lookup_Some).
    apply list_eq. intros c.
    destruct (decide (c < w)%nat) as [Hc|Hc].
    + rewrite (tab_row_lookup w _ c Hc). unfold entry. rewrite Hnth.
      destruct (row !! c) as [v|] eqn:Hv.
      * f_equal. symmetry. by apply nth_lookup_Some.
      * apply lookup_ge_None in Hv. lia.
    + rewrite !(proj2 (lookup_ge_None _ _)); [done| |lia].
      rewrite length_fmap, length_seq. lia.
  - rewrite !(proj2 (lookup_ge_None _ _)); [done| |lia].
    rewrite tab_length. lia.
Qed.

(** ** The loop rule *)

Lemma for_each_seq_inv {St} (body : Z -> M St unit) (Inv : nat -> St -> Prop) n :
  forall k s,
    Inv k s ->
    (forall i s, (k <= i < k + n)%nat -> Inv i s ->
       exists s', body (Z.of_nat i) s = (Ret tt, s') /\ Inv (S i) s') ->
    exists s', for_each (map Z.of_nat (seq k n)) body s = (Ret tt, s') /\
               Inv (k + n)%nat s'.
Proof.
  induction n as [|n IH]; intros k s Hk Hstep.
  - exists s. rewrite Nat.add_0_r. by split.
  - simpl. destruct (Hstep k s) as (s1 & Hb & H1); [lia|done|].
    unfold bind. rewrite Hb.
    destruct (IH (S k) s1 H1) as (s2 & Hrun & H2).
    { intros i s' Hi. apply Hstep. lia. }
    exists s2. split; [exact Hrun|].
    by replace (k + S n)%nat with (S k + n)%nat by lia.
Qed.

Lemma for_each_range_inv {St} (body : Z -> M St unit) (Inv : nat -> St -> Prop) n s :
  Inv 0%nat s ->
  (forall i s, (i < n)%nat -> Inv i s ->
     exists s', body (Z.of_nat i) s = (Ret tt, s') /\ Inv (S i) s') ->
  exists s', for_each (py_range (Z.of_nat n)) body s = (Ret tt, s') /\ Inv n s'.
Proof.
  intros H0 Hstep. unfold py_range. rewrite Nat2Z.id.
  apply (for_each_seq_inv body Inv n 0 s H0).
  intros i s' Hi. apply Hstep. lia.
Qed.

(** ** Statements of [create_maze] on an array given by its entries *)

Section AssemblerSteps.
Variables (h w : nat).

Lemma upd_same (F : nat -> nat -> Cell) r c :
  tab h w (upd F r c (F r c)) = tab h w F.
Proof.
  apply tab_ext. intros r' c' _ _. unfold upd.
  destruct (Nat.eqb_spec r' r) as [->|]; [|done].
  by destruct (Nat.eqb_spec c' c) as [->|].
Qed.

Lemma maze_ref_tab (F : nat -> nat -> Cell) r c :
  (r < h)%nat -> (c < w)%nat ->
  maze_ref (Z.of_nat r) (Z.of_nat c) (tab h w F) = (Ret (F r c), tab h w F).
Proof. intros Hr Hc. unfold maze_ref. by rewrite maze_get_tab. Qed.

Lemma call_add_wall_tab (F : nat -> nat -> Cell) r c b :
  (r < h)%nat -> (c < w)%nat -> b <= 16 ->
  call_add_wall (Z.of_nat r) (Z.of_nat c) b (tab h w F)
  = (Ret tt, tab h w (upd F r c (or_wall b (F r c)))).
Proof.
  intros Hr Hc Hb. unfold call_add_wall, add_wall.
  rewrite maze_get_tab by done.
  destruct (Z.ltb_spec 16 b); [lia|].
  by rewrite maze_alter_tab.
Qed.

Lemma seal_stmt_tab (F : nat -> nat -> Cell) r c b :
  (r < h)%nat -> (c < w)%nat -> b <= 16 ->
  seal_stmt (Z.of_nat r) (Z.of_nat c) b (tab h w F)
  = (Ret tt, tab h w (upd F r c (seal b (F r c)))).
Proof.
  intros Hr Hc Hb. unfold seal_stmt, bind, seal.
  rewrite maze_ref_tab by done.
  destruct (negb _); [by apply call_add_wall_tab|].
  unfold ret. by rewrite upd_same.
Qed.

Lemma infer_stmt_tab (F : nat -> nat -> Cell) r0 c0 b0 r c b :
  (r0 < h)%nat -> (c0 < w)%nat -> (r < h)%nat -> (c < w)%nat -> b <= 16 ->
  infer_stmt (Z.of_nat r0) (Z.of_nat c0) b0 (Z.of_nat r) (Z.of_nat c) b (tab h w F)
  = (Ret tt,
     tab h w (upd F r c
                (if truthy (Z.land (wall_index (F r0 c0)) b0)
                 then or_wall b (F r c) else F r c))).
Proof.
  intros Hr0 Hc0 Hr Hc Hb. unfold infer_stmt, bind.
  rewrite maze_ref_tab by done.
  destruct (truthy _); [by apply call_add_wall_tab|].
  unfold ret. by rewrite upd_same.
Qed.

Lemma propagate_body_tab (F : nat -> nat -> Cell) r c :
  (r < h)%nat -> (c < w)%nat ->
  propagate_body (Z.of_nat r) (Z.of_nat c) (tab h w F)
  = (Ret tt, tab h w (upd F r c (prop_cell F r c))).
Proof.
  intros Hr Hc. unfold propagate_body. unfold bind at 1.
  set (x1 := if (0 <? r)%nat
                && truthy (Z.land (wall_index (F (r - 1)%nat c)) wi_bottom)
             then or_wall wi_top (F r c) else F r c).
  assert ((if 0 <? Z.of_nat r
           then infer_stmt (Z.of_nat r - 1) (Z.of_nat c) wi_bottom
                  (Z.of_nat r) (Z.of_nat c) wi_top
           else ret tt) (tab h w F)
          = (Ret tt, tab h w (upd F r c x1))) as ->.
  { subst x1. destruct r as [|r'].
    - simpl. unfold ret. by rewrite upd_same.
    - replace (0 <? Z.of_nat (S r')) with true by (symmetry; apply Z.ltb_lt; lia).
      replace (Z.of_nat (S r') - 1) with (Z.of_nat r') by lia.
      rewrite infer_stmt_tab by (done || lia).
      by replace (S r' - 1)%nat with r' by lia. }
  assert (tab h w (upd (upd F r c x1) r c (prop_cell F r c))
          = tab h w (upd F r c (prop_cell F r c))) as Hupd.
  { apply tab_ext. intros r' c' _ _. unfold upd.
    by destruct ((r' =? r)%nat && (c' =? c)%nat). }
  destruct c as [|c'].
  - reflexivity.
  - replace (0 <? Z.of_nat (S c')) with true by (symmetry; apply Z.ltb_lt; lia).
    replace (Z.of_nat (S c') - 1) with (Z.of_nat c') by lia.
    rewrite infer_stmt_tab by (done || lia).
    f_equal. rewrite <- Hupd. f_equal. f_equal.
    assert (upd F r (S c') x1 r c' = F r c') as ->.
    { unfold upd. replace (c' =? S c')%nat with false
        by (symmetry; apply Nat.eqb_neq; lia).
      by rewrite andb_false_r. }
    assert (upd F r (S c') x1 r (S c') = x1) as ->.
    { unfold upd. by rewrite !Nat.eqb_refl. }
    unfold prop_cell. replace (S c' - 1)%nat with c' by lia.
    reflexivity.
Qed.
End AssemblerSteps.

(** ** The three passes on an array given by its entries *)

Ltac nat_cases :=
  repeat match goal with
  | |- context [(?a <? ?b)%nat] => destruct (Nat.ltb_spec a b)
  | |- context [(?a =? ?b)%nat] => destruct (Nat.eqb_spec a b)
  end; simpl; subst; try lia; try done; try congruence.

Lemma land_lor_bit x b k : Z.land b k = 0 -> Z.land (Z.lor x b) k = Z.land x k.
Proof. intros H. by rewrite Z.land_lor_distr_l, H, Z.lor_0_r. Qed.

Lemma propagated_bottom G r c :
  Z.land (wall_index (propagated G r c)) wi_bottom = Z.land (G r c) wi_bottom.
Proof.
  unfold propagated.
  destruct (_ && _); destruct (_ && _); simpl;
    rewrite ?land_lor_bit by done; done.
Qed.

Lemma propagated_right G r c :
  Z.land (wall_index (propagated G r c)) wi_right = Z.land (G r c) wi_right.
Proof.
  unfold propagated.
  destruct (_ && _); destruct (_ && _); simpl;
    rewrite ?land_lor_bit by done; done.
Qed.

Section AssemblerPasses.
Variables (h w : nat) (G : nat -> nat -> Z).

Lemma prop_cols_step r c :
  tab h w (upd (prop_cols G r c) r c (prop_cell (prop_cols G r c) r c))
  = tab h w (prop_cols G r (S c)).
Proof.
  apply tab_ext. intros r' c' _ _. unfold upd.
  destruct (Nat.eqb_spec r' r) as [->|Hr]; simpl.
  - destruct (Nat.eqb_spec c' c) as [->|Hc]; simpl.
    + unfold prop_cell.
      assert (prop_cols G r c r c = initial_cell (G r c)) as ->
        by (unfold prop_cols; nat_cases).
      assert (prop_cols G r (S c) r c = propagated G r c) as ->
        by (unfold prop_cols; nat_cases).
      unfold propagated.
      assert ((0 <? r)%nat
              && truthy (Z.land (wall_index (prop_cols G r c (r - 1)%nat c)) wi_bottom)
              = (0 <? r)%nat && truthy (Z.land (G (r - 1)%nat c) wi_bottom)) as ->.
      { destruct (Nat.ltb_spec 0 r); [simpl|done].
        assert (prop_cols G r c (r - 1)%nat c = propagated G (r - 1)%nat c) as ->
          by (unfold prop_cols; nat_cases).
        by rewrite propagated_bottom. }
      assert ((0 <? c)%nat
              && truthy (Z.land (wall_index (prop_cols G r c r (c - 1)%nat)) wi_right)
              = (0 <? c)%nat && truthy (Z.land (G r (c - 1)%nat) wi_right)) as ->.
      { destruct (Nat.ltb_spec 0 c); [simpl|done].
        assert (prop_cols G r c r (c - 1)%nat = propagated G r (c - 1)%nat) as ->
          by (unfold prop_cols; nat_cases).
        by rewrite propagated_right. }
      done.
    + unfold prop_cols. nat_cases.
  - unfold prop_cols. nat_cases.
Qed.

Lemma propagate_row r :
  (r < h)%nat ->
  for_each (py_range (Z.of_nat w))
    (fun col => propagate_body (Z.of_nat r) col) (tab h w (prop_rows G r))
  = (Ret tt, tab h w (prop_rows G (S r))).
Proof.
  intros Hr.
  destruct (for_each_range_inv
    (fun col => propagate_body (Z.of_nat r) col)
    (fun c s => s = tab h w (prop_cols G r c)) w (tab h w (prop_rows G r)))
    as (s' & Hrun & ->).
  - apply tab_ext. intros r' c' _ _. unfold prop_rows, prop_cols. nat_cases.
  - intros c s Hc ->. eexists. split; [by apply propagate_body_tab|].
    apply prop_cols_step.
  - rewrite Hrun. f_equal.
    apply tab_ext. intros r' c' _ Hc'. unfold prop_rows, prop_cols. nat_cases.
Qed.

Lemma propagate_all :
  for_each (py_range (Z.of_nat h))
    (fun row => for_each (py_range (Z.of_nat w))
                  (fun col => propagate_body row col))
    (tab h w (fun r c => initial_cell (G r c)))
  = (Ret tt, tab h w (propagated G)).
Proof.
  destruct (for_each_range_inv
    (fun row => for_each (py_range (Z.of_nat w))
                  (fun col => propagate_body row col))
    (fun r s => s = tab h w (prop_rows G r)) h
    (tab h w (fun r c => initial_cell (G r c))))
    as (s' & Hrun & ->).
  - by apply tab_ext.
  - intros r s Hr ->. eexists. split; [by apply propagate_row|done].
  - rewrite Hrun. f_equal.
    apply tab_ext. intros r' c' Hr' _. unfold prop_rows. nat_cases.
Qed.

Lemma seal_cols_all (F : nat -> nat -> Cell) :
  (1 <= h)%nat ->
  for_each (py_range (Z.of_nat w)) (seal_cols_body (Z.of_nat h)) (tab h w F)
  = (Ret tt, tab h w (sealed_cols h F)).
Proof.
  intros Hh.
  destruct (for_each_range_inv (seal_cols_body (Z.of_nat h))
    (fun c s => s = tab h w (seal_cols_upto h F c)) w (tab h w F))
    as (s' & Hrun & ->).
  - by apply tab_ext.
  - intros c s Hc ->. eexists. split.
    + unfold seal_cols_body, bind.
      rewrite (seal_stmt_tab h w _ 0%nat c) by (done || lia).
      replace (Z.of_nat h - 1) with (Z.of_nat (h - 1)) by lia.
      by rewrite (seal_stmt_tab h w _ (h - 1)%nat c) by (done || lia).
    + apply tab_ext. intros r' c' _ _.
      unfold upd, seal_cols_upto, sealed_cols. nat_cases.
  - rewrite Hrun. f_equal.
    apply tab_ext. intros r' c' _ Hc'. unfold seal_cols_upto. nat_cases.
Qed.

Lemma seal_rows_all (F : nat -> nat -> Cell) :
  (1 <= w)%nat ->
  for_each (py_range (Z.of_nat h)) (seal_rows_body (Z.of_nat w)) (tab h w F)
  = (Ret tt, tab h w (sealed_rows w F)).
Proof.
  intros Hw.
  destruct (for_each_range_inv (seal_rows_body (Z.of_nat w))
    (fun r s => s = tab h w (seal_rows_upto w F r)) h (tab h w F))
    as (s' & Hrun & ->).
  - by apply tab_ext.
  - intros r s Hr ->. eexists. split.
    + unfold seal_rows_body, bind.
      rewrite (seal_stmt_tab h w _ r 0%nat) by (done || lia).
      replace (Z.of_nat w - 1) with (Z.of_nat (w - 1)) by lia.
      by rewrite (seal_stmt_tab h w _ r (w - 1)%nat) by (done || lia).
    + apply tab_ext. intros r' c' _ _.
      unfold upd, seal_rows_upto, sealed_rows. nat_cases.
  - rewrite Hrun. f_equal.
    apply tab_ext. intros r' c' Hr' _. unfold seal_rows_upto. nat_cases.
Qed.

Lemma assemble_tab :
  (1 <= h)%nat -> (1 <= w)%nat ->
  assemble (Z.of_nat h) (Z.of_nat w) (tab h w (fun r c => initial_cell (G r c)))
  = (Ret tt, tab h w (assembled h w G)).
Proof.
  intros Hh Hw. unfold assemble, bind.
  rewrite propagate_all, seal_cols_all, seal_rows_all by done.
  done.
Qed.
End AssemblerPasses.

(** ** [create_maze] in closed form *)

Lemma load_row_ok row :
  Forall (fun v => v <= 4095) row -> load_row row = inr (initial_cell <$> row).
Proof.
  induction 1 as [|v row Hv _ IH]; [done|].
  simpl. unfold Cell_init. destruct (Z.ltb_spec 4095 v); [lia|].
  by rewrite IH.
Qed.

Lemma load_cells_ok grid :
  Forall (Forall (fun v => v <= 4095)) grid ->
  load_cells grid = inr (fmap (M:=list) initial_cell <$> grid).
Proof.
  induction 1 as [|row grid Hrow _ IH]; [done|].
  simpl. by rewrite (load_row_ok row Hrow), IH.
Qed.

Lemma fmap_tab {A B} (f : A -> B) h w (F : nat -> nat -> A) :
  fmap (M:=list) f <$> tab h w F = tab h w (fun r c => f (F r c)).
Proof.
  unfold tab. rewrite <- list_fmap_compose. apply list_fmap_ext.
  intros _ r _. simpl. by rewrite <- list_fmap_compose.
Qed.

Lemma create_maze_tab h w (G : nat -> nat -> Z) :
  (1 <= h)%nat -> (1 <= w)%nat ->
  (forall r c, (r < h)%nat -> (c < w)%nat -> G r c <= 4095) ->
  create_maze (tab h w G) = Ret (tab h w (assembled h w G)).
Proof.
  intros Hh Hw HG. unfold create_maze.
  rewrite load_cells_ok.
  2:{ apply Forall_lookup. intros r row Hrow.
      assert (r < h)%nat as Hr.
      { apply lookup_lt_Some in Hrow. by rewrite tab_length in Hrow. }
      rewrite (tab_lookup h w G r Hr) in Hrow. injection Hrow as <-.
      apply Forall_lookup. intros c v Hv.
      assert (c < w)%nat as Hc.
      { apply lookup_lt_Some in Hv. by rewrite length_fmap, length_seq in Hv. }
      rewrite (tab_row_lookup w _ c Hc) in Hv. injection Hv as <-. by apply HG. }
  rewrite fmap_tab.
  assert (shape0 (tab h w G) = Z.of_nat h) as ->
    by (unfold shape0; by rewrite tab_length).
  assert (shape1 (tab h w G) = Z.of_nat w) as ->.
  { unfold shape1. f_equal. destruct h as [|h']; [lia|].
    unfold tab. simpl. by rewrite length_fmap, length_seq. }
  by rewrite assemble_tab.
Qed.

Lemma cell_at_tab h w (F : nat -> nat -> Cell) r c x :
  cell_at (tab h w F) r c = Some x -> (r < h)%nat /\ (c < w)%nat /\ x = F r c.
Proof.
  unfold cell_at. destruct (tab h w F !! r) as [row|] eqn:Hrow; [|done].
  assert (r < h)%nat as Hr.
  { apply lookup_lt_Some in Hrow. by rewrite tab_length in Hrow. }
  rewrite (tab_lookup h w F r Hr) in Hrow. injection Hrow as <-.
  intros Hx.
  assert (c < w)%nat as Hc.
  { apply lookup_lt_Some in Hx. by rewrite length_fmap, length_seq in Hx. }
  rewrite (tab_row_lookup w _ c Hc) in Hx. by injection Hx as <-.
Qed.

Lemma scanner_shaped_spec grid :
  scanner_shaped grid = true ->
  let h := length grid in
  let w := length (hd [] grid) in
  (1 <= h)%nat /\ (1 <= w)%nat /\ rectangular h w grid /\
  forall r c, (r < h)%nat -> (c < w)%nat ->
    scanner_entry_ok r c (entry grid r c) = true.
Proof.
  unfold scanner_shaped. intros H. cbv zeta in *.
  set (h := length grid) in *. set (w := length (hd [] grid)) in *.
  apply andb_true_iff in H as [H H4]. apply andb_true_iff in H as [H H3].
  apply andb_true_iff in H as [H1 H2].
  apply Nat.leb_le in H1, H2.
  split; [done|]. split; [done|]. split.
  - split; [done|]. apply Forall_forall. intros row Hrow.
    rewrite forallb_forall in H3. apply Nat.eqb_eq, H3.
    by apply list_elem_of_In.
  - intros r c Hr Hc. rewrite forallb_forall in H4.
    specialize (H4 r). rewrite in_seq in H4.
    specialize (H4 ltac:(lia)). rewrite forallb_forall in H4.
    apply H4. rewrite in_seq. lia.
Qed.

(** ** Wall bits of the assembled cells *)

Lemma truthy_lor a b : truthy (Z.lor a b) = truthy a || truthy b.
Proof.
  unfold truthy.
  destruct (Z.eqb_spec (Z.lor a b) 0) as [H|H].
  - apply Z.lor_eq_0_iff in H as [-> ->]. done.
  - destruct (Z.eqb_spec a 0) as [->|?]; [|done].
    destruct (Z.eqb_spec b 0) as [->|?]; [|done]. done.
Qed.

Lemma has_wall_or_wall b x k :
  has_wall (or_wall b x) k = has_wall x k || truthy (Z.land b k).
Proof.
  unfold has_wall, or_wall. simpl. by rewrite Z.land_lor_distr_l, truthy_lor.
Qed.

Lemma seal_same b x : truthy (Z.land b b) = true -> has_wall (seal b x) b = true.
Proof.
  intros Hb. unfold seal. fold (has_wall x b).
  destruct (has_wall x b) eqn:Hx; simpl; [done|].
  by rewrite has_wall_or_wall, Hb, orb_true_r.
Qed.

Lemma seal_other b x k : Z.land b k = 0 -> has_wall (seal b x) k = has_wall x k.
Proof.
  intros Hb. unfold seal. destruct (negb _); [|done].
  by rewrite has_wall_or_wall, Hb, orb_false_r.
Qed.

Lemma seal_display b x : display_index (seal b x) = display_index x.
Proof. unfold seal. by destruct (negb _). Qed.

Lemma propagated_display G r c : display_index (propagated G r c) = G r c.
Proof. unfold propagated. by destruct (_ && _); destruct (_ && _). Qed.

Lemma propagated_left G r c :
  has_wall (propagated G r c) wi_left
  = truthy (Z.land (G r c) wi_left)
    || ((0 <? c)%nat && truthy (Z.land (G r (c - 1)%nat) wi_right)).
Proof.
  unfold propagated.
  destruct ((0 <? r)%nat && _); destruct ((0 <? c)%nat && _);
    rewrite ?has_wall_or_wall; unfold has_wall; simpl;
    rewrite ?orb_false_r, ?orb_true_r; done.
Qed.

Lemma propagated_top G r c :
  has_wall (propagated G r c) wi_top
  = truthy (Z.land (G r c) wi_top)
    || ((0 <? r)%nat && truthy (Z.land (G (r - 1)%nat c) wi_bottom)).
Proof.
  unfold propagated.
  destruct ((0 <? r)%nat && _); destruct ((0 <? c)%nat && _);
    rewrite ?has_wall_or_wall; unfold has_wall; simpl;
    rewrite ?orb_false_r, ?orb_true_r; done.
Qed.

Ltac seal_bits :=
  unfold assembled, sealed_rows, sealed_cols; nat_cases;
  rewrite ?seal_other by done; rewrite ?seal_same by done; try done.

Lemma assembled_boundary h w G r c :
  (r = 0%nat -> has_wall (assembled h w G r c) wi_top = true) /\
  (r = (h - 1)%nat -> has_wall (assembled h w G r c) wi_bottom = true) /\
  (c = 0%nat -> has_wall (assembled h w G r c) wi_left = true) /\
  (c = (w - 1)%nat -> has_wall (assembled h w G r c) wi_right = true).
Proof.
  repeat split; intros ->; seal_bits.
Qed.

Lemma assembled_left h w G r c :
  (0 < c)%nat ->
  has_wall (assembled h w G r c) wi_left = has_wall (propagated G r c) wi_left.
Proof. intros Hc. seal_bits. Qed.

Lemma assembled_top h w G r c :
  (0 < r)%nat ->
  has_wall (assembled h w G r c) wi_top = has_wall (propagated G r c) wi_top.
Proof. intros Hr. seal_bits. Qed.

Lemma assembled_right h w G r c :
  (c < w - 1)%nat ->
  has_wall (assembled h w G r c) wi_right = truthy (Z.land (G r c) wi_right).
Proof.
  intros Hc. transitivity (has_wall (propagated G r c) wi_right);
    [seal_bits|unfold has_wall; by rewrite propagated_right].
Qed.

Lemma assembled_bottom h w G r c :
  (r < h - 1)%nat ->
  has_wall (assembled h w G r c) wi_bottom = truthy (Z.land (G r c) wi_bottom).
Proof.
  intros Hr. transitivity (has_wall (propagated G r c) wi_bottom);
    [seal_bits|unfold has_wall; by rewrite propagated_bottom].
Qed.

Lemma assembled_display h w G r c : display_index (assembled h w G r c) = G r c.
Proof.
  unfold assembled, sealed_rows, sealed_cols.
  repeat match goal with
  | |- context [if ?b then _ else _] => destruct b
  end; rewrite ?seal_display; apply propagated_display.
Qed.

(** ** Main statements about the grid assembler *)

Lemma tab_rectangular {A} h w (F : nat -> nat -> A) : rectangular h w (tab h w F).
Proof.
  split; [apply tab_length|].
  apply Forall_lookup. intros r row Hrow.
  assert (r < h)%nat as Hr.
  { apply lookup_lt_Some in Hrow. by rewrite tab_length in Hrow. }
  rewrite (tab_lookup h w F r Hr) in Hrow. injection Hrow as <-.
  by rewrite length_fmap, length_seq.
Qed.

Lemma create_maze_scanner_shaped grid :
  scanner_shaped grid = true ->
  let h := length grid in
  let w := length (hd [] grid) in
  create_maze grid = Ret (tab h w (assembled h w (entry grid))) /\
  (1 <= h)%nat /\ (1 <= w)%nat /\
  forall r c, (r < h)%nat -> (c < w)%nat ->
    scanner_entry_ok r c (entry grid r c) = true.
Proof.
  intros H. destruct (scanner_shaped_spec grid H) as (Hh & Hw & Hrect & Hok).
  cbv zeta. split; [|by repeat split].
  rewrite (rectangular_tab _ _ grid Hrect) at 1.
  apply create_maze_tab; [done|done|].
  intros r c Hr Hc. specialize (Hok r c Hr Hc). unfold scanner_entry_ok in Hok.
  apply andb_true_iff in Hok as [Hok _]. apply andb_true_iff in Hok as [Hok _].
  apply andb_true_iff in Hok as [_ Hok]. apply Z.leb_le in Hok. lia.
Qed.

Example create_maze_walled_pair : create_maze [[5; 4]] = Ret walled_pair.
Proof. reflexivity. Qed.

Example create_maze_open_pair : create_maze [[0; 0]] = Ret open_pair.
Proof. reflexivity. Qed.

(** C3.  For every wall grid of the scanner's shape, [create_maze]
    returns a maze of the same shape in which every cell of row 0 has
    TOP, every cell of the last row has BOTTOM, every cell of column 0
    has LEFT and every cell of the last column has RIGHT. *)
Theorem create_maze_seals_boundary grid :
  scanner_shaped grid = true ->
  exists m,
    create_maze grid = Ret m /\
    rectangular (length grid) (length (hd [] grid)) m /\
    forall r c cell, cell_at m r c = Some cell ->
      (r = 0%nat -> has_wall cell wi_top = true) /\
      (r = (length grid - 1)%nat -> has_wall cell wi_bottom = true) /\
      (c = 0%nat -> has_wall cell wi_left = true) /\
      (c = (length (hd [] grid) - 1)%nat -> has_wall cell wi_right = true).
Proof.
  intros H. destruct (create_maze_scanner_shaped grid H) as (Hm & _).
  eexists. split; [exact Hm|]. split; [apply tab_rectangular|].
  intros r c cell Hcell. apply cell_at_tab in Hcell as (_ & _ & ->).
  apply assembled_boundary.
Qed.

Lemma create_maze_seals_boundary_witness :
  exists m,
    create_maze [[0; 4]; [8; 0]] = Ret m /\
    rectangular 2 2 m /\
    forall r c cell, cell_at m r c = Some cell ->
      (r = 0%nat -> has_wall cell wi_top = true) /\
      (r = 1%nat -> has_wall cell wi_bottom = true) /\
      (c = 0%nat -> has_wall cell wi_left = true) /\
      (c = 1%nat -> has_wall cell wi_right = true).
Proof.
  apply (create_maze_seals_boundary [[0; 4]; [8; 0]]). reflexivity.
Defined.



(** * Properties of the diagnoser *)

Lemma adjacent_unit_shift t1 t2 :
  adjacent t1 t2 = true ->
  let row_shift := fst t1 - fst t2 in
  let col_shift := snd t1 - snd t2 in
  (row_shift = -1 /\ col_shift = 0) \/ (row_shift = 1 /\ col_shift = 0) \/
  (row_shift = 0 /\ col_shift = -1) \/ (row_shift = 0 /\ col_shift = 1).
Proof.
  unfold adjacent, calc_distance_sq. intros H. apply Z.eqb_eq in H.
  cbv zeta. set (dr := fst t1 - fst t2) in *. set (dc := snd t1 - snd t2) in *.
  clearbody dr dc. rewrite !Z.pow_2_r in H.
  assert (-1 <= dr <= 1) as Hr by nia.
  assert (-1 <= dc <= 1) as Hc by nia.
  assert (dr = -1 \/ dr = 0 \/ dr = 1) as [-> | [-> | ->]] by lia;
    assert (dc = -1 \/ dc = 0 \/ dc = 1) as [-> | [-> | ->]] by lia;
    simpl in H; try discriminate; auto.
Qed.

Lemma shift_wall_adjacent t1 t2 :
  adjacent t1 t2 = true ->
  exists wi, shift_wall (fst t1 - fst t2) (snd t1 - snd t2) = Some wi.
Proof.
  intros H.
  destruct (adjacent_unit_shift t1 t2 H) as [[-> ->] | [[-> ->] | [[-> ->] | [-> ->]]]];
    by eexists.
Qed.

Lemma for_each_total {St A} (l : list A) (body : A -> M St unit) :
  (forall x s, In x l -> exists s', body x s = (Ret tt, s')) ->
  forall s, exists s', for_each l body s = (Ret tt, s').
Proof.
  induction l as [|x l IH]; intros Hbody s; [by eexists|].
  simpl. unfold bind.
  destruct (Hbody x s) as (s1 & ->); [by left|].
  apply IH. intros y s' Hy. apply Hbody. by right.
Qed.

Lemma candidate_body_total fStart fFinish c coordinates :
  In c (candidates fStart fFinish) ->
  exists s', candidate_body c coordinates = (Ret tt, s').
Proof.
  unfold candidates. intros Hc. apply filter_In in Hc as [_ Hadj].
  unfold candidate_body.
  destruct (shift_wall_adjacent _ _ Hadj) as (wi & ->). by eexists.
Qed.

(** An outcome other than the ValueError of the fatal branch: a result,
    or the overflow of a distance. *)
Lemma for_each_benign {St A} (l : list A) (body : A -> M St unit) :
  (forall x s, In x l ->
     (exists s', body x s = (Ret tt, s')) \/ fst (body x s) = Raise OverflowError) ->
  forall s,
    (exists s', for_each l body s = (Ret tt, s')) \/
    fst (for_each l body s) = Raise OverflowError.
Proof.
  induction l as [|x l IH]; intros Hbody s; [left; by eexists|].
  simpl. unfold bind.
  destruct (Hbody x s) as [(s1 & ->)|He]; [by left| |].
  - apply IH. intros y s' Hy. apply Hbody. by right.
  - right. destruct (body x s) as [[[]|e|] s1]; simpl in *; congruence.
Qed.

Lemma collect_coordinates_benign from_start from_finish s :
  (exists s', collect_coordinates from_start from_finish s = (Ret tt, s')) \/
  fst (collect_coordinates from_start from_finish s) = Raise OverflowError.
Proof.
  revert s. unfold collect_coordinates.
  apply for_each_benign. intros fStart s _.
  revert s. apply for_each_benign. intros fFinish s _.
  destruct (distances_defined fStart fFinish); [left|by right].
  revert s. apply for_each_total. intros c s Hc.
  by eapply candidate_body_total.
Qed.

(** C8.  Two integer coordinates at Euclidean distance exactly 1 differ
    by one of the four unit shifts, the if/elif chain of
    [find_suggestions] maps every such shift to a wall, and so
    [find_suggestions] never reaches its ValueError branch: it returns
    a list (or, for coordinates beyond the range of floats, stops in
    the distance computation itself). *)
Theorem fatal_branch_unreachable :
  (forall t1 t2 : coord,
     adjacent t1 t2 = true ->
     let row_shift := fst t1 - fst t2 in
     let col_shift := snd t1 - snd t2 in
     ((row_shift = -1 /\ col_shift = 0) \/ (row_shift = 1 /\ col_shift = 0) \/
      (row_shift = 0 /\ col_shift = -1) \/ (row_shift = 0 /\ col_shift = 1)) /\
     shift_wall row_shift col_shift <> None) /\
  (forall list_of_set from_start from_finish,
     find_suggestions list_of_set from_start from_finish <> Raise ValueError /\
     ((exists coordinates,
         find_suggestions list_of_set from_start from_finish = Ret coordinates) \/
      find_suggestions list_of_set from_start from_finish = Raise OverflowError)).
Proof.
  split.
  - intros t1 t2 H. split; [by apply adjacent_unit_shift|].
    by destruct (shift_wall_adjacent t1 t2 H) as (wi & ->).
  - intros f fs ff. unfold find_suggestions.
    destruct (collect_coordinates_benign fs ff []) as [(s' & ->)|He].
    + split; [done|]. left. by eexists.
    + destruct (collect_coordinates fs ff []) as [[[]|e|] s']; simpl in He;
        try discriminate.
      injection He as ->. split; [done|by right].
Qed.

Lemma fatal_branch_unreachable_witness :
  ((0 - 0 = -1 /\ 0 - 1 = 0) \/ (0 - 0 = 1 /\ 0 - 1 = 0) \/
   (0 - 0 = 0 /\ 0 - 1 = -1) \/ (0 - 0 = 0 /\ 0 - 1 = 1)) /\
  shift_wall (0 - 0) (0 - 1) <> None.
Proof.
  apply (proj1 fatal_branch_unreachable (0, 0) (0, 1)). reflexivity.
Defined.

Lemma suggestion_leb_antisym x y :
  suggestion_leb x y && suggestion_leb y x = true <-> x = y.
Proof.
  destruct x as [[x1 x2] x3], y as [[y1 y2] y3]. unfold suggestion_leb.
  split.
  - intros H.
    destruct (Z.ltb_spec x1 y1), (Z.ltb_spec y1 x1), (Z.eqb_spec x1 y1),
      (Z.eqb_spec y1 x1), (Z.ltb_spec x2 y2), (Z.ltb_spec y2 x2),
      (Z.eqb_spec x2 y2), (Z.eqb_spec y2 x2), (Z.leb_spec x3 y3),
      (Z.leb_spec y3 x3); simpl in H; try discriminate; try lia.
    repeat f_equal; lia.
  - intros [= -> -> ->].
    rewrite !Z.ltb_irrefl, !Z.eqb_refl, Z.leb_refl. done.
Qed.

Lemma distinct_In l x : In x (distinct l) <-> In x l.
Proof.
  induction l as [|y l IH]; [done|]. simpl.
  destruct (existsb _ l) eqn:He.
  - rewrite IH. split; [by right|]. intros [<-|H]; [|done].
    apply existsb_exists in He as (z & Hz & Hyz).
    apply suggestion_leb_antisym in Hyz. by subst.
  - simpl. by rewrite IH.
Qed.

Lemma distinct_NoDup l : List.NoDup (distinct l).
Proof.
  induction l as [|y l IH]; [constructor|]. simpl.
  destruct (existsb _ l) eqn:He; [done|].
  constructor; [|done]. rewrite distinct_In. intros Hy.
  assert (existsb (fun z => suggestion_leb y z && suggestion_leb z y) l = true)
    as Ht; [|congruence].
  apply existsb_exists. exists y. split; [done|].
  by apply suggestion_leb_antisym.
Qed.

Lemma last_seen_first_listing : set_listing last_seen_first.
Proof.
  intros l. unfold last_seen_first. split.
  - apply NoDup_rev, distinct_NoDup.
  - intros x. by rewrite <- in_rev, distinct_In.
Qed.

Lemma find_suggestions_nodup list_of_set from_start from_finish coordinates :
  set_listing list_of_set ->
  find_suggestions list_of_set from_start from_finish = Ret coordinates ->
  List.NoDup coordinates.
Proof.
  intros Hset. unfold find_suggestions.
  destruct (collect_coordinates _ _ _) as [[[]|e|] raw]; [|done|done].
  intros [= <-]. apply Hset.
Qed.

(** C6 (evaluation of the code at the failing input).  For the
    dead-end lists of the 2 x 2 maze whose cell (0,1) is walled off,
    [find_suggestions] returns [list(set(...))] of the collected
    triples as it is: the statement [coordinates.sort] does not call
    [sort].  Under a listing that Python allows (the distinct elements,
    last seen first) the result is [(0,1,8), (0,1,1)], which is not in
    ascending order; it has no duplicates under every listing. *)
Theorem coordinates_are_not_sorted :
  let from_start := [[(0, 1); (0, 1)]] in
  let from_finish :=
    [[(1, 0); (1, 0); (0, 0)]; [(1, 0); (1, 0); (1, 1)]; [(1, 0); (1, 0)]] in
  (forall list_of_set,
     find_suggestions list_of_set from_start from_finish
     = Ret (list_of_set [(0, 1, 1); (0, 1, 1); (0, 1, 8); (0, 1, 8)])) /\
  set_listing last_seen_first /\
  find_suggestions last_seen_first from_start from_finish
    = Ret [(0, 1, 8); (0, 1, 1)] /\
  sorted_asc [(0, 1, 8); (0, 1, 1)] = false.
Proof.
  repeat split; try reflexivity; apply last_seen_first_listing.
Qed.

Example dead_ends_of_walled_off_cell :
  match create_maze [[4; 8]; [0; 0]] with
  | Ret m => fst (find_paths (0, 1) (1, 0) m)
  | _ => OutOfFuel
  end
  = Ret (DeadEnds [[(0, 1); (0, 1)]]
           [[(1, 0); (1, 0); (0, 0)]; [(1, 0); (1, 0); (1, 1)]; [(1, 0); (1, 0)]]).
Proof. reflexivity. Qed.

(** * Properties of solve_maze *)

Lemma has_shape_spec m h w :
  has_shape m h w = true <->
  Z.of_nat (length m) = h /\ Forall (fun row => Z.of_nat (length row) = w) m.
Proof.
  unfold has_shape. rewrite andb_true_iff, Z.eqb_eq.
  split; intros [Hh Hw]; (split; [done|]).
  - apply Forall_forall. intros row Hrow. rewrite forallb_forall in Hw.
    apply Z.eqb_eq, Hw. by apply list_elem_of_In.
  - apply forallb_forall. intros row Hrow. apply Z.eqb_eq.
    rewrite Forall_forall in Hw. apply Hw. by apply list_elem_of_In.
Qed.

Lemma maze_alter_shape f m row col m' h w :
  has_shape m h w = true -> maze_alter f m row col = Some m' ->
  has_shape m' h w = true.
Proof.
  rewrite !has_shape_spec. intros [Hh Hw]. unfold maze_alter, py_alter.
  destruct (py_index (length m) row) as [i|]; [|discriminate].
  destruct (m !! i) as [r|] eqn:Hr; [|discriminate].
  destruct (py_index (length r) col) as [k|]; [|discriminate].
  intros [= <-]. split; [by rewrite length_insert|].
  apply Forall_insert; [done|]. rewrite length_alter.
  by apply (Forall_lookup_1 _ _ _ _ Hw Hr).
Qed.

Lemma maze_alter_beyond f m h w a :
  has_shape m h w = true -> beyond_index h w a = true ->
  maze_alter f m (fst a) (snd a) = None.
Proof.
  rewrite has_shape_spec. intros [Hh Hw] Ha. unfold maze_alter, py_alter.
  destruct (py_index (length m) (fst a)) as [i|] eqn:Hi; [|done].
  destruct (m !! i) as [r|] eqn:Hr; [|done].
  pose proof (Forall_lookup_1 _ _ _ _ Hw Hr) as Hlen. simpl in Hlen.
  assert (- h <= fst a < h) as Hrow.
  { destruct (decide (- h <= fst a < h)) as [|Hn]; [done|].
    rewrite py_index_out in Hi by lia. done. }
  rewrite py_index_out; [done|].
  unfold beyond_index in Ha. apply negb_true_iff in Ha.
  destruct (Z.leb_spec (- h) (fst a)); [|lia].
  destruct (Z.ltb_spec (fst a) h); [|lia].
  destruct (Z.leb_spec (- w) (snd a)); [|lia].
  destruct (Z.ltb_spec (snd a) w); [done|lia].
Qed.

Lemma cell_call_beyond f m h w a :
  has_shape m h w = true -> beyond_index h w a = true ->
  fst (cell_call f a m) = Raise IndexError.
Proof.
  intros Hm Ha. unfold cell_call.
  by rewrite (maze_alter_beyond f m h w a Hm Ha).
Qed.

Lemma solve_maze_beyond list_of_set cmd_entry m :
  let h := CLProcessor.height cmd_entry in
  let w := CLProcessor.width cmd_entry in
  has_shape m h w = true ->
  beyond_index h w (CLProcessor.start_cell cmd_entry)
  || beyond_index h w (CLProcessor.finish_cell cmd_entry) = true ->
  fst (solve_maze list_of_set cmd_entry m) = Raise IndexError.
Proof.
  intros h w Hm Hb. unfold solve_maze. unfold bind at 1.
  destruct (beyond_index h w (CLProcessor.start_cell cmd_entry)) eqn:Hs.
  - pose proof (cell_call_beyond set_as_start m h w _ Hm Hs) as H1.
    destruct (cell_call set_as_start _ m) as [[[]|e|] m1]; simpl in H1 |- *;
      congruence.
  - simpl in Hb. unfold cell_call at 1.
    destruct (maze_alter set_as_start m _ _) as [m1|] eqn:Hm1; [|done].
    pose proof (maze_alter_shape _ _ _ _ _ _ _ Hm Hm1) as Hm1s.
    unfold bind at 1.
    pose proof (cell_call_beyond (set_as_finish false) m1 h w _ Hm1s Hb) as H2.
    destruct (cell_call (set_as_finish false) _ m1) as [[[]|e|] m2];
      simpl in H2 |- *; congruence.
Qed.

(** C7.  The solve operation, that is [solve_maze] reached through a
    command entry that [CLProcessor.__check_inputs] has validated,
    ends in an error whenever the start or the finish cell lies outside
    the grid of a maze of shape (height, width): a negative component
    or a component at least the corresponding dimension is answered by
    ValueError from the check or by IndexError from [solve_maze], never
    by a result.  [solve_maze] itself raises IndexError whenever a
    component is at least the dimension or below its negation. *)
Theorem off_grid_cells_raise list_of_set cmd_entry m :
  let h := CLProcessor.height cmd_entry in
  let w := CLProcessor.width cmd_entry in
  has_shape m h w = true ->
  off_grid h w (CLProcessor.start_cell cmd_entry)
  || off_grid h w (CLProcessor.finish_cell cmd_entry) = true ->
  (exists e, fst (solve list_of_set cmd_entry m) = Raise e) /\
  (beyond_index h w (CLProcessor.start_cell cmd_entry)
   || beyond_index h w (CLProcessor.finish_cell cmd_entry) = true ->
   fst (solve_maze list_of_set cmd_entry m) = Raise IndexError).
Proof.
  intros h w Hm Hoff. split; [|by apply solve_maze_beyond].
  unfold solve, CLProcessor.check_inputs.
  fold h w.
  destruct (w <? 1); [by eexists|]. destruct (h <? 1); [by eexists|].
  destruct (CLProcessor.in_range (fst (CLProcessor.start_cell cmd_entry)) w)
    eqn:H1; [|by eexists].
  destruct (CLProcessor.in_range (fst (CLProcessor.finish_cell cmd_entry)) w)
    eqn:H2; [|by eexists].
  destruct (CLProcessor.in_range (snd (CLProcessor.start_cell cmd_entry)) h)
    eqn:H3; [|by eexists].
  destruct (CLProcessor.in_range (snd (CLProcessor.finish_cell cmd_entry)) h)
    eqn:H4; [|by eexists].
  simpl. exists IndexError. apply solve_maze_beyond; [done|]. fold h w.
  unfold CLProcessor.in_range in *. unfold off_grid in Hoff.
  unfold beyond_index.
  destruct (CLProcessor.start_cell cmd_entry) as [sr sc].
  destruct (CLProcessor.finish_cell cmd_entry) as [fr fc]. simpl in *.
  apply andb_true_iff in H1 as [? ?], H2 as [? ?], H3 as [? ?], H4 as [? ?].
  apply orb_true_iff in Hoff. apply orb_true_iff.
  destruct Hoff as [Ho|Ho]; [left|right]; apply negb_true_iff in Ho;
    apply negb_true_iff;
    repeat match goal with
    | |- context [?a <=? ?b] => destruct (Z.leb_spec a b)
    | |- context [?a <? ?b] => destruct (Z.ltb_spec a b)
    | H : context [?a <=? ?b] |- _ => destruct (Z.leb_spec a b)
    | H : context [?a <? ?b] |- _ => destruct (Z.ltb_spec a b)
    end; simpl in *; try done; try lia.
Qed.

Lemma off_grid_cells_raise_witness :
  (exists e,
     fst (solve last_seen_first
            {| CLProcessor.width := 2; CLProcessor.height := 1;
               CLProcessor.start_cell := (0, 0);
               CLProcessor.finish_cell := (1, 0) |}
            walled_pair) = Raise e) /\
  (beyond_index 1 2 (0, 0) || beyond_index 1 2 (1, 0) = true ->
   fst (solve_maze last_seen_first
          {| CLProcessor.width := 2; CLProcessor.height := 1;
             CLProcessor.start_cell := (0, 0);
             CLProcessor.finish_cell := (1, 0) |}
          walled_pair) = Raise IndexError).
Proof.
  apply (off_grid_cells_raise last_seen_first
           {| CLProcessor.width := 2; CLProcessor.height := 1;
              CLProcessor.start_cell := (0, 0);
              CLProcessor.finish_cell := (1, 0) |}
           walled_pair); reflexivity.
Defined.

(** * Properties of the wall scanner *)

(** C5 (evaluation of the code at the failing input).  The run of
    black pixels 6..7 with a cell width of 4 pixels gets boundary index
    2 when a white pixel closes it (the mean index is divided by the
    cell width and rounded) and boundary index 1 when the scan line ends
    inside it (the quotient is truncated): the scanner records RIGHT on
    column 1 in the first case and on column 0 in the second.  On the
    image of a one-row maze the right border is thus added to column 0,
    on top of the inner wall. *)
Theorem open_run_is_truncated_not_rounded :
  cindex_closed 4 [6; 7] = 2 /\
  cindex_open 4 [6; 7] = 1 /\
  read_maze_file image_wall_then_white 2 1 = Ret [[0; 6]] /\
  read_maze_file image_ending_on_wall 2 1 = Ret [[4; 2]] /\
  read_maze_file image_one_row_maze 2 1 = Ret [[9; 0]].
Proof. repeat split; reflexivity. Qed.

(** Where the two rules agree: a run whose mean index lies in the
    lower half of a cell. *)
Lemma cindex_open_closed_agree cell_dim run :
  0 < cell_dim -> 0 <= listAvg run ->
  2 * (listAvg run mod cell_dim) < cell_dim ->
  cindex_open cell_dim run = cindex_closed cell_dim run.
Proof.
  intros Hd Ha Hm. unfold cindex_open, cindex_closed.
  set (a := listAvg run) in *.
  rewrite !Z.quot_div_nonneg by lia.
  pose proof (Z.div_mod a cell_dim ltac:(lia)) as Hdm.
  pose proof (Z.mod_pos_bound a cell_dim Hd) as Hb.
  apply (Z.div_unique _ _ _ (2 * (a mod cell_dim) + cell_dim)); lia.
Qed.

(** * The scenarios of the specification, evaluated *)

(** The fully open 2 x 2 grid: the search goes right, then down; the
    returned path carries the flag and the start cell twice. *)
Example open_two_by_two :
  match create_maze [[0; 0]; [0; 0]] with
  | Ret m => fst (find_paths (0, 0) (1, 1) m)
  | _ => OutOfFuel
  end
  = Ret (FoundPath [flag; (0, 0); (0, 0); (0, 1); (1, 1)]).
Proof. reflexivity. Qed.

(** A 34-pixel wide one-row image with a black band centred on pixel
    column 17 and two cell columns: RIGHT is recorded on column 0. *)
Example band_at_seventeen :
  read_maze_file
    [replicate 16 255 ++ [0; 0; 0] ++ replicate 15 255] 2 1
  = Ret [[4; 0]].
Proof. reflexivity. Qed.

(** * Properties of the cell methods *)

Ltac bitwise :=
  apply Z.bits_inj'; intros ?n ?Hn;
  rewrite ?Z.ldiff_spec, ?Z.land_spec, ?Z.lor_spec, ?Z.lxor_spec,
    ?Z.ldiff_spec, ?Z.land_spec, ?Z.lor_spec, ?Z.testbit_0_l;
  repeat match goal with
  | |- context [Z.testbit ?a ?n] => destruct (Z.testbit a n)
  end; reflexivity.

Lemma sub_land_ldiff x w : x - Z.land x w = Z.ldiff x w.
Proof.
  rewrite Z.sub_nocarry_ldiff by bitwise. bitwise.
Qed.

Lemma add_disjoint_lor a b : Z.land a b = 0 -> a + b = Z.lor a b.
Proof.
  intros H. rewrite Z.add_nocarry_lxor by done. by apply Z.lxor_lor.
Qed.

Lemma land_pow2_cases d k :
  0 <= k -> Z.land d (2 ^ k) = 0 \/ Z.land d (2 ^ k) = 2 ^ k.
Proof.
  intros Hk. destruct (Z.testbit d k) eqn:Hd; [right|left];
    apply Z.bits_inj'; intros n Hn;
    rewrite Z.land_spec, ?Z.testbit_0_l, Z.pow2_bits_eqb by done;
    destruct (Z.eqb_spec k n) as [<-|Hne];
    rewrite ?Hd, ?andb_false_r; done.
Qed.

(** [if d & b: d -= b] clears the bit [b = 2^k]. *)
Lemma clear_bit_by_sub d k :
  0 <= k ->
  (if truthy (Z.land d (2 ^ k)) then d - 2 ^ k else d) = Z.ldiff d (2 ^ k).
Proof.
  intros Hk. rewrite <- sub_land_ldiff. unfold truthy.
  destruct (land_pow2_cases d k Hk) as [->| ->].
  - simpl. lia.
  - destruct (Z.eqb_spec (2 ^ k) 0) as [H0|_]; [|done].
    pose proof (Z.pow_pos_nonneg 2 k ltac:(lia) Hk). lia.
Qed.

(** X1.  [remove_wall] clears exactly the requested bits, and undoes an
    [add_wall] of walls the cell did not have. *)
Theorem remove_wall_undoes_add_wall c wi :
  wi <= 16 ->
  exists c1 c2,
    add_wall wi c = inr c1 /\ remove_wall wi c1 = inr c2 /\
    wall_index c2 = Z.ldiff (wall_index c) wi /\
    Z.land (wall_index c2) wi = 0 /\
    (Z.land (wall_index c) wi = 0 -> c2 = c).
Proof.
  intros Hwi. unfold add_wall, remove_wall.
  destruct (Z.ltb_spec 16 wi); [lia|].
  eexists. eexists. split; [reflexivity|]. split; [reflexivity|]. simpl.
  assert (Z.lor (wall_index c) wi - Z.land (Z.lor (wall_index c) wi) wi
          = Z.ldiff (wall_index c) wi) as Heq.
  { rewrite sub_land_ldiff. bitwise. }
  rewrite Heq. split; [done|]. split; [bitwise|].
  intros Hnone. destruct c as [w d v dr]. simpl in *. f_equal.
  transitivity (Z.lor (Z.ldiff w wi) (Z.land w wi));
    [by rewrite Hnone, Z.lor_0_r|apply Z.lor_ldiff_and].
Qed.

Lemma remove_wall_undoes_add_wall_witness :
  exists c1 c2,
    add_wall wi_right (initial_cell 3) = inr c1 /\
    remove_wall wi_right c1 = inr c2 /\
    wall_index c2 = Z.ldiff (wall_index (initial_cell 3)) wi_right /\
    Z.land (wall_index c2) wi_right = 0 /\
    (Z.land (wall_index (initial_cell 3)) wi_right = 0 -> c2 = initial_cell 3).
Proof.
  apply (remove_wall_undoes_add_wall (initial_cell 3) wi_right). vm_compute.
  discriminate.
Defined.

Lemma valid_direction_cases dir :
  valid_direction dir = true ->
  dir = go_none \/ dir = go_nodir \/ dir = go_left \/ dir = go_up \/
  dir = go_right \/ dir = go_down.
Proof.
  unfold valid_direction. simpl. intros H.
  repeat (apply orb_true_iff in H as [H|H]; [apply Z.eqb_eq in H; tauto|]).
  discriminate.
Qed.

Lemma valid_direction_in_bits dir :
  valid_direction dir = true -> Z.land dir direction_bits = dir.
Proof.
  intros H.
  destruct (valid_direction_cases dir H) as [->|[->|[->|[->|[->| ->]]]]];
    reflexivity.
Qed.

Lemma set_direction_spec dir c :
  valid_direction dir = true ->
  set_direction dir c
  = with_display (Z.lor (Z.ldiff (display_index c) direction_bits) dir) c.
Proof.
  intros Hdir. unfold set_direction. fold (valid_direction dir).
  rewrite Hdir. simpl negb. cbv iota. cbv zeta. f_equal.
  change go_nodir with (2 ^ 5). change go_left with (2 ^ 6).
  change go_up with (2 ^ 7). change go_right with (2 ^ 8).
  change go_down with (2 ^ 9).
  rewrite !clear_bit_by_sub by lia. rewrite !Z.ldiff_ldiff_l.
  change (Z.lor (Z.lor (Z.lor (Z.lor (2 ^ 5) (2 ^ 6)) (2 ^ 7)) (2 ^ 8)) (2 ^ 9))
    with direction_bits.
  apply add_disjoint_lor.
  rewrite <- (valid_direction_in_bits dir Hdir). bitwise.
Qed.

(** An invalid direction leaves the cell as it is: the method returns
    the ValueError instead of raising it. *)
Lemma set_direction_invalid c dir :
  valid_direction dir = false -> set_direction dir c = c.
Proof.
  intros Hdir. unfold set_direction. fold (valid_direction dir).
  by rewrite Hdir.
Qed.

(** X2.  After [set_direction] with a valid direction the display index
    shows that direction and no other, keeps every other bit and the
    wall mask, and the last of two calls wins. *)
Theorem set_direction_shows_one_direction c dir :
  valid_direction dir = true ->
  Z.land (display_index (set_direction dir c)) direction_bits = dir /\
  Z.ldiff (display_index (set_direction dir c)) direction_bits
    = Z.ldiff (display_index c) direction_bits /\
  wall_index (set_direction dir c) = wall_index c /\
  (forall dir', valid_direction dir' = true ->
     set_direction dir (set_direction dir' c) = set_direction dir c).
Proof.
  intros Hdir. rewrite set_direction_spec by done. simpl.
  pose proof (valid_direction_in_bits dir Hdir) as Hin.
  split; [rewrite <- Hin at 2; rewrite <- Hin at 1; bitwise|].
  split; [rewrite <- Hin; bitwise|]. split; [done|].
  intros dir' Hdir'. rewrite !set_direction_spec by done.
  unfold with_display. simpl. f_equal. f_equal.
  rewrite <- (valid_direction_in_bits dir' Hdir'). bitwise.
Qed.

Lemma set_direction_shows_one_direction_witness :
  Z.land (display_index (set_direction go_up (initial_cell 1100))) direction_bits
    = go_up /\
  Z.ldiff (display_index (set_direction go_up (initial_cell 1100))) direction_bits
    = Z.ldiff (display_index (initial_cell 1100)) direction_bits /\
  wall_index (set_direction go_up (initial_cell 1100))
    = wall_index (initial_cell 1100) /\
  (forall dir', valid_direction dir' = true ->
     set_direction go_up (set_direction dir' (initial_cell 1100))
     = set_direction go_up (initial_cell 1100)).
Proof.
  apply (set_direction_shows_one_direction (initial_cell 1100) go_up).
  reflexivity.
Defined.

Lemma truthy_land_pow2 x k : 0 <= k -> truthy (Z.land x (2 ^ k)) = Z.testbit x k.
Proof.
  intros Hk. unfold truthy.
  destruct (Z.testbit x k) eqn:Hx.
  - destruct (Z.eqb_spec (Z.land x (2 ^ k)) 0) as [H0|]; [|done].
    apply (f_equal (fun z => Z.testbit z k)) in H0.
    rewrite Z.land_spec, Hx, Z.pow2_bits_true, Z.testbit_0_l in H0 by done.
    discriminate.
  - destruct (Z.eqb_spec (Z.land x (2 ^ k)) 0) as [|Hn]; [done|].
    exfalso. apply Hn. apply Z.bits_inj'. intros n Hn'.
    rewrite Z.land_spec, Z.testbit_0_l, Z.pow2_bits_eqb by done.
    destruct (Z.eqb_spec k n) as [<-|]; [by rewrite Hx|apply andb_false_r].
Qed.

Lemma shows_start_testbit c : shows_start c = Z.testbit (display_index c) 10.
Proof. unfold shows_start. change wi_start with (2 ^ 10). by apply truthy_land_pow2. Qed.

Lemma shows_finish_testbit c : shows_finish c = Z.testbit (display_index c) 11.
Proof. unfold shows_finish. change wi_finish with (2 ^ 11). by apply truthy_land_pow2. Qed.

Lemma set_direction_keeps_captions dir c :
  shows_start (set_direction dir c) = shows_start c /\
  shows_finish (set_direction dir c) = shows_finish c.
Proof.
  destruct (valid_direction dir) eqn:Hdir.
  - rewrite !shows_start_testbit, !shows_finish_testbit.
    rewrite set_direction_spec by done. unfold with_display.
    cbn [display_index]. rewrite !Z.lor_spec, !Z.ldiff_spec.
    destruct (valid_direction_cases dir Hdir) as [->|[->|[->|[->|[->| ->]]]]];
      simpl; rewrite ?andb_true_r, ?orb_false_r; done.
  - by rewrite set_direction_invalid.
Qed.

(** X3.  START and FINISH exclude each other: on a cell that does not
    show both, [set_as_start] leaves START without FINISH and
    [set_as_finish] leaves FINISH without START. *)
Theorem start_and_finish_exclude_each_other c show_dot :
  shows_start c && shows_finish c = false ->
  (shows_start (set_as_start c) = true /\
   shows_finish (set_as_start c) = false) /\
  (shows_finish (set_as_finish show_dot c) = true /\
   shows_start (set_as_finish show_dot c) = false).
Proof.
  intros Hex. split.
  - unfold set_as_start. fold (shows_start c).
    destruct (shows_start c) eqn:Hs; simpl.
    + rewrite Hs. split; [done|]. by destruct (shows_finish c).
    + change wi_finish with (2 ^ 11). rewrite clear_bit_by_sub by lia.
      rewrite shows_start_testbit in Hs.
      rewrite shows_start_testbit, shows_finish_testbit.
      unfold with_display. cbn [display_index].
      rewrite add_disjoint_lor.
      2:{ change wi_start with (2 ^ 10). apply Z.bits_inj'. intros n Hn.
          rewrite Z.land_spec, Z.ldiff_spec, Z.testbit_0_l, !Z.pow2_bits_eqb by lia.
          destruct (Z.eqb_spec 10 n) as [<-|]; [|apply andb_false_r].
          by rewrite Hs. }
      rewrite !Z.lor_spec, !Z.ldiff_spec. change wi_start with (2 ^ 10).
      rewrite !Z.pow2_bits_eqb by lia. simpl.
      split; [apply orb_true_r|]. by rewrite andb_false_r.
  - unfold set_as_finish. fold (shows_finish c).
    assert (forall x, shows_finish x = true -> shows_start x = false ->
              shows_finish (if show_dot then set_direction go_nodir x
                            else set_direction go_none x) = true /\
              shows_start (if show_dot then set_direction go_nodir x
                           else set_direction go_none x) = false) as Hdir.
    { intros x Hf Hs.
      destruct show_dot.
      - by destruct (set_direction_keeps_captions go_nodir x) as [-> ->].
      - by destruct (set_direction_keeps_captions go_none x) as [-> ->]. }
    destruct (shows_finish c) eqn:Hf; simpl.
    + apply Hdir; [done|]. by destruct (shows_start c).
    + apply Hdir.
      * change wi_start with (2 ^ 10). rewrite clear_bit_by_sub by lia.
        rewrite shows_finish_testbit in Hf. rewrite shows_finish_testbit.
        unfold with_display. cbn [display_index].
        rewrite add_disjoint_lor.
        2:{ change wi_finish with (2 ^ 11). apply Z.bits_inj'. intros n Hn.
            rewrite Z.land_spec, Z.ldiff_spec, Z.testbit_0_l, !Z.pow2_bits_eqb by lia.
            destruct (Z.eqb_spec 11 n) as [<-|]; [|apply andb_false_r].
            by rewrite Hf. }
        rewrite Z.lor_spec. change wi_finish with (2 ^ 11).
        rewrite Z.pow2_bits_eqb by lia. apply orb_true_r.
      * change wi_start with (2 ^ 10). rewrite clear_bit_by_sub by lia.
        rewrite shows_finish_testbit in Hf. rewrite shows_start_testbit.
        unfold with_display. cbn [display_index].
        rewrite add_disjoint_lor.
        2:{ change wi_finish with (2 ^ 11). apply Z.bits_inj'. intros n Hn.
            rewrite Z.land_spec, Z.ldiff_spec, Z.testbit_0_l, !Z.pow2_bits_eqb by lia.
            destruct (Z.eqb_spec 11 n) as [<-|]; [|apply andb_false_r].
            by rewrite Hf. }
        rewrite Z.lor_spec, Z.ldiff_spec. change wi_finish with (2 ^ 11).
        rewrite !Z.pow2_bits_eqb by lia. simpl. by rewrite andb_false_r.
Qed.

Lemma start_and_finish_exclude_each_other_witness :
  (shows_start (set_as_start (set_as_finish false (initial_cell 12))) = true /\
   shows_finish (set_as_start (set_as_finish false (initial_cell 12))) = false) /\
  (shows_finish (set_as_finish true (set_as_finish false (initial_cell 12))) = true /\
   shows_start (set_as_finish true (set_as_finish false (initial_cell 12))) = false).
Proof.
  apply (start_and_finish_exclude_each_other
           (set_as_finish false (initial_cell 12)) true).
  reflexivity.
Defined.

(** * Further properties of the diagnoser *)

Lemma for_each_appends {A B} (l : list A) (body : A -> M (list B) unit)
    (g : A -> list B) :
  (forall x s s', In x l -> body x s = (Ret tt, s') -> s' = s ++ g x) ->
  forall s s', for_each l body s = (Ret tt, s') -> s' = s ++ flat_map g l.
Proof.
  induction l as [|x l IH]; intros Hbody s s' H.
  - injection H as <-. by rewrite app_nil_r.
  - simpl in H. apply bind_Ret_inv in H as ([] & s1 & H1 & H).
    apply Hbody in H1 as ->; [|by left].
    apply IH in H as ->; [|intros y t t' Hy; apply Hbody; by right].
    simpl. by rewrite app_assoc.
Qed.

Lemma collect_coordinates_appends from_start from_finish s s' :
  collect_coordinates from_start from_finish s = (Ret tt, s') ->
  s' = s ++ flat_map (fun fStart =>
              flat_map (fun fFinish => suggestions_of (candidates fStart fFinish))
                       from_finish) from_start.
Proof.
  unfold collect_coordinates. apply for_each_appends.
  intros fStart t t' _. apply for_each_appends.
  intros fFinish u u' _. destruct (distances_defined fStart fFinish); [|done].
  unfold suggestions_of. apply for_each_appends.
  intros c v v' _. unfold candidate_body.
  destruct (shift_wall _ _); [|done]. by intros [= <-].
Qed.

Lemma shift_wall_across a j w :
  adjacent a j = true /\ shift_wall (fst a - fst j) (snd a - snd j) = Some w
  <-> is_wall w = true /\ j = across a w.
Proof.
  destruct a as [r c], j as [r' c']. simpl. split.
  - intros [Hadj Hw].
    destruct (adjacent_unit_shift _ _ Hadj) as [[H1 H2]|[[H1 H2]|[[H1 H2]|[H1 H2]]]];
      simpl in H1, H2; rewrite H1, H2 in Hw; injection Hw as <-;
      (split; [done|]); unfold across; simpl; f_equal; lia.
  - intros [Hw Hj]. unfold is_wall in Hw.
    repeat (apply orb_true_iff in Hw as [Hw|Hw]);
      apply Z.eqb_eq in Hw; subst w; unfold across in Hj; simpl in Hj;
      injection Hj as -> ->; unfold adjacent, calc_distance_sq; simpl.
    + replace (r - r) with 0 by lia. replace (c - (c - 1)) with 1 by lia. done.
    + replace (r - (r - 1)) with 1 by lia. replace (c - c) with 0 by lia. done.
    + replace (r - r) with 0 by lia. replace (c - (c + 1)) with (-1) by lia. done.
    + replace (r - (r + 1)) with (-1) by lia. replace (c - c) with 0 by lia. done.
Qed.

Lemma collected_members from_start from_finish raw :
  collect_coordinates from_start from_finish [] = (Ret tt, raw) ->
  forall row col wall,
    In (row, col, wall) raw <->
    is_wall wall = true /\
    (exists fStart, In fStart from_start /\ In (row, col) fStart) /\
    (exists fFinish, In fFinish from_finish /\
                     In (across (row, col) wall) fFinish).
Proof.
  intros Hraw row col wall.
  apply collect_coordinates_appends in Hraw as ->. simpl.
  rewrite in_flat_map. split.
  - intros (fStart & HfS & Hin). apply in_flat_map in Hin as (fFinish & HfF & Hin).
    unfold suggestions_of in Hin. apply in_flat_map in Hin as ([a j] & Hc & Hin).
    unfold candidates in Hc. apply filter_In in Hc as [Hpair Hadj].
    unfold pairs in Hpair. apply in_flat_map in Hpair as (a' & Ha & Hj).
    apply in_map_iff in Hj as (j' & [= <- <-] & Hj). simpl in *.
    destruct (shift_wall _ _) as [w|] eqn:Hw; [|done].
    destruct Hin as [[= <- <- <-]|[]].
    destruct a' as [r c]. simpl in *.
    destruct (proj1 (shift_wall_across (r, c) j' w) (conj Hadj Hw)) as [Hiw ->].
    split; [done|]. split; eauto.
  - intros (Hw & (fStart & HfS & Ha) & (fFinish & HfF & Hj)).
    exists fStart. split; [done|]. apply in_flat_map.
    exists fFinish. split; [done|]. unfold suggestions_of. apply in_flat_map.
    exists ((row, col), across (row, col) wall).
    destruct (proj2 (shift_wall_across (row, col) (across (row, col) wall) wall)
                (conj Hw eq_refl)) as [Hadj Hsw].
    split.
    + unfold candidates. apply filter_In. split; [|done].
      unfold pairs. apply in_flat_map. exists (row, col). split; [done|].
      apply in_map_iff. by eexists.
    + simpl in *. rewrite Hsw. by left.
Qed.

(** X4.  [find_suggestions] returns exactly the walls that separate a
    cell on some from-start path from a neighbouring cell on some
    from-finish path: a triple (row, col, wall) is in the result if and
    only if wall is one of the four wall bits, (row, col) occurs in a
    path of [from_start] and the cell across that wall occurs in a path
    of [from_finish]. *)
Theorem find_suggestions_exact list_of_set from_start from_finish coordinates :
  set_listing list_of_set ->
  find_suggestions list_of_set from_start from_finish = Ret coordinates ->
  forall row col wall,
    In (row, col, wall) coordinates <->
    is_wall wall = true /\
    (exists fStart, In fStart from_start /\ In (row, col) fStart) /\
    (exists fFinish, In fFinish from_finish /\
                     In (across (row, col) wall) fFinish).
Proof.
  intros Hset Hfind row col wall. unfold find_suggestions in Hfind.
  destruct (collect_coordinates from_start from_finish [])
    as [[[]|e|] raw] eqn:Hraw; [|done|done].
  injection Hfind as <-. rewrite (proj2 (Hset raw)).
  by apply collected_members.
Qed.

Lemma find_suggestions_exact_witness :
  In (0, 1, 8) [(0, 1, 8); (0, 1, 1)] <->
  is_wall 8 = true /\
  (exists fStart, In fStart [[(0, 1); (0, 1)]] /\ In (0, 1) fStart) /\
  (exists fFinish,
     In fFinish [[(1, 0); (1, 0); (0, 0)]; [(1, 0); (1, 0); (1, 1)];
                 [(1, 0); (1, 0)]] /\
     In (across (0, 1) 8) fFinish).
Proof.
  apply (find_suggestions_exact last_seen_first
           [[(0, 1); (0, 1)]]
           [[(1, 0); (1, 0); (0, 0)]; [(1, 0); (1, 0); (1, 1)]; [(1, 0); (1, 0)]]).
  - apply last_seen_first_listing.
  - reflexivity.
Defined.

(** * Complete searches on enclosed mazes *)

(** ** Cells named by in-bounds coordinates *)

Lemma maze_get_nat m r c : maze_get m (Z.of_nat r) (Z.of_nat c) = cell_at m r c.
Proof.
  unfold maze_get, cell_at. rewrite py_get_of_nat.
  destruct (m !! r); [apply py_get_of_nat|done].
Qed.

Lemma in_bounds_nat m a :
  in_bounds m a = true <->
  exists r c x, a = (Z.of_nat r, Z.of_nat c) /\ cell_at m r c = Some x.
Proof.
  unfold in_bounds, cell_at. destruct a as [i j]. simpl. split.
  - intros H. apply andb_true_iff in H as [H Hrow].
    apply andb_true_iff in H as [Hi _]. apply Z.leb_le in Hi.
    destruct (m !! Z.to_nat i) as [row|] eqn:Hr; [|done].
    apply andb_true_iff in Hrow as [Hj Hj']. apply Z.leb_le in Hj.
    apply Z.ltb_lt in Hj'.
    destruct (lookup_lt_is_Some_2 row (Z.to_nat j)) as [x Hx]; [lia|].
    exists (Z.to_nat i), (Z.to_nat j), x. rewrite !Z2Nat.id by done.
    by rewrite Hr.
  - intros (r & c & x & [= -> ->] & H). rewrite Nat2Z.id.
    destruct (m !! r) as [row|] eqn:Hr; [|done].
    apply lookup_lt_Some in Hr, H.
    repeat (apply andb_true_iff; split);
      first [apply Z.leb_le|apply Z.ltb_lt]; lia.
Qed.

Lemma in_bounds_get m a :
  in_bounds m a = true -> exists c, maze_get m (fst a) (snd a) = Some c.
Proof.
  intros H. apply in_bounds_nat in H as (r & c & x & -> & H).
  exists x. simpl. by rewrite maze_get_nat.
Qed.

Lemma cell_at_alter f m r c m' :
  maze_alter f m (Z.of_nat r) (Z.of_nat c) = Some m' ->
  forall r' c',
    cell_at m' r' c' =
    if decide (r' = r /\ c' = c) then f <$> cell_at m r c else cell_at m r' c'.
Proof.
  unfold maze_alter, py_alter. intros H r' c'.
  destruct (decide (r < length m)%nat) as [Hr|Hr].
  2:{ rewrite py_index_out in H by lia. done. }
  rewrite (py_index_of_nat _ _ Hr) in H.
  destruct (m !! r) as [row|] eqn:Hrow; [|done].
  destruct (decide (c < length row)%nat) as [Hc|Hc].
  2:{ rewrite py_index_out in H by lia. done. }
  rewrite (py_index_of_nat _ _ Hc) in H. injection H as <-.
  unfold cell_at.
  destruct (decide (r' = r)) as [->|Hne].
  - rewrite list_lookup_insert_eq by done. rewrite Hrow.
    destruct (decide (c' = c)) as [->|Hnc].
    + rewrite decide_True by done. apply list_lookup_alter_eq.
    + rewrite decide_False by tauto. by apply list_lookup_alter_ne.
  - rewrite decide_False by tauto. by rewrite list_lookup_insert_ne.
Qed.

Lemma maze_get_alter_other f m a x m' :
  in_bounds m a = true -> in_bounds m x = true ->
  maze_alter f m (fst a) (snd a) = Some m' -> x <> a ->
  maze_get m' (fst x) (snd x) = maze_get m (fst x) (snd x).
Proof.
  intros Ha Hx H Hne.
  apply in_bounds_nat in Ha as (r & c & ca & -> & Ha).
  apply in_bounds_nat in Hx as (r' & c' & cx & -> & Hx).
  simpl in *. rewrite !maze_get_nat, (cell_at_alter _ _ _ _ _ H).
  rewrite decide_False; [done|]. intros [-> ->]. done.
Qed.

Lemma maze_le_in_bounds m m' a : maze_le m m' -> in_bounds m' a = in_bounds m a.
Proof.
  intros Hle. unfold in_bounds.
  rewrite <- (Forall2_length _ _ _ Hle). f_equal.
  destruct (m !! Z.to_nat (fst a)) as [row|] eqn:Hrow.
  - destruct (Forall2_lookup_l _ _ _ _ _ Hle Hrow) as (row' & -> & Hrows).
    by rewrite <- (Forall2_length _ _ _ Hrows).
  - apply lookup_ge_None in Hrow. rewrite (Forall2_length _ _ _ Hle) in Hrow.
    apply lookup_ge_None in Hrow. by rewrite Hrow.
Qed.

Lemma maze_le_enclosed m m' : maze_le m m' -> enclosed m' = enclosed m.
Proof. intros Hle. unfold enclosed. by rewrite (maze_le_walls _ _ Hle). Qed.

Lemma is_visited_le m m' a :
  maze_le m m' -> is_visited m a = true -> is_visited m' a = true.
Proof.
  unfold is_visited. intros Hle H.
  destruct (maze_get m (fst a) (snd a)) as [c|] eqn:Hc; [|done].
  destruct (maze_le_get_l _ _ _ _ _ Hle Hc) as (c' & -> & (_ & _ & Hv)).
  by apply Hv.
Qed.

Lemma step_ok_le m m' a b : maze_le m m' -> step_ok m' a b = step_ok m a b.
Proof. intros Hle. unfold step_ok. by rewrite (passable_le _ _ _ _ Hle). Qed.

(** ** What enclosure gives *)

Lemma enclosed_spec m :
  enclosed m = true ->
  let h := length m in
  let w := length (hd [] m) in
  (forall r c, (r < h)%nat -> (c < w)%nat -> exists x, cell_at m r c = Some x) /\
  (forall r c x, cell_at m r c = Some x ->
     (r < h)%nat /\ (c < w)%nat /\ boundary_ok h w r c (wall_index x) = true).
Proof.
  intros H. unfold enclosed in H. cbv zeta in *. rewrite !length_map in H.
  assert (length (hd [] (map (map wall_index) m)) = length (hd [] m)) as Hw
    by (destruct m; [done|apply length_map]).
  rewrite Hw in H. clear Hw.
  set (h := length m) in *. set (w := length (hd [] m)) in *.
  apply andb_true_iff in H as [H Hb].
  apply andb_true_iff in H as [_ Hrows].
  assert (forall r row, m !! r = Some row -> length row = w) as Hlen.
  { intros r row Hrow. rewrite forallb_forall in Hrows.
    assert (In (map wall_index row) (map (map wall_index) m)) as Hin.
    { apply in_map. apply list_elem_of_In. by eapply list_elem_of_lookup_2. }
    apply Hrows in Hin. apply Nat.eqb_eq in Hin. by rewrite length_map in Hin. }
  split.
  - intros r c Hr Hc. unfold cell_at.
    destruct (lookup_lt_is_Some_2 m r Hr) as [row Hrow]. rewrite Hrow.
    apply lookup_lt_is_Some_2. by rewrite (Hlen _ _ Hrow).
  - intros r c x Hx. unfold cell_at in Hx.
    destruct (m !! r) as [row|] eqn:Hrow; [|done].
    assert (r < h)%nat as Hr by (by eapply lookup_lt_Some).
    assert (c < w)%nat as Hc
      by (rewrite <- (Hlen _ _ Hrow); by eapply lookup_lt_Some).
    split; [done|]. split; [done|].
    rewrite forallb_forall in Hb.
    assert (In r (seq 0 h)) as Hinr by (apply in_seq; lia).
    apply Hb in Hinr. rewrite forallb_forall in Hinr.
    assert (In c (seq 0 w)) as Hinc by (apply in_seq; lia).
    apply Hinr in Hinc.
    assert (entry (map (map wall_index) m) r c = wall_index x) as <-; [|done].
    unfold entry.
    rewrite (nth_lookup_Some (map (map wall_index) m) r [] (map wall_index row)).
    2:{ change (map (map wall_index) m) with (fmap (M:=list) (map wall_index) m).
        by rewrite list_lookup_fmap, Hrow. }
    apply nth_lookup_Some.
    change (map wall_index row) with (wall_index <$> row).
    by rewrite list_lookup_fmap, Hx.
Qed.

Lemma wall_toward_cases a b wi :
  wall_toward a b = Some wi ->
  (wi = wi_left /\ b = (fst a, snd a - 1)) \/
  (wi = wi_top /\ b = (fst a - 1, snd a)) \/
  (wi = wi_right /\ b = (fst a, snd a + 1)) \/
  (wi = wi_bottom /\ b = (fst a + 1, snd a)).
Proof.
  unfold wall_toward. destruct a as [r c], b as [r' c']. simpl.
  repeat match goal with
  | |- context [(?x =? ?y) && (?u =? ?v)] =>
      let E := fresh "E" in
      destruct ((x =? y) && (u =? v)) eqn:E;
      [apply andb_true_iff in E as [Hr Hc]; apply Z.eqb_eq in Hr, Hc;
       intros [= <-]|]
  end; [| | | |done].
  - left. split; [done|]. f_equal; lia.
  - right; left. split; [done|]. f_equal; lia.
  - right; right; left. split; [done|]. f_equal; lia.
  - right; right; right. split; [done|]. f_equal; lia.
Qed.

Lemma enclosed_step m a b :
  enclosed m = true -> in_bounds m a = true -> passable m a b = true ->
  in_bounds m b = true.
Proof.
  intros Henc Ha Hp. destruct (enclosed_spec m Henc) as (Hex & Hb).
  set (h := length m) in *. set (w := length (hd [] m)) in *.
  apply in_bounds_nat in Ha as (r & c & x & -> & Hx).
  destruct (Hb _ _ _ Hx) as (Hr & Hc & Hok).
  unfold passable in Hp. simpl in Hp. rewrite maze_get_nat, Hx in Hp.
  destruct (wall_toward _ b) as [wi|] eqn:Hwi; [|done].
  apply negb_true_iff in Hp. unfold boundary_ok in Hok.
  apply andb_true_iff in Hok as [Hok Hright].
  apply andb_true_iff in Hok as [Hok Hleft].
  apply andb_true_iff in Hok as [Htop Hbottom].
  apply in_bounds_nat.
  destruct (wall_toward_cases _ _ _ Hwi) as [[-> ->]|[[-> ->]|[[-> ->]|[-> ->]]]];
    simpl.
  - rewrite Hp in Hleft. destruct (Nat.eqb_spec c 0); [done|].
    destruct (Hex r (c - 1)%nat) as [y Hy]; [done|lia|].
    exists r, (c - 1)%nat, y. split; [f_equal; lia|done].
  - rewrite Hp in Htop. destruct (Nat.eqb_spec r 0); [done|].
    destruct (Hex (r - 1)%nat c) as [y Hy]; [lia|done|].
    exists (r - 1)%nat, c, y. split; [f_equal; lia|done].
  - rewrite Hp in Hright. destruct (Nat.eqb_spec c (w - 1)); [done|].
    destruct (Hex r (c + 1)%nat) as [y Hy]; [done|lia|].
    exists r, (c + 1)%nat, y. split; [f_equal; lia|done].
  - rewrite Hp in Hbottom. destruct (Nat.eqb_spec r (h - 1)); [done|].
    destruct (Hex (r + 1)%nat c) as [y Hy]; [lia|done|].
    exists (r + 1)%nat, c, y. split; [f_equal; lia|done].
Qed.

(** ** Results without exceptions *)

Lemma post_bind {St A B} (Q : B -> St -> Prop) (m : M St A) (f : A -> M St B) s :
  post (fun a s1 => post Q (f a s1)) (m s) -> post Q (bind m f s).
Proof. unfold bind, post. by destruct (m s) as [[a|e|] s1]. Qed.

Lemma post_mono {St A} (P Q : A -> St -> Prop) r :
  (forall a s, P a s -> Q a s) -> post P r -> post Q r.
Proof. intros H. destruct r as [[a|e|] s]; simpl; auto. Qed.

Lemma post_Ret {St A} (P : A -> St -> Prop) r a s :
  post P r -> r = (Ret a, s) -> P a s.
Proof. by intros H ->. Qed.

(** ** Visited marks under updates of one cell *)

Lemma is_visited_alter f m a x m' :
  (forall c, visited (f c) = visited c) ->
  in_bounds m a = true -> in_bounds m x = true ->
  maze_alter f m (fst a) (snd a) = Some m' ->
  is_visited m' x = is_visited m x.
Proof.
  intros Hf Ha Hx H. unfold is_visited.
  destruct (decide (x = a)) as [->|Hne].
  - destruct (in_bounds_get _ _ Ha) as [c Hc].
    by rewrite (maze_get_alter_same _ _ _ _ _ _ Hc H), Hc.
  - by rewrite (maze_get_alter_other _ _ _ _ _ Ha Hx H Hne).
Qed.

Lemma is_visited_other f m a x m' :
  in_bounds m a = true -> in_bounds m x = true ->
  maze_alter f m (fst a) (snd a) = Some m' -> x <> a ->
  is_visited m' x = is_visited m x.
Proof.
  intros Ha Hx H Hne. unfold is_visited.
  by rewrite (maze_get_alter_other _ _ _ _ _ Ha Hx H Hne).
Qed.

Lemma closed_after_refl m : closed_after m m.
Proof. intros x y _ H1 H2. congruence. Qed.

Lemma closed_after_trans m1 m2 m3 :
  maze_le m1 m2 -> maze_le m2 m3 ->
  closed_after m1 m2 -> closed_after m2 m3 -> closed_after m1 m3.
Proof.
  intros H12 H23 C12 C23 x y Hx Hn Hv Hs.
  destruct (is_visited m2 x) eqn:H2.
  - eapply is_visited_le; [exact H23|]. by eapply C12.
  - eapply C23; try done.
    + by rewrite (maze_le_in_bounds _ _ _ H12).
    + by rewrite (step_ok_le _ _ _ _ H12).
Qed.

Lemma in_removelast_or_last {A} (x : A) l :
  In x l -> In x (removelast l) \/ last l = Some x.
Proof.
  induction l as [|a l IH]; [done|]. intros [->|H].
  - destruct l; [by right|left; by left].
  - destruct l as [|b l]; [done|].
    destruct (IH H) as [H'|H']; [left; by right|by right].
Qed.

Lemma wall_toward_left a : wall_toward a (fst a, snd a - 1) = Some wi_left.
Proof.
  unfold wall_toward. simpl.
  replace (fst a - fst a) with 0 by lia.
  by replace (snd a - (snd a - 1)) with 1 by lia.
Qed.

Lemma wall_toward_up a : wall_toward a (fst a - 1, snd a) = Some wi_top.
Proof.
  unfold wall_toward. simpl.
  replace (fst a - (fst a - 1)) with 1 by lia.
  by replace (snd a - snd a) with 0 by lia.
Qed.

Lemma wall_toward_right a : wall_toward a (fst a, snd a + 1) = Some wi_right.
Proof.
  unfold wall_toward. simpl.
  replace (fst a - fst a) with 0 by lia.
  by replace (snd a - (snd a + 1)) with (-1) by lia.
Qed.

Lemma wall_toward_down a : wall_toward a (fst a + 1, snd a) = Some wi_bottom.
Proof.
  unfold wall_toward. simpl.
  replace (fst a - (fst a + 1)) with (-1) by lia.
  by replace (snd a - snd a) with 0 by lia.
Qed.

Lemma go_toward_left a : go_toward a (fst a, snd a - 1) = Some go_left.
Proof.
  unfold go_toward. simpl.
  replace (fst a - fst a) with 0 by lia.
  by replace (snd a - (snd a - 1)) with 1 by lia.
Qed.

Lemma go_toward_up a : go_toward a (fst a - 1, snd a) = Some go_up.
Proof.
  unfold go_toward. simpl.
  replace (fst a - (fst a - 1)) with 1 by lia.
  by replace (snd a - snd a) with 0 by lia.
Qed.

Lemma go_toward_right a : go_toward a (fst a, snd a + 1) = Some go_right.
Proof.
  unfold go_toward. simpl.
  replace (fst a - fst a) with 0 by lia.
  by replace (snd a - (snd a + 1)) with (-1) by lia.
Qed.

Lemma go_toward_down a : go_toward a (fst a + 1, snd a) = Some go_down.
Proof.
  unfold go_toward. simpl.
  replace (fst a - (fst a + 1)) with (-1) by lia.
  by replace (snd a - snd a) with 0 by lia.
Qed.

Lemma unflagged_app q x : unflagged q -> unflagged (q ++ [x]).
Proof. intros (h & t & -> & Hh). by exists h, (t ++ [x]). Qed.

Lemma path_first_unflagged q w :
  unflagged q ->
  exists h, path_first q w = (Ret h, w) /\ coord_eqb h flag = false.
Proof. intros (h & t & -> & Hh). by exists h. Qed.

(** ** One activation of [navigate_maze] on an enclosed maze *)

Section Activation.
Variables (m0 m1 : Maze) (L0 : list path) (from_cell to_cell : coord) (p : path).
Hypothesis Henc : enclosed m0 = true.
Hypothesis Hin : in_bounds m0 from_cell = true.
Hypothesis Hnew : is_visited m0 from_cell = false.
Hypothesis Hmark : maze_le m0 m1.
Hypothesis Hmarked : is_visited m1 from_cell = true.
Hypothesis Hneq : coord_eqb from_cell to_cell = false.
Hypothesis Hp : unflagged p.

Lemma try_move_stage rec wi go next tried q w :
  explores to_cell rec ->
  wall_toward from_cell next = Some wi ->
  go_toward from_cell next = Some go ->
  stage m0 m1 L0 from_cell to_cell p tried q w ->
  post (fun q' w' => stage m0 m1 L0 from_cell to_cell p (next :: tried) q' w')
       (try_move rec (fst from_cell) (snd from_cell) wi go next q w).
Proof.
  intros Hrec Hwi Hgo (Hle & Hfr & Hsp & new & HL & Hrecs & Hq).
  assert (maze_le m0 (maze w)) as Hle0 by (by eapply maze_le_trans).
  assert (in_bounds (maze w) from_cell = true) as Hinw
    by (by rewrite (maze_le_in_bounds _ _ _ Hle0)).
  assert (enclosed (maze w) = true) as Hencw
    by (by rewrite (maze_le_enclosed _ _ Hle0)).
  destruct (in_bounds_get _ _ Hinw) as [c Hc].
  unfold try_move. apply post_bind. unfold cell_ref. rewrite Hc. simpl.
  destruct Hq as [(qq & -> & Hroute)|(-> & Hclosed & Hcov & Htried)].
  { (* solved before this block *)
    assert (stage m0 m1 L0 from_cell to_cell p (next :: tried)
              (flag :: p ++ from_cell :: qq) w) as Hst.
    { split; [done|]. split; [done|]. split; [done|].
      exists new. repeat (split; [done|]). left. by exists qq. }
    destruct (truthy _); [exact Hst|]. cbn. exact Hst. }
  destruct (truthy (Z.land (wall_index c) wi)) eqn:Hwall.
  { (* a wall on this side *)
    simpl. split; [done|]. split; [done|]. split; [done|].
    exists new. repeat (split; [done|]). right. repeat (split; [done|]).
    intros y [<-|Hy] Hpass; [|by apply Htried].
    rewrite <- (passable_le _ _ _ _ Hle0) in Hpass. unfold passable in Hpass.
    by rewrite Hwi, Hc, Hwall in Hpass. }
  destruct (path_first_unflagged _ w (unflagged_app p from_cell Hp))
    as (h & Hpf & Hh).
  apply post_bind. rewrite Hpf. cbn [post]. rewrite Hh.
  apply post_bind. unfold cell_update.
  destruct (maze_alter_defined (assign_direction go) _ _ _ _ Hc) as [md Hmd].
  rewrite Hmd. cbn [post].
  set (wd := {| maze := md; all_paths := all_paths w;
                entered := entered w; calls := calls w |}).
  assert (maze_le (maze w) md) as Hled
    by (eapply maze_alter_le; [apply assign_direction_le|exact Hmd]).
  assert (maze_le m0 md) as Hle0d by (by eapply maze_le_trans).
  assert (passable m0 from_cell next = true) as Hopen.
  { rewrite <- (passable_le _ _ _ _ Hle0). unfold passable.
    by rewrite Hwi, Hc, Hwall. }
  assert (step_ok m0 from_cell next = true) as Hstep.
  { unfold step_ok. by rewrite (wall_toward_adjacent _ _ _ Hwi), Hopen. }
  assert (in_bounds m0 next = true) as Hnext by (by eapply enclosed_step).
  assert (is_visited md from_cell = true) as Hvd.
  { eapply is_visited_le; [|exact Hmarked]. by eapply maze_le_trans. }
  assert (forall x, in_bounds m0 x = true ->
            is_visited md x = is_visited (maze w) x) as Hsame.
  { intros x Hx.
    apply (is_visited_alter (assign_direction go) (maze w) from_cell x md);
      [done|done| |done].
    by rewrite (maze_le_in_bounds _ _ _ Hle0). }
  eapply post_mono; [|apply (Hrec next (p ++ [from_cell]) wd)].
  2:{ simpl. by rewrite (maze_le_enclosed _ _ Hle0d). }
  2:{ simpl. by rewrite (maze_le_in_bounds _ _ _ Hle0d). }
  2:{ by apply unflagged_app. }
  simpl. intros q' w' (Hle' & Hfr' & Hsp' & new' & HL' & Hrecs' & Hq').
  assert (maze_le m0 (maze w')) as Hle0' by (by eapply maze_le_trans).
  split; [eapply maze_le_trans; [exact Hle|]; by eapply maze_le_trans|].
  split.
  { intros x Hx Hvx.
    assert (x <> from_cell) as Hne by (intros ->; congruence).
    rewrite Hfr'.
    - rewrite <- (Hfr x Hx Hvx).
      eapply maze_get_alter_other; try done.
      by rewrite (maze_le_in_bounds _ _ _ Hle0).
    - by rewrite (maze_le_in_bounds _ _ _ Hle0d).
    - by eapply is_visited_le. }
  split.
  { intros x Hx Hn Hv.
    destruct (is_visited (maze w) x) eqn:Hvw; [by apply Hsp|].
    apply Hsp'; [|by rewrite Hsame|done].
    by rewrite (maze_le_in_bounds _ _ _ Hle0d). }
  exists (new ++ new'). split; [by rewrite HL', HL, app_assoc|].
  split.
  { apply Forall_app. split; [done|].
    eapply Forall_impl; [exact Hrecs'|].
    intros r (qq & -> & Hlinked). exists (next :: qq).
    split; [by rewrite <- app_assoc|].
    rewrite (linked_le _ _ _ Hle0d) in Hlinked.
    change (step_ok m0 from_cell next && linked m0 (next :: qq) = true).
    by rewrite Hstep, Hlinked. }
  destruct Hq' as [(qq & -> & Hlinked & Hlast & Hnodup & Hunv & Hpoint)
                  |(-> & Hvnext & Hclosed' & Hcov')].
  - left. exists (next :: qq). split; [by rewrite <- app_assoc|].
    rewrite (linked_le _ _ _ Hle0d) in Hlinked.
    split; [|split; [|split; [|split]]].
    + change (step_ok m0 from_cell next && linked m0 (next :: qq) = true).
      by rewrite Hstep, Hlinked.
    + exact Hlast.
    + constructor; [|done]. intros Hinq.
      destruct (in_removelast_or_last _ _ Hinq) as [Hr|Hl].
      * apply Hunv in Hr. congruence.
      * rewrite Hlast in Hl. injection Hl as ->.
        assert (coord_eqb from_cell from_cell = true) by (by apply coord_eqb_eq).
        congruence.
    + intros x Hx.
      change (In x (from_cell :: removelast (next :: qq))) in Hx.
      destruct Hx as [<-|Hx]; [done|].
      apply Hunv in Hx. destruct (is_visited m0 x) eqn:Hv0; [|done].
      by rewrite (is_visited_le _ _ _ Hle0d Hv0) in Hx.
    + split; [|exact Hpoint].
      rewrite (Hfr' from_cell).
      * rewrite (maze_get_alter_same _ _ _ _ _ _ Hc Hmd). by eexists.
      * by rewrite (maze_le_in_bounds _ _ _ Hle0d).
      * exact Hvd.
  - right. split; [done|]. split; [|split].
    + eapply closed_after_trans; [exact Hle| |exact Hclosed|].
      { by eapply maze_le_trans. }
      eapply closed_after_trans; [exact Hled|exact Hle'| |exact Hclosed'].
      intros x y Hx Hn Hv. rewrite Hsame in Hv; [congruence|].
      by rewrite <- (maze_le_in_bounds _ _ _ Hle0).
    + intros x Hx Hn Hv.
      assert (in_bounds m0 x = true) as Hx0
        by (by rewrite <- (maze_le_in_bounds _ _ _ Hmark)).
      destruct (is_visited (maze w) x) eqn:Hvw.
      * destruct (Hcov x Hx Hn Hvw) as (r & Hr & Hxr).
        exists r. split; [apply in_or_app; by left|done].
      * destruct (Hcov' x) as (r & Hr & Hxr); try done.
        { by rewrite (maze_le_in_bounds _ _ _ Hle0d). }
        { by rewrite Hsame. }
        exists r. split; [apply in_or_app; by right|done].
    + intros y [<-|Hy] Hpass; [done|].
      eapply is_visited_le; [|by apply Htried].
      by eapply maze_le_trans.
Qed.
End Activation.

Lemma path_pop_app q x w : path_pop (q ++ [x]) w = (Ret q, w).
Proof.
  unfold path_pop. rewrite removelast_last. by destruct q.
Qed.

Lemma navigate_maze_explores fuel :
  forall to_cell, explores to_cell (fun n q => navigate_maze fuel n to_cell q).
Proof.
  induction fuel as [|fuel IH]; intros to_cell from_cell p w Henc Hin Hp; [done|].
  cbn [navigate_maze]. apply post_bind. unfold tick_call at 1. cbn [post].
  set (w1 := {| maze := maze w; all_paths := all_paths w;
                entered := entered w; calls := S (calls w) |}).
  destruct (coord_eqb from_cell to_cell) eqn:Heq.
  { apply coord_eqb_eq in Heq as <-. cbn.
    split; [apply maze_le_refl|]. split; [by intros x _ _|].
    split; [intros x _ H1 H2; cbn in H2; congruence|].
    exists []. split; [by rewrite app_nil_r|]. split; [constructor|].
    left. exists []. split; [done|].
    repeat split; try done.
    constructor; [by intros []|constructor]. }
  destruct (in_bounds_get _ _ Hin) as [c Hc].
  assert (maze_get (maze w1) (fst from_cell) (snd from_cell) = Some c) as Hc1
    by done.
  apply post_bind. unfold cell_ref at 1. rewrite Hc1. cbn [post].
  destruct (visited c) eqn:Hvis.
  { cbn. split; [apply maze_le_refl|]. split; [by intros x _ _|].
    split; [intros x _ H1 H2; cbn in H2; congruence|].
    exists []. split; [by rewrite app_nil_r|]. split; [constructor|].
    right. split; [done|]. split; [unfold is_visited; by rewrite Hc1|].
    split; [apply closed_after_refl|]. intros x _ H1 H2. cbn in H2. congruence. }
  destruct (path_first_unflagged p w1 Hp) as (h & Hpf & Hh).
  apply post_bind. rewrite Hpf. cbn [post]. rewrite Hh.
  destruct (maze_alter_defined mark_visited _ _ _ _ Hc) as [m1 Hm1].
  apply post_bind. unfold cell_update at 1. cbn [maze w1]. rewrite Hm1.
  cbn [post]. apply post_bind. unfold tick_entered at 1. cbn [post].
  cbn [maze all_paths entered calls].
  set (w3 := {| maze := m1; all_paths := all_paths w;
                entered := S (entered w); calls := S (calls w) |}).
  assert (is_visited (maze w) from_cell = false) as Hnew
    by (unfold is_visited; by rewrite Hc).
  assert (maze_le (maze w) m1) as Hmark
    by (eapply maze_alter_le; [apply mark_visited_le|exact Hm1]).
  assert (is_visited m1 from_cell = true) as Hmarked.
  { unfold is_visited. by rewrite (maze_get_alter_same _ _ _ _ _ _ Hc Hm1). }
  assert (forall x, in_bounds (maze w) x = true -> x <> from_cell ->
            maze_get m1 (fst x) (snd x) = maze_get (maze w) (fst x) (snd x))
    as Hother.
  { intros x Hx Hne.
    exact (maze_get_alter_other mark_visited (maze w) from_cell x m1
             Hin Hx Hm1 Hne). }
  assert (stage (maze w) m1 (all_paths w) from_cell to_cell p []
            (p ++ [from_cell]) w3) as Hst.
  { split; [apply maze_le_refl|]. split.
    { intros x Hx Hv. apply Hother; [done|]. intros ->. congruence. }
    split.
    { intros x Hx Hn Hv Hxt.
      assert (x <> from_cell) as Hne.
      { intros Hxf. assert (coord_eqb from_cell to_cell = true)
          by (apply coord_eqb_eq; congruence). congruence. }
      cbn in Hv. unfold is_visited in Hn, Hv.
      rewrite (Hother x Hx Hne) in Hv. congruence. }
    exists []. split; [by rewrite app_nil_r|]. split; [constructor|].
    right. split; [done|]. split; [apply closed_after_refl|].
    split; [|by intros y []]. intros x _ H1 H2. cbn in H2. congruence. }
  pose proof (fun wi go next tried q wa =>
    try_move_stage (maze w) m1 (all_paths w) from_cell to_cell p
      Henc Hin Hnew Hmark Hmarked Heq Hp
      (fun n q => navigate_maze fuel n to_cell q) wi go next tried q wa
      (IH to_cell)) as Hstage.
  apply post_bind. eapply post_mono;
    [|exact (Hstage _ _ _ _ _ _ (wall_toward_left _) (go_toward_left _) Hst)].
  clear Hst. intros q1 w4 Hst.
  apply post_bind. eapply post_mono;
    [|exact (Hstage _ _ _ _ _ _ (wall_toward_up _) (go_toward_up _) Hst)].
  clear Hst. intros q2 w5 Hst.
  apply post_bind. eapply post_mono;
    [|exact (Hstage _ _ _ _ _ _ (wall_toward_right _) (go_toward_right _) Hst)].
  clear Hst. intros q3 w6 Hst.
  apply post_bind. eapply post_mono;
    [|exact (Hstage _ _ _ _ _ _ (wall_toward_down _) (go_toward_down _) Hst)].
  clear Hst Hstage. intros q4 w7 (Hle & Hfr & Hsp & new & HL & Hrecs & Hq).
  assert (maze_le (maze w) (maze w7)) as Hle0 by (by eapply maze_le_trans).
  destruct Hq as [(qq & -> & Hroute)|(-> & Hclosed & Hcov & Htried)].
  { cbn. split; [done|]. split; [done|]. split; [done|].
    exists new. repeat (split; [done|]). left. by exists qq. }
  destruct (path_first_unflagged _ w7 (unflagged_app p from_cell Hp))
    as (h' & Hpf' & Hh').
  apply post_bind. rewrite Hpf'. cbn [post]. rewrite Hh'.
  apply post_bind. unfold append_all_paths at 1. cbn [post].
  rewrite path_pop_app. cbn [post].
  split; [done|]. split; [done|]. split; [done|].
  exists (new ++ [p ++ [from_cell]]). cbn [all_paths].
  split; [by rewrite HL, app_assoc|]. split.
  { apply Forall_app. split; [done|]. constructor; [|constructor].
    by exists []. }
  right. split; [done|]. cbn [maze].
  split; [exact (is_visited_le _ _ _ Hle Hmarked)|]. split.
  - intros x y Hx Hn Hv Hs.
    destruct (decide (x = from_cell)) as [->|Hne].
    + unfold step_ok in Hs. apply andb_true_iff in Hs as [_ Hpass].
      apply Htried; [|done].
      unfold passable in Hpass.
      destruct (wall_toward from_cell y) as [wi|] eqn:Hwi; [|done].
      destruct (wall_toward_cases _ _ _ Hwi)
        as [[_ ->]|[[_ ->]|[[_ ->]|[_ ->]]]]; simpl; tauto.
    + eapply Hclosed; [| |done|].
      * by rewrite (maze_le_in_bounds _ _ _ Hmark).
      * unfold is_visited in *. by rewrite Hother.
      * by rewrite (step_ok_le _ _ _ _ Hmark).
  - intros x Hx Hn Hv.
    destruct (decide (x = from_cell)) as [->|Hne].
    + exists (p ++ [from_cell]). split; apply in_or_app; right; by left.
    + destruct (Hcov x) as (r & Hr & Hxr); try done.
      * by rewrite (maze_le_in_bounds _ _ _ Hmark).
      * unfold is_visited in *. by rewrite Hother.
      * exists r. split; [apply in_or_app; by left|done].
Qed.

(** ** Complete runs *)

Lemma maze_get_In m row col x :
  maze_get m row col = Some x -> exists r, In r m /\ In x r.
Proof.
  unfold maze_get, py_get. intros H.
  destruct (py_index (length m) row) as [i|]; [|done].
  destruct (m !! i) as [r|] eqn:Hr; [|done].
  destruct (py_index (length r) col) as [j|]; [|done].
  exists r. split; apply list_elem_of_In; by eapply list_elem_of_lookup_2.
Qed.

Lemma fresh_unvisited m x : fresh m = true -> is_visited m x = false.
Proof.
  intros H. unfold is_visited.
  destruct (maze_get m (fst x) (snd x)) as [c|] eqn:Hc; [|done].
  apply maze_get_In in Hc as (r & Hr & Hcr).
  unfold fresh in H. rewrite forallb_forall in H. apply H in Hr.
  rewrite forallb_forall in Hr. apply Hr in Hcr. by apply negb_true_iff.
Qed.

Lemma run_navigate_explored a b m :
  enclosed m = true -> in_bounds m a = true ->
  exists p w',
    run_navigate a b m = (Ret (p, all_paths w'), maze w') /\
    explored m [] a b [a] p w'.
Proof.
  intros Henc Hin. unfold run_navigate.
  set (w0 := {| maze := m; all_paths := []; entered := 0; calls := 0 |}).
  assert (unflagged [a]) as Hun.
  { exists a, []. split; [done|]. by eapply in_bounds_not_flag. }
  pose proof (navigate_maze_explores (S (cell_count m)) b a [a] w0 Henc Hin Hun)
    as H.
  pose proof (navigate_maze_total (S (cell_count m)) a b [a] w0) as Htot.
  destruct (navigate_maze (S (cell_count m)) a b [a] w0) as [[p|e|] w'];
    simpl in H; [by exists p, w'|done|].
  exfalso. apply Htot; [|done]. simpl.
  pose proof (unvisited_le_cell_count m). lia.
Qed.

Lemma linked_in_bounds m q :
  enclosed m = true ->
  forall a, in_bounds m a = true -> linked m (a :: q) = true ->
  forall x, In x (a :: q) -> in_bounds m x = true.
Proof.
  intros Henc. induction q as [|b q IH]; intros a Ha Hl x Hx.
  - destruct Hx as [<-|[]]. done.
  - change (step_ok m a b && linked m (b :: q) = true) in Hl.
    apply andb_true_iff in Hl as [Hs Hl].
    destruct Hx as [<-|Hx]; [done|].
    apply (IH b); [|done|done].
    unfold step_ok in Hs. apply andb_true_iff in Hs as [_ Hp].
    by eapply enclosed_step.
Qed.

Lemma closed_reach m m' q :
  enclosed m = true -> closed_after m m' ->
  forall a, in_bounds m a = true -> is_visited m' a = true ->
  linked m (a :: q) = true ->
  (forall y, In y (a :: q) -> is_visited m y = false) ->
  forall x, In x (a :: q) -> is_visited m' x = true.
Proof.
  intros Henc Hclosed. induction q as [|b q IH]; intros a Ha Hv Hl Hfresh x Hx.
  - destruct Hx as [<-|[]]. done.
  - change (step_ok m a b && linked m (b :: q) = true) in Hl.
    apply andb_true_iff in Hl as [Hs Hl].
    destruct Hx as [<-|Hx]; [done|].
    apply (IH b); [| |done| |done].
    + unfold step_ok in Hs. apply andb_true_iff in Hs as [_ Hp].
      by eapply enclosed_step.
    + apply (Hclosed a b); [done| |done|done]. apply Hfresh. by left.
    + intros y Hy. apply Hfresh. by right.
Qed.

Lemma linked_prefix m q :
  forall a, linked m (a :: q) = true ->
  forall x, In x (a :: q) -> reachable m a x.
Proof.
  induction q as [|b q IH]; intros a Hl x Hx.
  - destruct Hx as [<-|[]]. by exists [].
  - change (step_ok m a b && linked m (b :: q) = true) in Hl.
    apply andb_true_iff in Hl as [Hs Hl].
    destruct Hx as [<-|Hx]; [by exists []|].
    destruct (IH b Hl x Hx) as (q' & Hq' & Hlast).
    exists (b :: q'). split; [|done].
    change (step_ok m a b && linked m (b :: q') = true).
    by rewrite Hs, Hq'.
Qed.

Lemma reachable_in_bounds m a b :
  enclosed m = true -> in_bounds m a = true -> reachable m a b ->
  in_bounds m b = true.
Proof.
  intros Henc Ha (q & Hl & Hlast).
  apply (linked_in_bounds m q Henc a Ha Hl).
  apply list_elem_of_In. by apply last_Some_elem_of.
Qed.

(** The forward half of [find_paths] on a fresh enclosed maze. *)
Lemma forward_run m s f :
  enclosed m = true -> fresh m = true -> in_bounds m s = true ->
  exists p w1,
    run_navigate s f m = (Ret (p, all_paths w1), maze w1) /\
    maze_le m (maze w1) /\
    ((exists q, p = flag :: s :: s :: q /\ route_of m (maze w1) s f q)
     \/
     (p = [s] /\ ~ reachable m s f /\
      (forall x, (exists r, In r (all_paths w1) /\ In x r) <-> reachable m s x) /\
      (forall x, in_bounds m x = true -> is_visited (maze w1) x = true ->
                 reachable m s x))).
Proof.
  intros Henc Hfresh Hs.
  destruct (run_navigate_explored s f m Henc Hs)
    as (p & w1 & Hrun & Hle & _ & Hsp & new & HL & Hrecs & Hq).
  exists p, w1. split; [done|]. split; [done|].
  destruct Hq as [(q & -> & Hroute)|(-> & Hv & Hclosed & Hcov)]; [left; eauto|].
  right. split; [done|].
  assert (forall x, reachable m s x -> is_visited (maze w1) x = true) as Hreach.
  { intros x (q & Hl & Hlast).
    apply (closed_reach m (maze w1) q Henc Hclosed s Hs Hv Hl
             (fun y _ => fresh_unvisited m y Hfresh)).
    apply list_elem_of_In. by apply last_Some_elem_of. }
  assert (forall x, (exists r, In r new /\ In x r) -> reachable m s x) as Hrec.
  { intros x (r & Hr & Hx). rewrite Forall_forall in Hrecs.
    apply list_elem_of_In in Hr.
    destruct (Hrecs r Hr) as (q & -> & Hl).
    apply in_app_or in Hx as [[<-|[]]|Hx]; [by exists []|].
    by eapply linked_prefix. }
  split; [|split].
  3:{ intros x Hx Hv'. apply Hrec. apply Hcov; [done| |done].
      by apply fresh_unvisited. }
  - intros Hr.
    apply (Hsp f); [by eapply reachable_in_bounds|by apply fresh_unvisited| |done].
    by apply Hreach.
  - intros x. simpl in HL. rewrite HL. split; [apply Hrec|].
    intros Hr. apply Hcov; [by eapply reachable_in_bounds| |by apply Hreach].
    by apply fresh_unvisited.
Qed.

(** ** Main statements about complete searches *)

Lemma length_gt_1 {A} (a b : A) l : (1 <? Z.of_nat (length (a :: b :: l))) = true.
Proof. apply Z.ltb_lt. simpl length. lia. Qed.

(** The run of [find_paths] on a fresh enclosed maze. *)
Lemma find_paths_run m s f :
  enclosed m = true -> fresh m = true ->
  in_bounds m s = true -> in_bounds m f = true ->
  exists res m',
    find_paths s f m = (Ret res, m') /\
    ((exists p, res = FoundPath p) <-> reachable m s f).
Proof.
  intros Henc Hfresh Hs Hf. rewrite find_paths_unfold.
  destruct (forward_run m s f Henc Hfresh Hs)
    as (p & w1 & -> & Hle & [(q & -> & Hl & Hlast & _)|(-> & Hno & _)]).
  - rewrite length_gt_1. eexists _, _. split; [done|].
    split; [intros _; by exists q|by eexists].
  - change (1 <? Z.of_nat (length [s])) with false. cbv iota.
    destruct (run_navigate_explored f s (maze w1)) as (p2 & w2 & -> & _).
    { by rewrite (maze_le_enclosed _ _ Hle). }
    { by rewrite (maze_le_in_bounds _ _ _ Hle). }
    eexists _, _. split; [done|]. split; [by intros [p [=]]|done].
Qed.

(** X5.  Whatever [find_paths] returns on a fresh enclosed maze, with
    start and finish on the grid, is the right answer: the result is a
    solved path exactly when some route of open unit steps leads from
    start to finish, and it is the pair of dead-end lists exactly when
    none does. *)
Theorem find_paths_decides_reachability m s f res m' :
  enclosed m = true -> fresh m = true ->
  in_bounds m s = true -> in_bounds m f = true ->
  find_paths s f m = (Ret res, m') ->
  ((exists p, res = FoundPath p) <-> reachable m s f) /\
  ((exists from_start from_finish, res = DeadEnds from_start from_finish)
   <-> ~ reachable m s f).
Proof.
  intros Henc Hfresh Hs Hf H.
  destruct (find_paths_run m s f Henc Hfresh Hs Hf) as (res0 & m0 & H0 & Hiff).
  rewrite H in H0. injection H0 as <- <-. split; [done|].
  destruct res as [p|fs ff].
  - split; [by intros (? & ? & [=])|].
    intros Hno. exfalso. apply Hno, Hiff. by exists p.
  - split; [|by eauto]. intros _ Hr. apply Hiff in Hr as [p [=]].
Qed.

Lemma find_paths_decides_reachability_witness :
  ((exists p, DeadEnds [[(0, 0); (0, 0)]] [[(0, 1); (0, 1)]] = FoundPath p)
   <-> reachable walled_pair (0, 0) (0, 1)) /\
  ((exists from_start from_finish,
      DeadEnds [[(0, 0); (0, 0)]] [[(0, 1); (0, 1)]]
      = DeadEnds from_start from_finish)
   <-> ~ reachable walled_pair (0, 0) (0, 1)).
Proof.
  apply (find_paths_decides_reachability walled_pair (0, 0) (0, 1)
           (DeadEnds [[(0, 0); (0, 0)]] [[(0, 1); (0, 1)]])
           (snd (find_paths (0, 0) (0, 1) walled_pair)));
    reflexivity.
Defined.

(** X6.  A solved path of [find_paths] on an enclosed maze is the flag,
    the start cell twice, and then a route that stays on the grid and
    never visits a cell twice; in the maze left behind, every cell of
    the route but the last holds in [direction] the step to its
    successor. *)
Theorem solved_route_is_simple m s f p m' :
  enclosed m = true -> in_bounds m s = true ->
  find_paths s f m = (Ret (FoundPath p), m') ->
  exists q,
    p = flag :: s :: s :: q /\
    List.NoDup (s :: q) /\
    (forall x, In x (s :: q) -> in_bounds m x = true) /\
    pointing m' (s :: q).
Proof.
  intros Henc Hs H. rewrite find_paths_unfold in H.
  destruct (run_navigate_explored s f m Henc Hs)
    as (p1 & w1 & Hrun & Hle & _ & _ & new & _ & _ & Hq).
  rewrite Hrun in H.
  destruct Hq as [(q & -> & Hl & Hlast & Hnd & _ & Hpt)|(-> & _)].
  - cbn [app] in H. rewrite (length_gt_1 flag s) in H. injection H as <- <-.
    exists q. repeat split; try done.
    by apply linked_in_bounds.
  - change (1 <? Z.of_nat (length [s])) with false in H. cbv iota in H.
    by destruct (run_navigate f s (maze w1)) as [[[? ?]|?|] ?].
Qed.

Lemma solved_route_is_simple_witness :
  exists q,
    [flag; (0, 0); (0, 0); (0, 1)] = flag :: (0, 0) :: (0, 0) :: q /\
    List.NoDup ((0, 0) :: q) /\
    (forall x, In x ((0, 0) :: q) -> in_bounds open_pair x = true) /\
    pointing (snd (find_paths (0, 0) (0, 1) open_pair)) ((0, 0) :: q).
Proof.
  apply (solved_route_is_simple open_pair (0, 0) (0, 1)); reflexivity.
Defined.

(** X7.  When [find_paths] on a fresh enclosed maze reports dead ends,
    the cells named in [from_start] are exactly the cells reachable
    from the start cell, and every cell named in [from_finish] is
    reachable from the finish cell. *)
Theorem dead_ends_cover_reachable m s f from_start from_finish m' :
  enclosed m = true -> fresh m = true ->
  in_bounds m s = true -> in_bounds m f = true ->
  find_paths s f m = (Ret (DeadEnds from_start from_finish), m') ->
  (forall x, (exists r, In r from_start /\ In x r) <-> reachable m s x) /\
  (forall x r, In r from_finish -> In x r -> reachable m f x).
Proof.
  intros Henc Hfresh Hs Hf H. rewrite find_paths_unfold in H.
  destruct (forward_run m s f Henc Hfresh Hs)
    as (p & w1 & Hrun & Hle & [(q & -> & _)|(-> & _ & Hcover & _)]);
    rewrite Hrun in H.
  { by rewrite length_gt_1 in H. }
  change (1 <? Z.of_nat (length [s])) with false in H. cbv iota in H.
  destruct (run_navigate_explored f s (maze w1))
    as (p2 & w2 & Hrun2 & _ & _ & _ & new & HL & Hrecs & _).
  { by rewrite (maze_le_enclosed _ _ Hle). }
  { by rewrite (maze_le_in_bounds _ _ _ Hle). }
  rewrite Hrun2 in H. injection H as <- <- <-. split; [done|].
  intros x r Hr Hx. simpl in HL. rewrite HL in Hr.
  rewrite Forall_forall in Hrecs. apply list_elem_of_In in Hr.
  destruct (Hrecs r Hr) as (q & -> & Hl).
  rewrite (linked_le _ _ _ Hle) in Hl.
  apply in_app_or in Hx as [[<-|[]]|Hx]; [by exists []|].
  by eapply linked_prefix.
Qed.

Lemma dead_ends_cover_reachable_witness :
  (forall x, (exists r, In r [[(0, 0); (0, 0)]] /\ In x r)
             <-> reachable walled_pair (0, 0) x) /\
  (forall x r, In r [[(0, 1); (0, 1)]] -> In x r -> reachable walled_pair (0, 1) x).
Proof.
  apply (dead_ends_cover_reachable walled_pair (0, 0) (0, 1)
           [[(0, 0); (0, 0)]] [[(0, 1); (0, 1)]]
           (snd (find_paths (0, 0) (0, 1) walled_pair)));
    reflexivity.
Defined.

(** ** Two-way walls *)

Lemma two_way_spec m r c x :
  enclosed m = true -> two_way m = true -> cell_at m r c = Some x ->
  (forall y, cell_at m r (S c) = Some y ->
             has_wall x wi_right = has_wall y wi_left) /\
  (forall y, cell_at m (S r) c = Some y ->
             has_wall x wi_bottom = has_wall y wi_top).
Proof.
  intros Henc H Hx. destruct (enclosed_spec m Henc) as (_ & Hb).
  destruct (Hb _ _ _ Hx) as (Hr & Hc & _).
  unfold two_way in H. rewrite forallb_forall in H.
  assert (In r (seq 0 (length m))) as Hinr by (apply in_seq; lia).
  apply H in Hinr. rewrite forallb_forall in Hinr.
  assert (In c (seq 0 (length (hd [] m)))) as Hinc by (apply in_seq; lia).
  apply Hinr in Hinc. rewrite Hx in Hinc.
  apply andb_true_iff in Hinc as [H1 H2]. split; intros y Hy.
  - rewrite Hy in H1. by apply eqb_prop.
  - rewrite Hy in H2. by apply eqb_prop.
Qed.

Ltac shifts :=
  cbn [fst snd];
  repeat match goal with
  | |- context [?x =? ?y] => destruct (Z.eqb_spec x y); try lia
  end; cbn [andb].

Lemma two_way_passable m a b :
  enclosed m = true -> two_way m = true -> in_bounds m a = true ->
  passable m a b = true -> passable m b a = true.
Proof.
  intros Henc Htw Ha Hp.
  pose proof (enclosed_step m a b Henc Ha Hp) as Hb.
  apply in_bounds_nat in Ha as (r & c & x & -> & Hx).
  apply in_bounds_nat in Hb as (r' & c' & y & -> & Hy).
  unfold passable in *. cbn [fst snd] in *.
  rewrite maze_get_nat, Hx in Hp. rewrite maze_get_nat, Hy.
  destruct (wall_toward _ _) as [wi|] eqn:Hwi in Hp; [|done].
  apply negb_true_iff in Hp.
  destruct (two_way_spec m _ _ _ Henc Htw Hx) as (Hxr & Hxb).
  destruct (two_way_spec m _ _ _ Henc Htw Hy) as (Hyr & Hyb).
  destruct (wall_toward_cases _ _ _ Hwi)
    as [[-> Hb]|[[-> Hb]|[[-> Hb]|[-> Hb]]]];
    cbn [fst snd] in Hb; injection Hb as Hr' Hc'.
  - assert (r' = r /\ S c' = c) as [-> <-] by lia.
    assert (wall_toward (Z.of_nat r, Z.of_nat c') (Z.of_nat r, Z.of_nat (S c'))
            = Some wi_right) as -> by (unfold wall_toward; shifts; done).
    apply negb_true_iff. specialize (Hyr x Hx). unfold has_wall in Hyr. congruence.
  - assert (S r' = r /\ c' = c) as [<- ->] by lia.
    assert (wall_toward (Z.of_nat r', Z.of_nat c) (Z.of_nat (S r'), Z.of_nat c)
            = Some wi_bottom) as -> by (unfold wall_toward; shifts; done).
    apply negb_true_iff. specialize (Hyb x Hx). unfold has_wall in Hyb. congruence.
  - assert (r' = r /\ c' = S c) as [-> ->] by lia.
    assert (wall_toward (Z.of_nat r, Z.of_nat (S c)) (Z.of_nat r, Z.of_nat c)
            = Some wi_left) as -> by (unfold wall_toward; shifts; done).
    apply negb_true_iff. specialize (Hxr y Hy). unfold has_wall in Hxr. congruence.
  - assert (r' = S r /\ c' = c) as [-> ->] by lia.
    assert (wall_toward (Z.of_nat (S r), Z.of_nat c) (Z.of_nat r, Z.of_nat c)
            = Some wi_top) as -> by (unfold wall_toward; shifts; done).
    apply negb_true_iff. specialize (Hxb y Hy). unfold has_wall in Hxb. congruence.
Qed.

Lemma adjacent_sym a b : adjacent a b = adjacent b a.
Proof.
  unfold adjacent, calc_distance_sq. f_equal.
  replace (fst b - fst a) with (- (fst a - fst b)) by lia.
  replace (snd b - snd a) with (- (snd a - snd b)) by lia.
  by rewrite !Z.pow_2_r, !Z.mul_opp_opp.
Qed.

Lemma reachable_refl m a : reachable m a a.
Proof. by exists []. Qed.

Lemma reachable_step m a b c :
  step_ok m a b = true -> reachable m b c -> reachable m a c.
Proof.
  intros Hs (q & Hl & Hlast). exists (b :: q). split; [|done].
  change (step_ok m a b && linked m (b :: q) = true). by rewrite Hs, Hl.
Qed.

Lemma reachable_trans m a b c :
  reachable m a b -> reachable m b c -> reachable m a c.
Proof.
  intros (q & Hl & Hlast). revert a Hl Hlast.
  induction q as [|x q IH]; intros a Hl Hlast Hbc.
  - injection Hlast as ->. done.
  - change (step_ok m a x && linked m (x :: q) = true) in Hl.
    apply andb_true_iff in Hl as [Hs Hl].
    apply (reachable_step m a x c Hs). by apply IH.
Qed.

Lemma reachable_sym m a b :
  enclosed m = true -> two_way m = true -> in_bounds m a = true ->
  reachable m a b -> reachable m b a.
Proof.
  intros Henc Htw Ha (q & Hl & Hlast). revert a Ha Hl Hlast.
  induction q as [|x q IH]; intros a Ha Hl Hlast.
  - injection Hlast as ->. apply reachable_refl.
  - change (step_ok m a x && linked m (x :: q) = true) in Hl.
    apply andb_true_iff in Hl as [Hs Hl].
    unfold step_ok in Hs. apply andb_true_iff in Hs as [Hadj Hp].
    assert (in_bounds m x = true) as Hx by (by eapply enclosed_step).
    apply (reachable_trans m b x a); [by apply IH|].
    apply (reachable_step m x a a); [|apply reachable_refl].
    unfold step_ok. rewrite adjacent_sym, Hadj.
    by rewrite (two_way_passable m a x).
Qed.

(** The reverse half of [find_paths] after a failed forward search on
    a fresh enclosed maze with two-way walls. *)
Lemma reverse_run m m1 s f :
  enclosed m = true -> two_way m = true -> maze_le m m1 ->
  in_bounds m s = true -> in_bounds m f = true ->
  ~ reachable m s f ->
  (forall x, in_bounds m x = true -> is_visited m1 x = true -> reachable m s x) ->
  exists p w2,
    run_navigate f s m1 = (Ret (p, all_paths w2), maze w2) /\
    forall x, (exists r, In r (all_paths w2) /\ In x r) <-> reachable m f x.
Proof.
  intros Henc Htw Hle Hs Hf Hno Hvis.
  assert (enclosed m1 = true) as Henc1 by (by rewrite (maze_le_enclosed _ _ Hle)).
  assert (in_bounds m1 f = true) as Hf1
    by (by rewrite (maze_le_in_bounds _ _ _ Hle)).
  destruct (run_navigate_explored f s m1 Henc1 Hf1)
    as (p & w2 & Hrun & Hle2 & _ & _ & new & HL & Hrecs & Hq).
  exists p, w2. split; [done|].
  assert (forall x, reachable m f x -> is_visited m1 x = false) as Hunv.
  { intros x Hx. destruct (is_visited m1 x) eqn:Hv; [|done].
    exfalso. apply Hno. apply (reachable_trans m s x f).
    - apply Hvis; [by eapply reachable_in_bounds|done].
    - apply reachable_sym; try done. }
  assert (forall x, (exists r, In r new /\ In x r) -> reachable m f x) as Hrec.
  { intros x (r & Hr & Hx). rewrite Forall_forall in Hrecs.
    apply list_elem_of_In in Hr.
    destruct (Hrecs r Hr) as (q & -> & Hl).
    rewrite (linked_le _ _ _ Hle) in Hl.
    apply in_app_or in Hx as [[<-|[]]|Hx]; [apply reachable_refl|].
    by eapply linked_prefix. }
  simpl in HL. rewrite HL.
  destruct Hq as [(q & _ & Hl & Hlast & _)|(_ & Hv & Hclosed & Hcov)].
  { exfalso. apply Hno. apply reachable_sym; try done.
    exists q. by rewrite <- (linked_le _ _ _ Hle). }
  intros x. split; [apply Hrec|]. intros (q & Hl & Hlast).
  assert (in_bounds m x = true) as Hx
    by (eapply reachable_in_bounds; [done|exact Hf|by exists q]).
  apply Hcov.
  - by rewrite (maze_le_in_bounds _ _ _ Hle).
  - apply Hunv. by exists q.
  - apply (closed_reach m1 (maze w2) q Henc1 Hclosed f Hf1 Hv).
    + by rewrite (linked_le _ _ _ Hle).
    + intros y Hy. apply Hunv. by eapply linked_prefix.
    + apply list_elem_of_In. by apply last_Some_elem_of.
Qed.

(** ** Mazes related cell by cell *)

Lemma forallb_pointwise {A} (f g : A -> bool) l :
  (forall a, f a = g a) -> forallb f l = forallb g l.
Proof. intros H. induction l as [|a l IH]; [done|]. simpl. by rewrite H, IH. Qed.

Section MazeRel.
Variable R : Cell -> Cell -> Prop.

Lemma maze_rel_get_l m m' row col c :
  maze_rel R m m' -> maze_get m row col = Some c ->
  exists c', maze_get m' row col = Some c' /\ R c c'.
Proof.
  intros Hle. unfold maze_get, py_get.
  rewrite <- (Forall2_length _ _ _ Hle).
  destruct (py_index (length m) row) as [i|]; [|discriminate].
  destruct (m !! i) as [r|] eqn:Hr; [|discriminate].
  destruct (Forall2_lookup_l _ _ _ _ _ Hle Hr) as (r' & Hr' & Hrr).
  rewrite Hr'. rewrite <- (Forall2_length _ _ _ Hrr).
  destruct (py_index (length r) col) as [k|]; [|discriminate].
  intros Hc. destruct (Forall2_lookup_l _ _ _ _ _ Hrr Hc) as (c' & Hc' & Hcc).
  eauto.
Qed.

Lemma maze_rel_get_r m m' row col c' :
  maze_rel R m m' -> maze_get m' row col = Some c' ->
  exists c, maze_get m row col = Some c /\ R c c'.
Proof.
  intros Hle. unfold maze_get, py_get.
  rewrite <- (Forall2_length _ _ _ Hle).
  destruct (py_index (length m) row) as [i|]; [|discriminate].
  destruct (m' !! i) as [r'|] eqn:Hr'; [|discriminate].
  destruct (Forall2_lookup_r _ _ _ _ _ Hle Hr') as (r & Hr & Hrr).
  rewrite Hr. rewrite <- (Forall2_length _ _ _ Hrr).
  destruct (py_index (length r) col) as [k|]; [|discriminate].
  intros Hc'. destruct (Forall2_lookup_r _ _ _ _ _ Hrr Hc') as (c & Hc & Hcc).
  eauto.
Qed.

Lemma maze_rel_in_bounds m m' a : maze_rel R m m' -> in_bounds m' a = in_bounds m a.
Proof.
  intros Hle. unfold in_bounds.
  rewrite <- (Forall2_length _ _ _ Hle). f_equal.
  destruct (m !! Z.to_nat (fst a)) as [row|] eqn:Hrow.
  - destruct (Forall2_lookup_l _ _ _ _ _ Hle Hrow) as (row' & -> & Hrows).
    by rewrite <- (Forall2_length _ _ _ Hrows).
  - apply lookup_ge_None in Hrow. rewrite (Forall2_length _ _ _ Hle) in Hrow.
    apply lookup_ge_None in Hrow. by rewrite Hrow.
Qed.

Lemma maze_rel_cell_at m m' r c :
  maze_rel R m m' ->
  match cell_at m r c, cell_at m' r c with
  | Some x, Some x' => R x x'
  | None, None => True
  | _, _ => False
  end.
Proof.
  intros Hle.
  rewrite <- !maze_get_nat.
  destruct (maze_get m (Z.of_nat r) (Z.of_nat c)) as [x|] eqn:Hx.
  - by destruct (maze_rel_get_l _ _ _ _ _ Hle Hx) as (x' & -> & HR).
  - destruct (maze_get m' (Z.of_nat r) (Z.of_nat c)) as [x'|] eqn:Hx'; [|done].
    destruct (maze_rel_get_r _ _ _ _ _ Hle Hx') as (x & Hx2 & _). congruence.
Qed.

Lemma maze_rel_refl m : (forall c, R c c) -> maze_rel R m m.
Proof.
  intros HR. induction m as [|r m IH]; constructor; [|done].
  induction r; constructor; auto.
Qed.

Lemma maze_alter_rel f m row col m' :
  (forall c, R c c) -> (forall c, R c (f c)) ->
  maze_alter f m row col = Some m' -> maze_rel R m m'.
Proof.
  intros Hrefl Hf. unfold maze_alter, py_alter.
  destruct (py_index (length m) row) as [i|]; [|discriminate].
  destruct (m !! i) as [r|] eqn:Hr; [|discriminate].
  destruct (py_index (length r) col) as [k|]; [|discriminate].
  intros [= <-].
  assert (forall l : list Cell, Forall2 R l l) as Hrow
    by (induction l; constructor; auto).
  rewrite <- (list_insert_id m i r Hr) at 1.
  apply Forall2_insert; [by apply maze_rel_refl|].
  apply Forall2_lookup. intros j.
  destruct (decide (j = k)) as [->|Hne].
  - rewrite list_lookup_alter_eq. destruct (r !! k); constructor. apply Hf.
  - rewrite list_lookup_alter_ne by done. destruct (r !! j); constructor.
    apply Hrefl.
Qed.

Hypothesis R_walls : forall c c', R c c' -> wall_index c' = wall_index c.

Lemma maze_rel_walls m m' :
  maze_rel R m m' -> map (map wall_index) m' = map (map wall_index) m.
Proof.
  induction 1 as [|r r' m m' Hr _ IH]; [done|].
  simpl. f_equal; [|exact IH].
  induction Hr as [|c c' r r' Hc _ IHr]; [done|].
  simpl. f_equal; [by apply R_walls|done].
Qed.

Lemma maze_rel_enclosed m m' : maze_rel R m m' -> enclosed m' = enclosed m.
Proof. intros Hle. unfold enclosed. by rewrite (maze_rel_walls _ _ Hle). Qed.

Lemma maze_rel_passable m m' a b :
  maze_rel R m m' -> passable m' a b = passable m a b.
Proof.
  intros Hle. unfold passable. destruct (wall_toward a b) as [wi|]; [|done].
  destruct (maze_get m (fst a) (snd a)) as [c|] eqn:Hc.
  - destruct (maze_rel_get_l _ _ _ _ _ Hle Hc) as (c' & -> & HR).
    by rewrite (R_walls _ _ HR).
  - destruct (maze_get m' (fst a) (snd a)) as [c'|] eqn:Hc'; [|done].
    destruct (maze_rel_get_r _ _ _ _ _ Hle Hc') as (c & Hc2 & _). congruence.
Qed.

Lemma maze_rel_linked m m' q : maze_rel R m m' -> linked m' q = linked m q.
Proof.
  intros Hle. induction q as [|a q IH]; [done|].
  simpl. destruct q as [|b q]; [done|].
  unfold step_ok. by rewrite IH, (maze_rel_passable _ _ _ _ Hle).
Qed.

Lemma maze_rel_reachable m m' a b :
  maze_rel R m m' -> reachable m' a b <-> reachable m a b.
Proof.
  intros Hle. unfold reachable.
  split; intros (q & Hl & Hlast); exists q;
    [rewrite <- (maze_rel_linked _ _ _ Hle)|rewrite (maze_rel_linked _ _ _ Hle)];
    done.
Qed.

Lemma maze_rel_two_way m m' : maze_rel R m m' -> two_way m' = two_way m.
Proof.
  intros Hle. unfold two_way.
  rewrite <- (Forall2_length _ _ _ Hle).
  assert (length (hd [] m') = length (hd [] m)) as ->.
  { destruct Hle as [|r r' ? ? Hr _]; [done|]. simpl.
    by rewrite (Forall2_length _ _ _ Hr). }
  apply forallb_pointwise. intros r. apply forallb_pointwise. intros c.
  pose proof (maze_rel_cell_at m m' r c Hle) as H0.
  pose proof (maze_rel_cell_at m m' r (S c) Hle) as H1.
  pose proof (maze_rel_cell_at m m' (S r) c Hle) as H2.
  unfold has_wall.
  destruct (cell_at m r c) as [x|], (cell_at m' r c) as [x'|]; try done.
  rewrite (R_walls _ _ H0).
  destruct (cell_at m r (S c)) as [y|], (cell_at m' r (S c)) as [y'|];
    try done;
  destruct (cell_at m (S r) c) as [z|], (cell_at m' (S r) c) as [z'|];
    try done;
  by rewrite ?(R_walls _ _ H1), ?(R_walls _ _ H2).
Qed.
End MazeRel.

Lemma maze_rel_impl (R R' : Cell -> Cell -> Prop) m m' :
  (forall c c', R c c' -> R' c c') -> maze_rel R m m' -> maze_rel R' m m'.
Proof.
  intros H Hm. eapply Forall2_impl; [exact Hm|].
  intros r r' Hr. eapply Forall2_impl; [exact Hr|]. exact H.
Qed.

Lemma maze_rel_trans (R : Cell -> Cell -> Prop) m1 m2 m3 :
  (forall a b c, R a b -> R b c -> R a c) ->
  maze_rel R m1 m2 -> maze_rel R m2 m3 -> maze_rel R m1 m3.
Proof.
  intros HR H12 H23. eapply Forall2_trans; [|exact H12|exact H23].
  intros r1 r2 r3 Ha Hb. eapply Forall2_trans; [|exact Ha|exact Hb].
  exact HR.
Qed.

Lemma same_search_fresh m m' : maze_rel same_search m m' -> fresh m' = fresh m.
Proof.
  induction 1 as [|r r' m m' Hr _ IH]; [done|].
  unfold fresh in *. simpl. rewrite IH. f_equal.
  induction Hr as [|c c' r r' (_ & Hv) _ IHr]; [done|].
  simpl. by rewrite IHr, Hv.
Qed.

Lemma same_search_is_visited m m' a :
  maze_rel same_search m m' -> is_visited m' a = is_visited m a.
Proof.
  intros H. unfold is_visited.
  destruct (maze_get m (fst a) (snd a)) as [c|] eqn:Hc.
  - by destruct (maze_rel_get_l _ _ _ _ _ _ H Hc) as (c' & -> & (_ & Hv)).
  - destruct (maze_get m' (fst a) (snd a)) as [c'|] eqn:Hc'; [|done].
    destruct (maze_rel_get_r _ _ _ _ _ _ H Hc') as (c & Hc2 & _). congruence.
Qed.

Lemma keeps_search_is_visited m m' a :
  maze_rel keeps_search m m' -> is_visited m a = true -> is_visited m' a = true.
Proof.
  intros H. unfold is_visited.
  destruct (maze_get m (fst a) (snd a)) as [c|] eqn:Hc; [|done].
  destruct (maze_rel_get_l _ _ _ _ _ _ H Hc) as (c' & -> & (_ & Hv)). exact Hv.
Qed.

Lemma keeps_search_trans a b c :
  keeps_search a b -> keeps_search b c -> keeps_search a c.
Proof. intros [? ?] [? ?]. split; [congruence|auto]. Qed.

Lemma same_search_trans a b c :
  same_search a b -> same_search b c -> same_search a c.
Proof. intros [? ?] [? ?]. split; congruence. Qed.

Lemma same_keeps c c' : same_search c c' -> keeps_search c c'.
Proof. intros [? ?]. split; [done|congruence]. Qed.

Lemma cell_le_keeps c c' : cell_le c c' -> keeps_search c c'.
Proof. intros (? & _ & ?). by split. Qed.

(** * Further properties of solve_maze *)

Lemma bind_ret_eq {St A B} (m : M St A) (k : A -> M St B) s a s1 :
  m s = (Ret a, s1) -> bind m k s = k a s1.
Proof. intros H. unfold bind. by rewrite H. Qed.

Lemma with_display_same d c : same_search c (with_display d c).
Proof. by split. Qed.

Lemma same_search_refl c : same_search c c.
Proof. by split. Qed.

Lemma same_search_walls c c' : same_search c c' -> wall_index c' = wall_index c.
Proof. by intros []. Qed.

Lemma keeps_search_walls c c' : keeps_search c c' -> wall_index c' = wall_index c.
Proof. by intros []. Qed.

Lemma set_direction_same d c : same_search c (set_direction d c).
Proof.
  unfold set_direction. destruct (negb _); [apply same_search_refl|].
  apply with_display_same.
Qed.

Lemma set_as_start_same c : same_search c (set_as_start c).
Proof.
  unfold set_as_start. destruct (negb _); [|apply same_search_refl].
  apply with_display_same.
Qed.

Lemma set_as_finish_same b c : same_search c (set_as_finish b c).
Proof.
  unfold set_as_finish.
  destruct (negb _); destruct b;
    (eapply same_search_trans; [|apply set_direction_same]);
    first [apply with_display_same|apply same_search_refl].
Qed.

Lemma cell_call_runs f pos m :
  (forall c, same_search c (f c)) -> in_bounds m pos = true ->
  exists m', cell_call f pos m = (Ret tt, m') /\ maze_rel same_search m m'.
Proof.
  intros Hf Hin. destruct (in_bounds_get _ _ Hin) as [c Hc].
  destruct (maze_alter_defined f _ _ _ _ Hc) as [m' Hm'].
  exists m'. unfold cell_call. rewrite Hm'. split; [done|].
  eapply maze_alter_rel; [apply same_search_refl|exact Hf|exact Hm'].
Qed.

Lemma cell_call_rel f pos m m' :
  (forall c, same_search c (f c)) ->
  cell_call f pos m = (Ret tt, m') -> maze_rel same_search m m'.
Proof.
  intros Hf. unfold cell_call.
  destruct (maze_alter f m (fst pos) (snd pos)) as [m1|] eqn:Hm1; [|done].
  intros [= <-].
  eapply maze_alter_rel; [apply same_search_refl|exact Hf|exact Hm1].
Qed.

Lemma for_each_cell_call_rel f l :
  (forall c, same_search c (f c)) ->
  forall m m', for_each l (cell_call f) m = (Ret tt, m') ->
               maze_rel same_search m m'.
Proof.
  intros Hf. induction l as [|x l IH]; intros m m' H.
  - injection H as <-. apply maze_rel_refl, same_search_refl.
  - simpl in H. apply bind_Ret_inv in H as ([] & m1 & H1 & H).
    eapply maze_rel_trans; [apply same_search_trans| |by apply IH].
    by eapply cell_call_rel.
Qed.

Lemma for_each_cell_call_runs f l :
  (forall c, same_search c (f c)) ->
  forall m, (forall x, In x l -> in_bounds m x = true) ->
  exists m', for_each l (cell_call f) m = (Ret tt, m').
Proof.
  intros Hf. induction l as [|x l IH]; intros m Hin; [by eexists|].
  destruct (cell_call_runs f x m Hf) as (m1 & H1 & Hrel); [apply Hin; by left|].
  destruct (IH m1) as (m' & H').
  { intros y Hy. rewrite (maze_rel_in_bounds _ _ _ _ Hrel). apply Hin. by right. }
  exists m'. simpl. by rewrite (bind_ret_eq _ _ _ _ _ H1).
Qed.

Lemma forward_search_run s f m : forward_search s f m = run_navigate s f m.
Proof. unfold forward_search, bind. by rewrite clear_loop_id. Qed.

Lemma run_navigate_visited a b m :
  coord_eqb a b = false -> is_visited m a = true ->
  run_navigate a b m = (Ret ([a], []), m).
Proof.
  intros Hab Hv. unfold is_visited in Hv.
  destruct (maze_get m (fst a) (snd a)) as [c|] eqn:Hc; [|done].
  unfold run_navigate. cbn [navigate_maze]. unfold bind, tick_call, cell_ref.
  rewrite Hab. cbn [maze]. by rewrite Hc, Hv.
Qed.

Section SolveTwice.
Variable list_of_set : list suggestion -> list suggestion.
Variables (cmd_entry : CLProcessor.t) (m : Maze).
Local Abbreviation start := (CLProcessor.start_cell cmd_entry).
Local Abbreviation finish := (CLProcessor.finish_cell cmd_entry).
Hypothesis Henc : enclosed m = true.
Hypothesis Hs : in_bounds m start = true.
Hypothesis Hf : in_bounds m finish = true.
Hypothesis Hsf : coord_eqb start finish = false.

Lemma solve_maze_captions :
  exists ma mb,
    cell_call set_as_start start m = (Ret tt, ma) /\
    cell_call (set_as_finish false) finish ma = (Ret tt, mb) /\
    maze_rel same_search m mb.
Proof.
  destruct (cell_call_runs set_as_start start m set_as_start_same Hs)
    as (ma & Ha & Hra).
  destruct (cell_call_runs (set_as_finish false) finish ma (set_as_finish_same false))
    as (mb & Hb & Hrb).
  { by rewrite (maze_rel_in_bounds _ _ _ _ Hra). }
  exists ma, mb. repeat split; try done.
  eapply maze_rel_trans; [apply same_search_trans|exact Hra|exact Hrb].
Qed.

Lemma solve_maze_visited_start :
  is_visited m start = true ->
  exists m', solve_maze list_of_set cmd_entry m = (Raise IndexError, m').
Proof.
  intros Hv. destruct solve_maze_captions as (ma & mb & Ha & Hb & Hrel).
  unfold solve_maze. cbv zeta. 
  rewrite (bind_ret_eq _ _ _ _ _ Ha), (bind_ret_eq _ _ _ _ _ Hb).
  assert (run_navigate start finish mb = (Ret ([start], []), mb)) as Hfwd.
  { apply run_navigate_visited; [done|].
    by rewrite (same_search_is_visited _ _ _ Hrel). }
  destruct (run_navigate_explored finish start mb) as (p2 & w2 & Hrev & _).
  { by rewrite (maze_rel_enclosed _ same_search_walls _ _ Hrel). }
  { by rewrite (maze_rel_in_bounds _ _ _ _ Hrel). }
  assert (find_paths start finish mb = (Ret (DeadEnds [] (all_paths w2)), maze w2)) as Hfind.
  { rewrite find_paths_unfold, Hfwd.
    change (1 <? Z.of_nat (length [start])) with false. cbv iota. by rewrite Hrev. }
  rewrite (bind_ret_eq _ _ _ _ _ Hfind). by eexists.
Qed.

Lemma solve_maze_keeps r m' :
  solve_maze list_of_set cmd_entry m = (Ret r, m') ->
  maze_rel keeps_search m m' /\ is_visited m' start = true.
Proof.
  intros H. destruct solve_maze_captions as (ma & mb & Ha & Hb & Hrel).
  unfold solve_maze in H. cbv zeta in H. 
  rewrite (bind_ret_eq _ _ _ _ _ Ha), (bind_ret_eq _ _ _ _ _ Hb) in H.
  apply bind_Ret_inv in H as (found & mc & Hfind & H).
  assert (maze_le mb mc) as Hle.
  { pose proof (find_paths_le start finish mb) as Hle. by rewrite Hfind in Hle. }
  assert (is_visited mc start = true) as Hvc.
  { destruct (is_visited mb start) eqn:Hvb; [by eapply is_visited_le|].
    assert (in_bounds mb start = true) as Hsb
      by (by rewrite (maze_rel_in_bounds _ _ _ _ Hrel)).
    destruct (in_bounds_get _ _ Hsb) as [c Hc].
    assert (visited c = false) as Hvis
      by (unfold is_visited in Hvb; by rewrite Hc in Hvb).
    destruct (forward_search_marks_start start finish mb c Hsf
                (in_bounds_not_flag _ _ Hsb) Hc Hvis) as (c' & Hc' & Hv').
    rewrite forward_search_run in Hc'.
    assert (is_visited (snd (run_navigate start finish mb)) start = true) as Hv1
      by (unfold is_visited; by rewrite Hc').
    rewrite find_paths_unfold in Hfind.
    destruct (run_navigate start finish mb) as [[[p fs]|e|] m1]; [|done|done].
    simpl in Hv1.
    destruct (1 <? Z.of_nat (length p)); [by injection Hfind as _ <-|].
    pose proof (run_navigate_le finish start m1) as Hle1.
    destruct (run_navigate finish start m1) as [[[p2 ff]|e|] m2]; [|done|done].
    injection Hfind as _ <-. by eapply is_visited_le. }
  assert (maze_rel same_search mc m') as Hrel'.
  { destruct found as [fp|fs ff].
    - destruct fp as [|first rest]; [done|].
      destruct (coord_eqb first flag).
      + apply bind_Ret_inv in H as ([] & md & Hloop & H).
        apply bind_Ret_inv in H as ([] & me & Hfin & H).
        injection H as _ <-.
        eapply maze_rel_trans; [apply same_search_trans| |].
        * eapply for_each_cell_call_rel; [|exact Hloop].
          intros c. apply set_direction_same.
        * eapply cell_call_rel; [|exact Hfin]. apply set_as_finish_same.
      + injection H as _ <-. apply maze_rel_refl, same_search_refl.
    - destruct fs as [|fs0 fs]; [done|].
      unfold call_find_suggestions in H.
      destruct (find_suggestions _ _ _); [|done|done].
      injection H as _ <-. apply maze_rel_refl, same_search_refl. }
  split.
  - eapply maze_rel_trans; [apply keeps_search_trans| |].
    { eapply maze_rel_impl; [apply same_keeps|exact Hrel]. }
    eapply maze_rel_trans; [apply keeps_search_trans| |].
    { eapply maze_rel_impl; [apply cell_le_keeps|exact Hle]. }
    eapply maze_rel_impl; [apply same_keeps|exact Hrel'].
  - by rewrite (same_search_is_visited _ _ _ Hrel').
Qed.
End SolveTwice.

(** The second run of [solve_maze] on one maze. *)
Lemma second_solve_run list_of_set cmd_entry m r m' :
  enclosed m = true ->
  in_bounds m (CLProcessor.start_cell cmd_entry) = true ->
  in_bounds m (CLProcessor.finish_cell cmd_entry) = true ->
  coord_eqb (CLProcessor.start_cell cmd_entry)
            (CLProcessor.finish_cell cmd_entry) = false ->
  solve_maze list_of_set cmd_entry m = (Ret r, m') ->
  is_visited m' (CLProcessor.start_cell cmd_entry) = true /\
  exists m'', solve_maze list_of_set cmd_entry m' = (Raise IndexError, m'').
Proof.
  intros Henc Hs Hf Hsf H.
  destruct (solve_maze_keeps list_of_set cmd_entry m Hs Hf Hsf r m' H)
    as (Hrel & Hv).
  split; [done|].
  apply solve_maze_visited_start; try done.
  - by rewrite (maze_rel_enclosed _ keeps_search_walls _ _ Hrel).
  - by rewrite (maze_rel_in_bounds _ _ _ _ Hrel).
  - by rewrite (maze_rel_in_bounds _ _ _ _ Hrel).
Qed.

(** X8.  [solve_maze] cannot be run twice on one maze: after a call
    that returned, on an enclosed maze with distinct start and finish
    cells on the grid, the start cell is left visited, and a second
    call with the same command entry returns no result.  (Its forward
    search stops at once on the visited start cell, so [from_start] is
    empty and [from_start[0]] has nothing to read.) *)
Theorem second_solve_raises list_of_set cmd_entry m r m' :
  enclosed m = true ->
  in_bounds m (CLProcessor.start_cell cmd_entry) = true ->
  in_bounds m (CLProcessor.finish_cell cmd_entry) = true ->
  coord_eqb (CLProcessor.start_cell cmd_entry)
            (CLProcessor.finish_cell cmd_entry) = false ->
  solve_maze list_of_set cmd_entry m = (Ret r, m') ->
  is_visited m' (CLProcessor.start_cell cmd_entry) = true /\
  forall r2 m'', solve_maze list_of_set cmd_entry m' <> (Ret r2, m'').
Proof.
  intros Henc Hs Hf Hsf H.
  destruct (second_solve_run list_of_set cmd_entry m r m' Henc Hs Hf Hsf H)
    as (Hv & m2 & Hm2).
  split; [done|]. intros r2 m''. by rewrite Hm2.
Qed.

Lemma second_solve_raises_witness :
  is_visited
    (snd (solve_maze last_seen_first
            {| CLProcessor.width := 2; CLProcessor.height := 1;
               CLProcessor.start_cell := (0, 0);
               CLProcessor.finish_cell := (0, 1) |} open_pair))
    (0, 0) = true /\
  forall r2 m'',
    solve_maze last_seen_first
      {| CLProcessor.width := 2; CLProcessor.height := 1;
         CLProcessor.start_cell := (0, 0); CLProcessor.finish_cell := (0, 1) |}
      (snd (solve_maze last_seen_first
              {| CLProcessor.width := 2; CLProcessor.height := 1;
                 CLProcessor.start_cell := (0, 0);
                 CLProcessor.finish_cell := (0, 1) |} open_pair))
    <> (Ret r2, m'').
Proof.
  apply (second_solve_raises last_seen_first
           {| CLProcessor.width := 2; CLProcessor.height := 1;
              CLProcessor.start_cell := (0, 0); CLProcessor.finish_cell := (0, 1) |}
           open_pair (true, [])); reflexivity.
Defined.

(** ** The diagnosis of an unsolvable maze *)

Section Answer.
Variable list_of_set : list suggestion -> list suggestion.
Variables (cmd_entry : CLProcessor.t) (m : Maze).
Local Abbreviation start := (CLProcessor.start_cell cmd_entry).
Local Abbreviation finish := (CLProcessor.finish_cell cmd_entry).
Hypothesis Hset : set_listing list_of_set.
Hypothesis Henc : enclosed m = true.
Hypothesis Hfresh : fresh m = true.
Hypothesis Htw : two_way m = true.
Hypothesis Hs : in_bounds m start = true.
Hypothesis Hf : in_bounds m finish = true.

(** The answer of [solve_maze], whenever it gives one. *)
Lemma solve_maze_answer solved coordinates m' :
  solve_maze list_of_set cmd_entry m = (Ret (solved, coordinates), m') ->
  (solved = true <-> reachable m start finish) /\
  forall row col wall,
    In (row, col, wall) coordinates <->
    ~ reachable m start finish /\ is_wall wall = true /\
    reachable m start (row, col) /\ reachable m finish (across (row, col) wall).
Proof.
  destruct (solve_maze_captions cmd_entry m Hs Hf) as (ma & mb & Ha & Hb & Hrel).
  unfold solve_maze. cbv zeta.
  rewrite (bind_ret_eq _ _ _ _ _ Ha), (bind_ret_eq _ _ _ _ _ Hb).
  assert (enclosed mb = true) as Hencb
    by (by rewrite (maze_rel_enclosed _ same_search_walls _ _ Hrel)).
  assert (fresh mb = true) as Hfreshb by (by rewrite (same_search_fresh _ _ Hrel)).
  assert (two_way mb = true) as Htwb
    by (by rewrite (maze_rel_two_way _ same_search_walls _ _ Hrel)).
  assert (forall x, in_bounds mb x = in_bounds m x) as Hinb
    by (intros x; by apply (maze_rel_in_bounds _ _ _ _ Hrel)).
  assert (forall a b, reachable mb a b <-> reachable m a b) as Hreach
    by (intros a b; by apply (maze_rel_reachable _ same_search_walls)).
  assert (in_bounds mb start = true) as Hsb by (by rewrite Hinb).
  assert (in_bounds mb finish = true) as Hfb by (by rewrite Hinb).
  destruct (forward_run mb start finish Hencb Hfreshb Hsb)
    as (p & w1 & Hrun & Hle & [(q & -> & Hl & Hlast & _)
                              |(-> & Hno & Hcover & Hvis)]).
  - (* a route exists *)
    assert (find_paths start finish mb
            = (Ret (FoundPath (flag :: start :: start :: q)), maze w1))
      as Hfind by (by rewrite find_paths_unfold, Hrun, length_gt_1).
    rewrite (bind_ret_eq _ _ _ _ _ Hfind).
    change (coord_eqb flag flag) with true. cbv iota.
    destruct (for_each_cell_call_runs
                (fun c => set_direction (direction c) c) (start :: start :: q)
                (fun c => set_direction_same (direction c) c) (maze w1))
      as (md & Hloop).
    { intros x Hx. rewrite (maze_le_in_bounds _ _ _ Hle).
      apply (linked_in_bounds mb q Hencb start Hsb Hl).
      destruct Hx as [<-|Hx]; [by left|done]. }
    rewrite (bind_ret_eq _ _ _ _ _ Hloop).
    destruct (cell_call_runs (set_as_finish true) finish md (set_as_finish_same true))
      as (me & Hfin & _).
    { rewrite (maze_rel_in_bounds same_search (maze w1) md).
      - by rewrite (maze_le_in_bounds _ _ _ Hle).
      - eapply for_each_cell_call_rel; [|exact Hloop].
        intros c. apply set_direction_same. }
    rewrite (bind_ret_eq _ _ _ _ _ Hfin).
    assert (reachable m start finish) as Hr by (apply Hreach; by exists q).
    intros [= <- <- <-]. split; [done|].
    intros row col wall. split; [done|]. by intros [Hn _].
  - (* no route *)
    destruct (reverse_run mb (maze w1) start finish Hencb Htwb Hle Hsb Hfb Hno Hvis)
      as (p2 & w2 & Hrev & Hcover2).
    assert (find_paths start finish mb
            = (Ret (DeadEnds (all_paths w1) (all_paths w2)), maze w2)) as Hfind.
    { rewrite find_paths_unfold, Hrun.
      change (1 <? Z.of_nat (length [start])) with false. cbv iota. by rewrite Hrev. }
    rewrite (bind_ret_eq _ _ _ _ _ Hfind). cbv iota.
    destruct (proj2 (Hcover start) (reachable_refl mb start)) as (r0 & Hr0 & _).
    destruct (all_paths w1) as [|fs0 fs]; [done|]. clear Hr0.
    unfold call_find_suggestions, find_suggestions.
    destruct (collect_coordinates (fs0 :: fs) (all_paths w2) [])
      as [[[]|e|] raw] eqn:Hraw; [|done|done].
    assert (~ reachable m start finish) as Hnom by (by rewrite <- Hreach).
    intros [= <- <- <-].
    split; [split; [done|by intros ?]|].
    intros row col wall. rewrite (proj2 (Hset raw)).
    rewrite (collected_members _ _ _ Hraw), Hcover, Hcover2, !Hreach. tauto.
Qed.
End Answer.

(** X9.  Whatever [solve_maze] returns on a fresh enclosed maze with
    two-way walls, with start and finish on the grid, is the right
    answer: it reports solved exactly when a route of open unit steps
    leads from start to finish; and when none does, the suggested
    triples are exactly the walls (row, col, wall) of a cell reachable
    from the start whose other side is reachable from the finish. *)
Theorem solve_maze_decides_and_diagnoses
    list_of_set cmd_entry m solved coordinates m' :
  set_listing list_of_set ->
  enclosed m = true -> fresh m = true -> two_way m = true ->
  in_bounds m (CLProcessor.start_cell cmd_entry) = true ->
  in_bounds m (CLProcessor.finish_cell cmd_entry) = true ->
  solve_maze list_of_set cmd_entry m = (Ret (solved, coordinates), m') ->
  (solved = true <->
   reachable m (CLProcessor.start_cell cmd_entry)
               (CLProcessor.finish_cell cmd_entry)) /\
  forall row col wall,
    In (row, col, wall) coordinates <->
    ~ reachable m (CLProcessor.start_cell cmd_entry)
                  (CLProcessor.finish_cell cmd_entry) /\
    is_wall wall = true /\
    reachable m (CLProcessor.start_cell cmd_entry) (row, col) /\
    reachable m (CLProcessor.finish_cell cmd_entry) (across (row, col) wall).
Proof. intros. by eapply solve_maze_answer. Qed.

Lemma solve_maze_decides_and_diagnoses_witness :
  (false = true <-> reachable walled_pair (0, 0) (0, 1)) /\
  forall row col wall,
    In (row, col, wall) [(0, 0, 4)] <->
    ~ reachable walled_pair (0, 0) (0, 1) /\
    is_wall wall = true /\
    reachable walled_pair (0, 0) (row, col) /\
    reachable walled_pair (0, 1) (across (row, col) wall).
Proof.
  apply (solve_maze_decides_and_diagnoses last_seen_first
           {| CLProcessor.width := 2; CLProcessor.height := 1;
              CLProcessor.start_cell := (0, 0);
              CLProcessor.finish_cell := (0, 1) |} walled_pair
           false [(0, 0, 4)]
           (snd (solve_maze last_seen_first
                   {| CLProcessor.width := 2; CLProcessor.height := 1;
                      CLProcessor.start_cell := (0, 0);
                      CLProcessor.finish_cell := (0, 1) |} walled_pair)));
    first [apply last_seen_first_listing|reflexivity].
Defined.

(** * The assembled maze is ready for the search *)

Lemma elem_of_tab_row {A} h w (F : nat -> nat -> A) row :
  In row (tab h w F) -> exists r, (r < h)%nat /\ row = F r <$> seq 0 w.
Proof.
  intros H. apply list_elem_of_In in H. unfold tab in H.
  apply list_elem_of_fmap in H as (r & -> & Hr).
  apply list_elem_of_In, in_seq in Hr. exists r. split; [lia|done].
Qed.

Lemma hd_tab {A} h w (F : nat -> nat -> A) :
  (1 <= h)%nat -> length (hd [] (tab h w F)) = w.
Proof.
  intros Hh. destruct h as [|h]; [lia|].
  unfold tab. simpl. by rewrite length_fmap, length_seq.
Qed.

Lemma cell_at_tab_in h w (F : nat -> nat -> Cell) r c :
  (r < h)%nat -> (c < w)%nat -> cell_at (tab h w F) r c = Some (F r c).
Proof. intros Hr Hc. by rewrite <- maze_get_nat, maze_get_tab. Qed.

Lemma entry_tab h w (G : nat -> nat -> Z) r c :
  (r < h)%nat -> (c < w)%nat -> entry (tab h w G) r c = G r c.
Proof.
  intros Hr Hc. unfold entry.
  rewrite (nth_lookup_Some _ _ _ _ (tab_lookup h w G r Hr)).
  apply nth_lookup_Some. by apply tab_row_lookup.
Qed.

Lemma tab_enclosed h w (F : nat -> nat -> Cell) :
  (1 <= h)%nat -> (1 <= w)%nat ->
  (forall r c, (r < h)%nat -> (c < w)%nat ->
     boundary_ok h w r c (wall_index (F r c)) = true) ->
  enclosed (tab h w F) = true.
Proof.
  intros Hh Hw HF. unfold enclosed.
  change (map (map wall_index) (tab h w F))
    with (fmap (M:=list) wall_index <$> tab h w F).
  rewrite fmap_tab, tab_length, (hd_tab h w _ Hh).
  repeat (apply andb_true_iff; split).
  - by apply Nat.leb_le.
  - by apply Nat.leb_le.
  - apply forallb_forall. intros row Hrow.
    apply elem_of_tab_row in Hrow as (r & _ & ->).
    apply Nat.eqb_eq. by rewrite length_fmap, length_seq.
  - apply forallb_forall. intros r Hr. apply in_seq in Hr.
    apply forallb_forall. intros c Hc. apply in_seq in Hc.
    rewrite entry_tab by lia. apply HF; lia.
Qed.

Lemma tab_fresh h w (F : nat -> nat -> Cell) :
  (forall r c, visited (F r c) = false) -> fresh (tab h w F) = true.
Proof.
  intros HF. unfold fresh. apply forallb_forall. intros row Hrow.
  apply elem_of_tab_row in Hrow as (r & _ & ->).
  apply forallb_forall. intros x Hx. apply list_elem_of_In in Hx.
  apply list_elem_of_fmap in Hx as (c & -> & _). by rewrite HF.
Qed.

Lemma cell_at_tab_cases h w (F : nat -> nat -> Cell) r c :
  cell_at (tab h w F) r c
  = if ((r <? h) && (c <? w))%nat then Some (F r c) else None.
Proof.
  destruct (Nat.ltb_spec r h) as [Hr|Hr]; simpl.
  - destruct (Nat.ltb_spec c w) as [Hc|Hc]; [by apply cell_at_tab_in|].
    unfold cell_at. rewrite (tab_lookup h w F r Hr).
    apply lookup_ge_None. by rewrite length_fmap, length_seq.
  - unfold cell_at.
    rewrite (proj2 (lookup_ge_None (tab h w F) r)); [done|].
    by rewrite tab_length.
Qed.

Lemma tab_two_way h w (F : nat -> nat -> Cell) :
  (1 <= h)%nat ->
  (forall r c, (r < h)%nat -> (S c < w)%nat ->
     has_wall (F r c) wi_right = has_wall (F r (S c)) wi_left) ->
  (forall r c, (S r < h)%nat -> (c < w)%nat ->
     has_wall (F r c) wi_bottom = has_wall (F (S r) c) wi_top) ->
  two_way (tab h w F) = true.
Proof.
  intros Hh Hright Hbottom. unfold two_way.
  rewrite tab_length, (hd_tab h w _ Hh).
  apply forallb_forall. intros r Hr. apply in_seq in Hr.
  apply forallb_forall. intros c Hc. apply in_seq in Hc.
  rewrite !cell_at_tab_cases.
  destruct (Nat.ltb_spec r h); [|lia]. destruct (Nat.ltb_spec c w); [|lia].
  simpl. apply andb_true_iff. split.
  - destruct (Nat.ltb_spec (S c) w); [|done]. apply eqb_true_iff.
    apply Hright; lia.
  - destruct (Nat.ltb_spec (S r) h); [|done]. simpl. apply eqb_true_iff.
    apply Hbottom; lia.
Qed.

Lemma seal_visited b x : visited (seal b x) = visited x.
Proof. unfold seal. by destruct (negb _). Qed.

Lemma assembled_visited h w G r c : visited (assembled h w G r c) = false.
Proof.
  unfold assembled, sealed_rows, sealed_cols, propagated.
  repeat match goal with
  | |- context [if ?b then _ else _] => destruct b
  end; rewrite ?seal_visited; reflexivity.
Qed.

Lemma in_bounds_tab h w (F : nat -> nat -> Cell) a :
  in_bounds (tab h w F) a = negb (off_grid (Z.of_nat h) (Z.of_nat w) a).
Proof.
  unfold in_bounds, off_grid. rewrite negb_involutive, tab_length.
  destruct (Z.leb_spec 0 (fst a)); [|done].
  destruct (Z.ltb_spec (fst a) (Z.of_nat h)); [|done]. simpl.
  rewrite tab_lookup by lia. by rewrite length_fmap, length_seq.
Qed.

Lemma cell_count_tab h w (F : nat -> nat -> Cell) :
  cell_count (tab h w F) = (h * w)%nat.
Proof.
  unfold cell_count, tab.
  assert (forall l : list nat,
            list_sum (map (fun r : list Cell => length r)
                          ((fun r => F r <$> seq 0 w) <$> l))
            = (length l * w)%nat) as H.
  { induction l as [|r l IH]; [done|]. simpl in *.
    rewrite length_fmap, length_seq. f_equal. exact IH. }
  etrans; [apply H|]. by rewrite length_seq.
Qed.

(** X10.  For every wall grid of the scanner's shape, the maze that
    [create_maze] returns meets what the search relies on: it is
    enclosed, no cell is marked visited, every interior wall is seen
    from both of its sides, it has one cell per grid entry, and the
    cells on the grid are exactly those with a row in [0, height) and
    a column in [0, width). *)
Theorem create_maze_prepares_search grid :
  scanner_shaped grid = true ->
  exists m,
    create_maze grid = Ret m /\
    enclosed m = true /\ fresh m = true /\ two_way m = true /\
    cell_count m = (length grid * length (hd [] grid))%nat /\
    forall a,
      in_bounds m a
      = negb (off_grid (Z.of_nat (length grid))
                       (Z.of_nat (length (hd [] grid))) a).
Proof.
  intros H. destruct (create_maze_scanner_shaped grid H) as (Hm & Hh & Hw & Hok).
  set (h := length grid) in *. set (w := length (hd [] grid)) in *.
  eexists. split; [exact Hm|].
  split; [|split; [|split; [|split; [apply cell_count_tab|apply in_bounds_tab]]]].
  - apply tab_enclosed; [done..|]. intros r c Hr Hc.
    destruct (assembled_boundary h w (entry grid) r c) as (Ht & Hb & Hl & Hri).
    unfold boundary_ok. unfold has_wall in *.
    repeat (apply andb_true_iff; split).
    + destruct (Nat.eqb_spec r 0); [by apply Ht|done].
    + destruct (Nat.eqb_spec r (h - 1)); [by apply Hb|done].
    + destruct (Nat.eqb_spec c 0); [by apply Hl|done].
    + destruct (Nat.eqb_spec c (w - 1)); [by apply Hri|done].
  - apply tab_fresh. intros r c. apply assembled_visited.
  - apply tab_two_way; [done| |].
    + intros r c Hr Hc.
      assert (Z.land (entry grid r (S c)) wi_left = 0) as Hscan.
      { specialize (Hok r (S c) Hr Hc). unfold scanner_entry_ok in Hok.
        apply andb_true_iff in Hok as [Hok _].
        apply andb_true_iff in Hok as [_ Hok].
        simpl in Hok. by apply Z.eqb_eq in Hok. }
      rewrite assembled_left by lia. rewrite assembled_right by lia.
      rewrite propagated_left, Hscan. simpl.
      by replace (c - 0)%nat with c by lia.
    + intros r c Hr Hc.
      assert (Z.land (entry grid (S r) c) wi_top = 0) as Hscan.
      { specialize (Hok (S r) c Hr Hc). unfold scanner_entry_ok in Hok.
        apply andb_true_iff in Hok as [_ Hok].
        simpl in Hok. by apply Z.eqb_eq in Hok. }
      rewrite assembled_top by lia. rewrite assembled_bottom by lia.
      rewrite propagated_top, Hscan. simpl.
      by replace (r - 0)%nat with r by lia.
Qed.

Lemma create_maze_prepares_search_witness :
  exists m,
    create_maze [[0; 4]; [8; 0]] = Ret m /\
    enclosed m = true /\ fresh m = true /\ two_way m = true /\
    cell_count m = 4%nat /\
    forall a, in_bounds m a = negb (off_grid 2 2 a).
Proof.
  apply (create_maze_prepares_search [[0; 4]; [8; 0]]). reflexivity.
Defined.

(** * Further properties of the grid assembler *)

Lemma load_row_fails row :
  Exists (fun v => 4095 < v) row -> load_row row = inl ValueError.
Proof.
  induction row as [|v row IH]; intros H; [by apply Exists_nil in H|].
  simpl. unfold Cell_init. destruct (Z.ltb_spec 4095 v) as [Hv|Hv]; [done|].
  apply Exists_cons in H as [H|H]; [lia|]. by rewrite (IH H).
Qed.

Lemma load_row_error row e : load_row row = inl e -> e = ValueError.
Proof.
  induction row as [|v row IH]; [done|]. simpl. unfold Cell_init.
  destruct (4095 <? v); [by intros [= <-]|].
  destruct (load_row row); [|done]. intros [= <-]. by apply IH.
Qed.

Lemma load_cells_fails grid :
  Exists (Exists (fun v => 4095 < v)) grid -> load_cells grid = inl ValueError.
Proof.
  induction grid as [|row grid IH]; intros H; [by apply Exists_nil in H|].
  simpl. destruct (load_row row) as [e|cs] eqn:Hrow.
  - by rewrite (load_row_error _ _ Hrow).
  - apply Exists_cons in H as [H|H].
    + by rewrite (load_row_fails _ H) in Hrow.
    + by rewrite (IH H).
Qed.

Lemma entry_dec v : {v <= 4095} + {4095 < v}.
Proof. destruct (Z_le_gt_dec v 4095); [left|right]; lia. Qed.

Lemma grid_entries_dec h w (grid : list (list Z)) :
  rectangular h w grid ->
  (forall r c, (r < h)%nat -> (c < w)%nat -> entry grid r c <= 4095) \/
  (Exists (Exists (fun v => 4095 < v)) grid /\
   exists r c, (r < h)%nat /\ (c < w)%nat /\ 4095 < entry grid r c).
Proof.
  intros Hrect.
  destruct (Forall_Exists_dec (Forall (fun v => v <= 4095))
              (Exists (fun v => 4095 < v))
              (Forall_Exists_dec (fun v => v <= 4095) (fun v => 4095 < v)
                                 entry_dec) grid) as [Hall|Hex].
  - left. intros r c Hr Hc.
    rewrite (rectangular_tab h w grid Hrect) in Hall.
    rewrite Forall_lookup in Hall.
    specialize (Hall r _ (tab_lookup h w (entry grid) r Hr)).
    rewrite Forall_lookup in Hall.
    exact (Hall c _ (tab_row_lookup w (entry grid r) c Hc)).
  - right. split; [done|].
    apply Exists_exists in Hex as (row & Hrow & Hex).
    apply Exists_exists in Hex as (v & Hv & Hgt).
    apply list_elem_of_lookup in Hrow as (r & Hr).
    apply list_elem_of_lookup in Hv as (c & Hc).
    destruct Hrect as [Hh Hw].
    assert (r < h)%nat as Hrh by (rewrite <- Hh; by eapply lookup_lt_Some).
    assert (length row = w) as Hlen.
    { rewrite Forall_forall in Hw. apply Hw. by eapply list_elem_of_lookup_2. }
    assert (c < w)%nat as Hcw by (rewrite <- Hlen; by eapply lookup_lt_Some).
    exists r, c. repeat split; [done..|].
    unfold entry. rewrite (nth_lookup_Some _ _ _ _ Hr).
    by rewrite (nth_lookup_Some _ _ _ _ Hc).
Qed.

Lemma extra_walls_or x b e :
  Z.land e wi_all = e -> Z.land b wi_all = b ->
  Z.lor (Z.lor x e) b = Z.lor x (Z.lor e b) /\
  Z.land (Z.lor e b) wi_all = Z.lor e b.
Proof.
  intros He Hb. split; [by rewrite Z.lor_assoc|].
  by rewrite Z.land_lor_distr_l, He, Hb.
Qed.

Lemma or_wall_extends G b x :
  Z.land b wi_all = b ->
  (exists e, wall_index x = Z.lor G e /\ Z.land e wi_all = e) ->
  exists e, wall_index (or_wall b x) = Z.lor G e /\ Z.land e wi_all = e.
Proof.
  intros Hb (e & Hx & He). exists (Z.lor e b).
  destruct (extra_walls_or G b e He Hb) as [H1 H2].
  split; [|done]. simpl. by rewrite Hx.
Qed.

Lemma seal_extends G b x :
  Z.land b wi_all = b ->
  (exists e, wall_index x = Z.lor G e /\ Z.land e wi_all = e) ->
  exists e, wall_index (seal b x) = Z.lor G e /\ Z.land e wi_all = e.
Proof.
  intros Hb Hx. unfold seal. destruct (negb _); [|done].
  by apply or_wall_extends.
Qed.

Lemma assembled_extends h w G r c :
  exists e, wall_index (assembled h w G r c) = Z.lor (G r c) e /\
            Z.land e wi_all = e.
Proof.
  unfold assembled, sealed_rows, sealed_cols, propagated.
  repeat match goal with
  | |- context [if ?b then _ else _] => destruct b
  end;
  repeat first [apply seal_extends; [done|]|apply or_wall_extends; [done|]];
  exists 0; by rewrite Z.lor_0_r.
Qed.

(** X11.  On a rectangular grid with at least one row and one column,
    [create_maze] raises ValueError when some entry exceeds 4095 (the
    check of [Cell.__init__]) and only then; otherwise it returns a
    maze of the grid's shape in which every cell is unvisited, shows
    its grid entry unchanged as display index, and has as wall index
    the grid entry or-ed with some of the four wall bits: walls are
    added, never removed, and nothing but walls is added. *)
Theorem create_maze_adds_walls_only h w grid :
  rectangular h w grid -> (1 <= h)%nat -> (1 <= w)%nat ->
  (create_maze grid = Raise ValueError /\
   exists r c, (r < h)%nat /\ (c < w)%nat /\ 4095 < entry grid r c)
  \/
  (exists m,
     create_maze grid = Ret m /\
     (forall r c, (r < h)%nat -> (c < w)%nat -> entry grid r c <= 4095) /\
     rectangular h w m /\
     forall r c x, cell_at m r c = Some x ->
       visited x = false /\
       display_index x = entry grid r c /\
       exists added,
         wall_index x = Z.lor (entry grid r c) added /\
         Z.land added wi_all = added).
Proof.
  intros Hrect Hh Hw.
  destruct (grid_entries_dec h w grid Hrect) as [Hok|[Hex Hbad]].
  - right. eexists. split.
    { rewrite (rectangular_tab _ _ grid Hrect) at 1. by apply create_maze_tab. }
    split; [done|]. split; [apply tab_rectangular|].
    intros r c x Hx. apply cell_at_tab in Hx as (_ & _ & ->).
    split; [apply assembled_visited|]. split; [apply assembled_display|].
    apply assembled_extends.
  - left. split; [|done]. unfold create_maze. by rewrite (load_cells_fails _ Hex).
Qed.

Lemma create_maze_adds_walls_only_witness :
  (create_maze [[0; 5000]] = Raise ValueError /\
   exists r c, (r < 1)%nat /\ (c < 2)%nat /\ 4095 < entry [[0; 5000]] r c)
  \/
  (exists m,
     create_maze [[0; 5000]] = Ret m /\
     (forall r c, (r < 1)%nat -> (c < 2)%nat -> entry [[0; 5000]] r c <= 4095) /\
     rectangular 1 2 m /\
     forall r c x, cell_at m r c = Some x ->
       visited x = false /\
       display_index x = entry [[0; 5000]] r c /\
       exists added,
         wall_index x = Z.lor (entry [[0; 5000]] r c) added /\
         Z.land added wi_all = added).
Proof.
  apply (create_maze_adds_walls_only 1 2 [[0; 5000]]); [|lia|lia].
  split; [reflexivity|]. repeat constructor.
Defined.

(** * The solution drawn into the maze *)

Lemma set_direction_bits d c :
  valid_direction d = true ->
  Z.land (display_index (set_direction d c)) direction_bits = d.
Proof.
  intros Hd. rewrite set_direction_spec by done.
  unfold with_display. cbn [display_index].
  rewrite Z.land_lor_distr_l, (valid_direction_in_bits d Hd).
  assert (Z.land (Z.ldiff (display_index c) direction_bits) direction_bits = 0)
    as -> by bitwise.
  apply Z.lor_0_l.
Qed.

Lemma set_direction_attr d c : direction (set_direction d c) = direction c.
Proof. unfold set_direction. by destruct (negb _). Qed.

Lemma set_as_finish_shows b c : shows_finish (set_as_finish b c) = true.
Proof.
  unfold set_as_finish. fold (shows_finish c).
  assert (forall x, shows_finish x = true ->
            shows_finish (if b then set_direction go_nodir x
                          else set_direction go_none x) = true) as Hdir.
  { intros x Hx. destruct b.
    - by destruct (set_direction_keeps_captions go_nodir x) as [_ ->].
    - by destruct (set_direction_keeps_captions go_none x) as [_ ->]. }
  destruct (shows_finish c) eqn:Hf; simpl; [by apply Hdir|]. apply Hdir.
  change wi_start with (2 ^ 10). rewrite clear_bit_by_sub by lia.
  rewrite shows_finish_testbit in Hf. rewrite shows_finish_testbit.
  unfold with_display. cbn [display_index].
  rewrite add_disjoint_lor.
  2:{ change wi_finish with (2 ^ 11). apply Z.bits_inj'. intros n Hn.
      rewrite Z.land_spec, Z.ldiff_spec, Z.testbit_0_l, !Z.pow2_bits_eqb by lia.
      destruct (Z.eqb_spec 11 n) as [<-|]; [|apply andb_false_r].
      by rewrite Hf. }
  rewrite Z.lor_spec. change wi_finish with (2 ^ 11).
  rewrite Z.pow2_bits_eqb by lia. apply orb_true_r.
Qed.

Lemma set_as_finish_dot c :
  Z.land (display_index (set_as_finish true c)) direction_bits = go_nodir.
Proof. unfold set_as_finish. by apply set_direction_bits. Qed.

Lemma go_toward_valid a b d : go_toward a b = Some d -> valid_direction d = true.
Proof.
  unfold go_toward.
  repeat match goal with
  | |- context [if ?b then _ else _] => destruct b
  end; by intros [= <-].
Qed.

Lemma cell_call_get_same g a m m' c :
  cell_call g a m = (Ret tt, m') ->
  maze_get m (fst a) (snd a) = Some c ->
  maze_get m' (fst a) (snd a) = Some (g c).
Proof.
  unfold cell_call.
  destruct (maze_alter g m (fst a) (snd a)) as [m1|] eqn:Hm1; [|done].
  intros [= <-] Hc. by eapply maze_get_alter_same.
Qed.

Lemma cell_call_get_other g a m m' x :
  cell_call g a m = (Ret tt, m') ->
  in_bounds m a = true -> in_bounds m x = true -> x <> a ->
  maze_get m' (fst x) (snd x) = maze_get m (fst x) (snd x).
Proof.
  unfold cell_call.
  destruct (maze_alter g m (fst a) (snd a)) as [m1|] eqn:Hm1; [|done].
  intros [= <-] Ha Hx Hne.
  exact (maze_get_alter_other g m a x m1 Ha Hx Hm1 Hne).
Qed.

(** The loop [for cell in from_start: Maze[cell].set_direction(
    Maze[cell].direction)]. *)
Lemma direction_loop l :
  forall m m',
    (forall x, In x l -> in_bounds m x = true) ->
    for_each l (cell_call (fun c => set_direction (direction c) c)) m
    = (Ret tt, m') ->
    forall x c,
      in_bounds m x = true -> maze_get m (fst x) (snd x) = Some c ->
      exists c',
        maze_get m' (fst x) (snd x) = Some c' /\
        direction c' = direction c /\
        (In x l -> valid_direction (direction c) = true ->
         Z.land (display_index c') direction_bits = direction c) /\
        (~ In x l -> c' = c).
Proof.
  induction l as [|a l IH]; intros m m' Hl H x c Hx Hc.
  { injection H as <-. exists c. split; [done|]. split; [done|].
    split; [by intros []|done]. }
  simpl in H. apply bind_Ret_inv in H as ([] & m1 & H1 & H).
  assert (maze_rel same_search m m1) as Hrel.
  { eapply cell_call_rel; [|exact H1]. intros ?. apply set_direction_same. }
  assert (forall y, in_bounds m1 y = in_bounds m y) as Hin
    by (intros y; by apply (maze_rel_in_bounds _ _ _ _ Hrel)).
  assert (forall y, In y l -> in_bounds m1 y = true) as Hl1
    by (intros y Hy; rewrite Hin; apply Hl; by right).
  destruct (decide (x = a)) as [->|Hne].
  - pose proof (cell_call_get_same _ _ _ _ _ H1 Hc) as Hc1.
    destruct (IH m1 m' Hl1 H a _ (eq_trans (Hin a) Hx) Hc1)
      as (c' & Hc' & Hd & Hin' & Hout).
    rewrite set_direction_attr in Hd, Hin'.
    exists c'. split; [done|]. split; [done|]. split; [|by intros []; left].
    intros _ Hv. destruct (in_dec (fun u v => decide (u = v)) a l) as [Hal|Hal].
    + apply Hin'; [done|]. done.
    + rewrite (Hout Hal). by apply set_direction_bits.
  - assert (maze_get m1 (fst x) (snd x) = Some c) as Hc1.
    { rewrite <- Hc. eapply cell_call_get_other; [exact H1| |done|done].
      apply Hl. by left. }
    destruct (IH m1 m' Hl1 H x c (eq_trans (Hin x) Hx) Hc1)
      as (c' & Hc' & Hd & Hin' & Hout).
    exists c'. split; [done|]. split; [done|]. split.
    + intros [Hxa|Hxl]; [congruence|by apply Hin'].
    + intros Hn. apply Hout. intros Hxl. apply Hn. by right.
Qed.

Lemma In_removelast {A} (x : A) l : In x (removelast l) -> In x l.
Proof.
  induction l as [|u l IH]; [done|]. destruct l as [|v l]; [done|].
  change (removelast (u :: v :: l)) with (u :: removelast (v :: l)).
  intros [->|Hin]; [by left|right; by apply IH].
Qed.

Lemma NoDup_last_not_before (l : path) x :
  List.NoDup l -> last l = Some x -> ~ In x (removelast l).
Proof.
  induction l as [|a l IH]; [done|]. intros Hnd Hlast.
  destruct l as [|b l]; [by intros []|].
  change (removelast (a :: b :: l)) with (a :: removelast (b :: l)).
  apply NoDup_cons_iff in Hnd as [Ha Hnd].
  change (last (b :: l) = Some x) in Hlast.
  intros [->|Hin]; [|by apply (IH Hnd Hlast)].
  apply Ha. apply list_elem_of_In. by apply last_Some_elem_of.
Qed.

Lemma arrows_of_pointing mc me route :
  (forall a c,
     In a (removelast route) -> maze_get mc (fst a) (snd a) = Some c ->
     valid_direction (direction c) = true ->
     exists c', maze_get me (fst a) (snd a) = Some c' /\
                Z.land (display_index c') direction_bits = direction c) ->
  pointing mc route -> arrows me route.
Proof.
  induction route as [|a route IH]; [done|]. intros Hcells Hp.
  destruct route as [|b route]; [done|].
  destruct Hp as [(c & Hc & Hgo) Hp].
  change (removelast (a :: b :: route)) with (a :: removelast (b :: route))
    in Hcells.
  split.
  - destruct (Hcells a c) as (c' & Hc' & Hbits);
      [by left|done|by eapply go_toward_valid|].
    exists c'. by rewrite Hbits.
  - apply IH; [|done]. intros x cx Hx. apply Hcells. by right.
Qed.

(** X12.  When [solve_maze] reports a solution on an enclosed maze,
    there is a route of open unit steps from start to finish, without
    a repeated cell, such that in the maze left behind every cell of
    the route but the last displays exactly the arrow of the step to
    its successor, and the finish cell displays FINISH and the dot. *)
Theorem solved_maze_shows_route list_of_set cmd_entry m coordinates m' :
  enclosed m = true ->
  in_bounds m (CLProcessor.start_cell cmd_entry) = true ->
  in_bounds m (CLProcessor.finish_cell cmd_entry) = true ->
  solve_maze list_of_set cmd_entry m = (Ret (true, coordinates), m') ->
  exists q,
    linked m (CLProcessor.start_cell cmd_entry :: q) = true /\
    last (CLProcessor.start_cell cmd_entry :: q)
    = Some (CLProcessor.finish_cell cmd_entry) /\
    List.NoDup (CLProcessor.start_cell cmd_entry :: q) /\
    arrows m' (CLProcessor.start_cell cmd_entry :: q) /\
    exists c,
      maze_get m' (fst (CLProcessor.finish_cell cmd_entry))
                  (snd (CLProcessor.finish_cell cmd_entry)) = Some c /\
      shows_finish c = true /\
      Z.land (display_index c) direction_bits = go_nodir.
Proof.
  set (s := CLProcessor.start_cell cmd_entry).
  set (f := CLProcessor.finish_cell cmd_entry).
  intros Henc Hs Hf H.
  destruct (solve_maze_captions cmd_entry m Hs Hf) as (ma & mb & Ha & Hb & Hrel).
  fold s f in Ha, Hb.
  unfold solve_maze in H. cbv zeta in H. fold s f in H.
  rewrite (bind_ret_eq _ _ _ _ _ Ha), (bind_ret_eq _ _ _ _ _ Hb) in H.
  apply bind_Ret_inv in H as (found & mc & Hfind & H).
  assert (enclosed mb = true) as Hencb
    by (by rewrite (maze_rel_enclosed _ same_search_walls _ _ Hrel)).
  assert (forall x, in_bounds mb x = in_bounds m x) as Hinb
    by (intros x; by apply (maze_rel_in_bounds _ _ _ _ Hrel)).
  assert (in_bounds mb s = true) as Hsb by (by rewrite Hinb).
  destruct (run_navigate_explored s f mb Hencb Hsb)
    as (p & w1 & Hrun & Hle & _ & _ & new & _ & _ & Hq).
  rewrite find_paths_unfold, Hrun in Hfind.
  destruct Hq as [(q & -> & Hl & Hlast & Hnd & _ & Hpt)|(-> & _)].
  2:{ change (1 <? Z.of_nat (length [s])) with false in Hfind. cbv iota in Hfind.
      destruct (run_navigate f s (maze w1)) as [[[p2 ff]|e|] m2]; [|done|done].
      injection Hfind as <- <-.
      destruct (all_paths w1) as [|fs0 fs]; [done|].
      unfold call_find_suggestions in H.
      by destruct (find_suggestions _ _ _). }
  cbn [app] in Hfind. rewrite (length_gt_1 flag s) in Hfind.
  injection Hfind as <- <-.
  change (coord_eqb flag flag) with true in H. cbv iota in H.
  apply bind_Ret_inv in H as ([] & md & Hloop & H).
  apply bind_Ret_inv in H as ([] & me & Hfin & H).
  injection H as _ <-.
  assert (forall x, In x (s :: q) -> in_bounds (maze w1) x = true) as Hroute.
  { intros x Hx. rewrite (maze_le_in_bounds _ _ _ Hle).
    by apply (linked_in_bounds mb q Hencb s Hsb Hl). }
  assert (maze_rel same_search (maze w1) md) as Hreld.
  { eapply for_each_cell_call_rel; [|exact Hloop].
    intros c. apply set_direction_same. }
  assert (forall x, in_bounds md x = in_bounds m x) as Hind.
  { intros x. rewrite (maze_rel_in_bounds _ _ _ _ Hreld).
    by rewrite (maze_le_in_bounds _ _ _ Hle). }
  exists q. split; [by rewrite <- (maze_rel_linked _ same_search_walls _ _ _ Hrel)|].
  split; [done|]. split; [done|]. split.
  - apply (arrows_of_pointing (maze w1)); [|done].
    intros a c Hin Hc Hv.
    assert (In a (s :: q)) as Hain by (by apply In_removelast).
    destruct (direction_loop (s :: s :: q) (maze w1) md) with (x := a) (c := c)
      as (c' & Hc' & _ & Hbits & _); try done.
    { intros x [<-|Hx]; apply Hroute; [by left|done]. }
    { by apply Hroute. }
    exists c'. split; [|apply Hbits; [by right|done]].
    rewrite <- Hc'. eapply cell_call_get_other; [exact Hfin| | |].
    + by rewrite Hind.
    + rewrite Hind, <- Hinb, <- (maze_le_in_bounds _ _ _ Hle). by apply Hroute.
    + intros ->. by apply (NoDup_last_not_before (s :: q) f).
  - assert (in_bounds md f = true) as Hfd by (by rewrite Hind).
    destruct (in_bounds_get _ _ Hfd) as [cf Hcf].
    exists (set_as_finish true cf).
    split; [by eapply cell_call_get_same|].
    split; [apply set_as_finish_shows|apply set_as_finish_dot].
Qed.

Lemma solved_maze_shows_route_witness :
  exists q,
    linked open_pair ((0, 0) :: q) = true /\
    last ((0, 0) :: q) = Some (0, 1) /\
    List.NoDup ((0, 0) :: q) /\
    arrows (snd (solve_maze last_seen_first
                   {| CLProcessor.width := 2; CLProcessor.height := 1;
                      CLProcessor.start_cell := (0, 0);
                      CLProcessor.finish_cell := (0, 1) |} open_pair))
           ((0, 0) :: q) /\
    exists c,
      maze_get (snd (solve_maze last_seen_first
                       {| CLProcessor.width := 2; CLProcessor.height := 1;
                          CLProcessor.start_cell := (0, 0);
                          CLProcessor.finish_cell := (0, 1) |} open_pair))
               0 1 = Some c /\
      shows_finish c = true /\
      Z.land (display_index c) direction_bits = go_nodir.
Proof.
  apply (solved_maze_shows_route last_seen_first
           {| CLProcessor.width := 2; CLProcessor.height := 1;
              CLProcessor.start_cell := (0, 0);
              CLProcessor.finish_cell := (0, 1) |} open_pair []);
    reflexivity.
Defined.

(** * Further properties of the wall scanner *)

(** ** Invariants of the scanned grid *)

Lemma keeps_bind {A B} I (m : M scan_state A) (k : A -> M scan_state B) :
  keeps I m -> (forall a, keeps I (k a)) -> keeps I (bind m k).
Proof.
  intros Hm Hk st b st' HI H. apply bind_Ret_inv in H as (a & s1 & H1 & H2).
  eapply Hk; [|exact H2]. by eapply Hm.
Qed.

Lemma keeps_ret {A} I (a : A) : keeps I (ret a).
Proof. by intros st b st' HI [= _ <-]. Qed.

Lemma keeps_raise {A} I e : keeps I (@raise scan_state A e).
Proof. by intros st b st' HI. Qed.

Lemma keeps_for_each {A} I (l : list A) (body : A -> M scan_state unit) :
  (forall x, keeps I (body x)) -> keeps I (for_each l body).
Proof.
  intros Hbody. induction l as [|x l IH]; [apply keeps_ret|].
  simpl. apply keeps_bind; [apply Hbody|]. by intros _.
Qed.

Lemma keeps_set_scan_index P l : keeps (on_grid P) (set_scan_index l).
Proof. by intros st b st' HI [= _ <-]. Qed.

Lemma keeps_get_scan_index P : keeps (on_grid P) get_scan_index.
Proof. by intros st b st' HI [= _ <-]. Qed.

Lemma keeps_img_item P img r c : keeps (on_grid P) (img_item img r c).
Proof.
  unfold img_item. destruct (arr_get img r c); [apply keeps_ret|apply keeps_raise].
Qed.

Lemma keeps_check_divisor P d : keeps (on_grid P) (check_divisor d).
Proof.
  unfold check_divisor. destruct (d =? 0); [apply keeps_raise|apply keeps_ret].
Qed.

Lemma keeps_grid_update (P : list (list Z) -> Prop) f row col :
  (forall g g', P g -> arr_alter f g row col = Some g' -> P g') ->
  keeps (on_grid P) (grid_update f row col).
Proof.
  intros Hf st b st' HP. unfold grid_update.
  destruct (arr_alter f (Grid st) row col) as [g|] eqn:Hg; [|done].
  intros [= _ <-]. by eapply Hf.
Qed.

Lemma arr_alter_ok f h w row col g g' :
  (forall v, 0 <= v -> 0 <= f v) ->
  grid_ok h w g -> arr_alter f g row col = Some g' -> grid_ok h w g'.
Proof.
  intros Hf [[Hh Hw] Hpos]. unfold arr_alter, py_alter.
  destruct (py_index (length g) row) as [i|]; [|done].
  destruct (g !! i) as [r|] eqn:Hr; [|done].
  destruct (py_index (length r) col) as [k|]; [|done].
  intros [= <-].
  assert (length r = w) as Hlen.
  { rewrite Forall_forall in Hw. apply Hw. by eapply list_elem_of_lookup_2. }
  assert (Forall (fun v => 0 <= v) r) as Hrpos.
  { rewrite Forall_forall in Hpos. apply Hpos. by eapply list_elem_of_lookup_2. }
  split; [split|].
  - by rewrite length_insert.
  - apply Forall_insert; [done|]. by rewrite length_alter.
  - apply Forall_insert; [done|].
    apply Forall_alter; [done|]. intros v _ Hv. by apply Hf.
Qed.

Lemma py_index_zero n k : py_index n 0 = Some k -> k = 0%nat.
Proof.
  unfold py_index. destruct ((0 <=? 0) && (0 <? Z.of_nat n)); [by intros [= <-]|].
  change (0 <? 0) with false. by rewrite andb_false_r.
Qed.

Lemma arr_alter_low_bits f row col g g' :
  (col = 0 \/ forall v, Z.testbit (f v) 0 = Z.testbit v 0) ->
  (row = 0 \/ forall v, Z.testbit v 1 = false -> Z.testbit (f v) 1 = false) ->
  low_bits_ok g -> arr_alter f g row col = Some g' -> low_bits_ok g'.
Proof.
  intros H0 H1 Hg. unfold arr_alter, py_alter.
  destruct (py_index (length g) row) as [i|] eqn:Hi; [|done].
  destruct (g !! i) as [r|] eqn:Hr; [|done].
  destruct (py_index (length r) col) as [k|] eqn:Hk; [|done].
  intros [= <-] r' c' row' v' Hrow' Hv'.
  destruct (decide (r' = i)) as [->|Hne].
  2:{ rewrite list_lookup_insert_ne in Hrow' by done. by eapply Hg. }
  rewrite list_lookup_insert_eq in Hrow' by (by eapply lookup_lt_Some).
  injection Hrow' as <-.
  destruct (decide (c' = k)) as [->|Hnc].
  2:{ rewrite list_lookup_alter_ne in Hv' by done. by eapply Hg. }
  rewrite list_lookup_alter_eq in Hv'.
  destruct (r !! k) as [v|] eqn:Hv; [|done]. injection Hv' as <-.
  destruct (Hg _ _ _ _ Hr Hv) as [Hb0 Hb1]. split.
  - intros Hpos. destruct H0 as [->|H0].
    + apply py_index_zero in Hk. lia.
    + rewrite H0. by apply Hb0.
  - intros Hpos. destruct H1 as [->|H1].
    + apply py_index_zero in Hi. lia.
    + by apply H1, Hb1.
Qed.

Lemma low_bits_add4 v k j : 0 <= j < 2 -> Z.testbit (v + 4 * k) j = Z.testbit v j.
Proof.
  intros Hj. rewrite <- (Z.mod_pow2_bits_low (v + 4 * k) 2 j) by lia.
  rewrite <- (Z.mod_pow2_bits_low v 2 j) by lia.
  f_equal. change (2 ^ 2) with 4. rewrite Z.mul_comm. apply Z.mod_add. lia.
Qed.

Lemma low_bit_add2 v : Z.testbit (v + 2) 0 = Z.testbit v 0.
Proof.
  rewrite !Z.bit0_odd, Z.odd_add. by destruct (Z.odd v).
Qed.

Ltac keeps_steps tac :=
  repeat first
    [ apply keeps_ret | apply keeps_raise
    | apply keeps_set_scan_index | apply keeps_get_scan_index
    | apply keeps_img_item | apply keeps_check_divisor
    | apply keeps_grid_update; tac
    | apply keeps_for_each; intros
    | apply keeps_bind; [|intros]
    | match goal with
      | |- keeps _ (if ?b then _ else _) => destruct b
      | |- keeps _ (match ?l with [] => _ | _ :: _ => _ end) => destruct l
      end ].

Ltac grid_ok_step :=
  intros ? ?; apply arr_alter_ok; intros; lia.

Ltac low_bits_step :=
  intros ? ?; apply arr_alter_low_bits;
  first [ by left
        | right; intros;
          first [ done
                | apply (low_bits_add4 _ 1); lia
                | apply (low_bits_add4 _ 2); lia
                | apply low_bit_add2
                | rewrite (low_bits_add4 _ 1) by lia; done
                | rewrite (low_bits_add4 _ 2) by lia; done ] ].

Lemma grid_ok_row_scan h w img num_cols cell_width cell_height horiz_midpoint rows :
  keeps (on_grid (grid_ok h w))
        (row_scan img num_cols cell_width cell_height horiz_midpoint rows).
Proof.
  unfold row_scan, row_scan_body, record_vertical. cbv zeta.
  keeps_steps grid_ok_step.
Qed.

Lemma grid_ok_col_scan h w img num_rows cell_width cell_height vert_midpoint height cols :
  keeps (on_grid (grid_ok h w))
        (col_scan img num_rows cell_width cell_height vert_midpoint height cols).
Proof.
  unfold col_scan, col_scan_body. cbv zeta. keeps_steps grid_ok_step.
Qed.

Lemma low_bits_row_scan img num_cols cell_width cell_height horiz_midpoint rows :
  keeps (on_grid low_bits_ok)
        (row_scan img num_cols cell_width cell_height horiz_midpoint rows).
Proof.
  unfold row_scan, row_scan_body, record_vertical. cbv zeta.
  keeps_steps low_bits_step.
Qed.

Lemma low_bits_col_scan img num_rows cell_width cell_height vert_midpoint height cols :
  keeps (on_grid low_bits_ok)
        (col_scan img num_rows cell_width cell_height vert_midpoint height cols).
Proof.
  unfold col_scan, col_scan_body. cbv zeta. keeps_steps low_bits_step.
Qed.

Lemma read_maze_file_returns img width height grid :
  read_maze_file img width height = Ret grid ->
  1 <= width /\ 1 <= height /\
  grid_ok (Z.to_nat height) (Z.to_nat width) grid /\ low_bits_ok grid.
Proof.
  unfold read_maze_file. intros H.
  destruct (Z.ltb_spec width 0); [done|].
  destruct (Z.ltb_spec height 0); [done|]. simpl in H.
  destruct (Z.eqb_spec width 0); [done|].
  destruct (Z.eqb_spec height 0); [done|].
  split; [lia|]. split; [lia|]. cbv zeta in H.
  match type of H with
  | match ?scan ?st0 with _ => _ end = _ =>
      assert (keeps (on_grid (grid_ok (Z.to_nat height) (Z.to_nat width))) scan)
        as Hk;
      [|assert (keeps (on_grid low_bits_ok) scan) as Hl;
        [|destruct (scan st0) as [[[]|e|] st] eqn:Hscan; [|done|done];
          injection H as <-;
          split; [apply (Hk st0 tt st); [|done]|apply (Hl st0 tt st); [|done]]]]
  end.
  - apply keeps_bind; [|intros _]; apply keeps_for_each; intros x.
    + apply grid_ok_row_scan.
    + apply grid_ok_col_scan.
  - apply keeps_bind; [|intros _]; apply keeps_for_each; intros x.
    + apply low_bits_row_scan.
    + apply low_bits_col_scan.
  - split; [split|]; simpl.
    + by rewrite length_replicate.
    + apply Forall_replicate. by rewrite length_replicate.
    + apply Forall_replicate, Forall_replicate. lia.
  - intros r c row v Hrow Hv. simpl in Hrow.
    apply lookup_replicate in Hrow as [-> _].
    apply lookup_replicate in Hv as [-> _]. done.
Qed.

Lemma low_bits_entries h w grid :
  rectangular h w grid -> low_bits_ok grid ->
  forall r c, (r < h)%nat -> (c < w)%nat ->
    ((0 < c)%nat -> Z.land (entry grid r c) wi_left = 0) /\
    ((0 < r)%nat -> Z.land (entry grid r c) wi_top = 0).
Proof.
  intros [Hlen Hrows] Hlow r c Hr Hc.
  destruct (lookup_lt_is_Some_2 grid r) as [row Hrow]; [lia|].
  assert (length row = w) as Hlenr.
  { rewrite Forall_forall in Hrows. apply Hrows. by eapply list_elem_of_lookup_2. }
  destruct (lookup_lt_is_Some_2 row c) as [v Hv]; [lia|].
  assert (entry grid r c = v) as ->.
  { unfold entry. rewrite (nth_lookup_Some _ _ _ _ Hrow). by apply nth_lookup_Some. }
  destruct (Hlow _ _ _ _ Hrow Hv) as [H0 H1].
  split; intros Hp.
  - change wi_left with (2 ^ 0).
    pose proof (truthy_land_pow2 v 0 ltac:(lia)) as Ht.
    rewrite (H0 Hp) in Ht. unfold truthy in Ht.
    by apply negb_false_iff, Z.eqb_eq in Ht.
  - change wi_top with (2 ^ 1).
    pose proof (truthy_land_pow2 v 1 ltac:(lia)) as Ht.
    rewrite (H1 Hp) in Ht. unfold truthy in Ht.
    by apply negb_false_iff, Z.eqb_eq in Ht.
Qed.

(** X13.  Whenever [read_maze_file] returns, the maze dimensions are
    positive, the returned grid has exactly [height] rows of [width]
    entries, no entry is negative, the LEFT bit occurs only in
    column 0 and the TOP bit only in row 0. *)
Theorem read_maze_file_shape img width height grid :
  read_maze_file img width height = Ret grid ->
  1 <= width /\ 1 <= height /\
  length grid = Z.to_nat height /\
  Forall (fun row => length row = Z.to_nat width /\
                     Forall (fun v => 0 <= v) row) grid /\
  forall r c, (r < Z.to_nat height)%nat -> (c < Z.to_nat width)%nat ->
    ((0 < c)%nat -> Z.land (entry grid r c) wi_left = 0) /\
    ((0 < r)%nat -> Z.land (entry grid r c) wi_top = 0).
Proof.
  intros H.
  destruct (read_maze_file_returns img width height grid H)
    as (Hw & Hh & [[Hlen Hrows] Hpos] & Hlow).
  repeat (split; [done|]). split.
  - rewrite Forall_forall in Hrows, Hpos. apply Forall_forall. intros row Hrow.
    split; [by apply Hrows|by apply Hpos].
  - by apply low_bits_entries.
Qed.

Lemma read_maze_file_shape_witness :
  1 <= 2 /\ 1 <= 1 /\
  length [[9; 0]] = Z.to_nat 1 /\
  Forall (fun row => length row = Z.to_nat 2 /\
                     Forall (fun v => 0 <= v) row) [[9; 0]] /\
  forall r c, (r < Z.to_nat 1)%nat -> (c < Z.to_nat 2)%nat ->
    ((0 < c)%nat -> Z.land (entry [[9; 0]] r c) wi_left = 0) /\
    ((0 < r)%nat -> Z.land (entry [[9; 0]] r c) wi_top = 0).
Proof.
  apply (read_maze_file_shape image_one_row_maze 2 1). reflexivity.
Defined.

(** ** The maze that [process_maze] returns *)

Lemma assembled_enclosed h w G :
  (1 <= h)%nat -> (1 <= w)%nat -> enclosed (tab h w (assembled h w G)) = true.
Proof.
  intros Hh Hw. apply tab_enclosed; [done..|]. intros r c Hr Hc.
  destruct (assembled_boundary h w G r c) as (Ht & Hb & Hl & Hri).
  unfold boundary_ok. unfold has_wall in *.
  repeat (apply andb_true_iff; split).
  - destruct (Nat.eqb_spec r 0); [by apply Ht|done].
  - destruct (Nat.eqb_spec r (h - 1)); [by apply Hb|done].
  - destruct (Nat.eqb_spec c 0); [by apply Hl|done].
  - destruct (Nat.eqb_spec c (w - 1)); [by apply Hri|done].
Qed.

Lemma assembled_two_way h w G :
  (1 <= h)%nat ->
  (forall r c, (r < h)%nat -> (c < w)%nat ->
     ((0 < c)%nat -> Z.land (G r c) wi_left = 0) /\
     ((0 < r)%nat -> Z.land (G r c) wi_top = 0)) ->
  two_way (tab h w (assembled h w G)) = true.
Proof.
  intros Hh HG. apply tab_two_way; [done| |].
  - intros r c Hr Hc.
    destruct (HG r (S c) Hr Hc) as [Hscan _]. specialize (Hscan ltac:(lia)).
    rewrite assembled_left by lia. rewrite assembled_right by lia.
    rewrite propagated_left, Hscan. simpl.
    by replace (c - 0)%nat with c by lia.
  - intros r c Hr Hc.
    destruct (HG (S r) c Hr Hc) as [_ Hscan]. specialize (Hscan ltac:(lia)).
    rewrite assembled_top by lia. rewrite assembled_bottom by lia.
    rewrite propagated_top, Hscan. simpl.
    by replace (r - 0)%nat with r by lia.
Qed.

Lemma create_maze_returns h w grid m :
  rectangular h w grid -> (1 <= h)%nat -> (1 <= w)%nat ->
  create_maze grid = Ret m -> m = tab h w (assembled h w (entry grid)).
Proof.
  intros Hrect Hh Hw H.
  destruct (grid_entries_dec h w grid Hrect) as [Hok|[Hex _]].
  - rewrite (rectangular_tab _ _ grid Hrect) in H at 1.
    rewrite create_maze_tab in H by done. by injection H.
  - unfold create_maze in H. by rewrite (load_cells_fails _ Hex) in H.
Qed.

Lemma process_maze_returns img width height m :
  process_maze img width height = Ret m ->
  1 <= width /\ 1 <= height /\ has_shape m height width = true /\
  enclosed m = true /\ fresh m = true /\ two_way m = true /\
  cell_count m = (Z.to_nat height * Z.to_nat width)%nat /\
  forall a, in_bounds m a = negb (off_grid height width a).
Proof.
  unfold process_maze. intros H.
  destruct (read_maze_file img width height) as [grid|e|] eqn:Hread; [|done|done].
  destruct (read_maze_file_returns img width height grid Hread)
    as (Hw & Hh & [Hrect _] & Hlow).
  rewrite (create_maze_returns _ _ grid m Hrect) by (done || lia).
  split; [done|]. split; [done|].
  split.
  { apply has_shape_spec. destruct (tab_rectangular (Z.to_nat height)
      (Z.to_nat width) (assembled (Z.to_nat height) (Z.to_nat width) (entry grid)))
      as [Hlen Hrows].
    split; [rewrite Hlen; lia|].
    eapply Forall_impl; [exact Hrows|]. intros row ->. simpl. lia. }
  split; [apply assembled_enclosed; lia|].
  split; [apply tab_fresh; intros r c; apply assembled_visited|].
  split; [apply assembled_two_way; [lia|by apply low_bits_entries]|].
  split; [apply cell_count_tab|].
  intros a. rewrite in_bounds_tab. by rewrite !Z2Nat.id by lia.
Qed.

(** X14.  Every maze that [process_maze] returns is enclosed and
    fresh, has two-way walls and [height * width] cells, and its cells
    are exactly those with a row in [0, height) and a column in
    [0, width): whatever the image, the maze meets what the search
    relies on. *)
Theorem process_maze_ready img width height m :
  process_maze img width height = Ret m ->
  enclosed m = true /\ fresh m = true /\ two_way m = true /\
  cell_count m = (Z.to_nat height * Z.to_nat width)%nat /\
  forall a, in_bounds m a = negb (off_grid height width a).
Proof.
  intros H.
  by destruct (process_maze_returns img width height m H) as (_ & _ & _ & ?).
Qed.

Lemma process_maze_ready_witness :
  enclosed (tab 1 2 (assembled 1 2 (entry [[9; 0]]))) = true /\
  fresh (tab 1 2 (assembled 1 2 (entry [[9; 0]]))) = true /\
  two_way (tab 1 2 (assembled 1 2 (entry [[9; 0]]))) = true /\
  cell_count (tab 1 2 (assembled 1 2 (entry [[9; 0]])))
  = (Z.to_nat 1 * Z.to_nat 2)%nat /\
  forall a, in_bounds (tab 1 2 (assembled 1 2 (entry [[9; 0]]))) a
            = negb (off_grid 1 2 a).
Proof.
  apply (process_maze_ready image_one_row_maze 2 1). reflexivity.
Defined.

(** ** An image without walls *)

Lemma for_each_fixed {St A} (l : list A) (body : A -> M St unit) s :
  (forall x, In x l -> body x s = (Ret tt, s)) -> for_each l body s = (Ret tt, s).
Proof.
  induction l as [|x l IH]; intros H; [done|].
  simpl. rewrite (bind_ret_eq _ _ _ _ _ (H x (or_introl eq_refl))).
  apply IH. intros y Hy. apply H. by right.
Qed.

Lemma In_py_range x n : In x (py_range n) -> 0 <= x < n.
Proof.
  unfold py_range. intros H. apply in_map_iff in H as (k & <- & Hk).
  apply in_seq in Hk. lia.
Qed.

Lemma arr_get_in (img : list (list Z)) R C r c :
  rectangular R C img -> 0 <= r < Z.of_nat R -> 0 <= c < Z.of_nat C ->
  exists row v, arr_get img r c = Some v /\ In row img /\ In v row.
Proof.
  intros [HR HC] Hr Hc. unfold arr_get, py_get.
  rewrite HR, (py_index_nonneg R r Hr).
  destruct (lookup_lt_is_Some_2 img (Z.to_nat r)) as [row Hrow]; [lia|].
  rewrite Hrow.
  assert (length row = C) as Hlen.
  { rewrite Forall_forall in HC. apply HC. by eapply list_elem_of_lookup_2. }
  rewrite Hlen, (py_index_nonneg C c Hc).
  destruct (lookup_lt_is_Some_2 row (Z.to_nat c)) as [v Hv]; [lia|].
  exists row, v. split; [done|].
  split; apply list_elem_of_In; by eapply list_elem_of_lookup_2.
Qed.

Lemma scan_line_in_image n k i :
  1 <= n -> 1 <= k -> 0 <= i < k ->
  0 <= n / k / 2 + n / k * i < n.
Proof.
  intros Hn Hk Hi.
  pose proof (Z.mul_div_le n k ltac:(lia)) as Hle.
  pose proof (Z.div_pos n k ltac:(lia) ltac:(lia)) as Hpos.
  destruct (Z.eq_dec (n / k) 0) as [H0|H0].
  - rewrite H0. change (0 / 2) with 0. lia.
  - pose proof (Z.div_lt (n / k) 2 ltac:(lia) ltac:(lia)) as Hhalf.
    pose proof (Z.div_pos (n / k) 2 ltac:(lia) ltac:(lia)) as Hhpos.
    nia.
Qed.

(** X15.  An image without a black pixel has no wall: on a rectangular
    image with at least one pixel and positive maze dimensions,
    [read_maze_file] reads only pixels of the image, raises nothing and
    returns the all-zero grid. *)
Theorem blank_image_has_no_wall (img : list (list Z)) R C width height :
  rectangular R C img -> (1 <= R)%nat -> (1 <= C)%nat ->
  1 <= width -> 1 <= height ->
  Forall (Forall (fun v => v <> 0)) img ->
  read_maze_file img width height
  = Ret (replicate (Z.to_nat height) (replicate (Z.to_nat width) 0)).
Proof.
  intros Hrect HR HC Hw Hh Hblank. unfold read_maze_file.
  destruct (Z.ltb_spec width 0); [lia|]. destruct (Z.ltb_spec height 0); [lia|].
  destruct (Z.eqb_spec width 0); [lia|]. destruct (Z.eqb_spec height 0); [lia|].
  cbv zeta. simpl orb. cbv iota.
  assert (shape0 img = Z.of_nat R) as -> by (unfold shape0; by rewrite (proj1 Hrect)).
  assert (shape1 img = Z.of_nat C) as ->.
  { unfold shape1. destruct Hrect as [HlenR Hrows]. destruct img as [|row img].
    - simpl in HlenR. lia.
    - simpl. f_equal. by apply Forall_cons in Hrows as [-> _]. }
  set (st0 := {| Grid := replicate (Z.to_nat height) (replicate (Z.to_nat width) 0);
                 scan_index := [] |}).
  assert (forall r c, 0 <= r < Z.of_nat R -> 0 <= c < Z.of_nat C ->
            exists px, img_item img r c st0 = (Ret px, st0) /\ (px =? 0) = false)
    as Hpx.
  { intros r c Hr Hc.
    destruct (arr_get_in img R C r c Hrect Hr Hc) as (row & v & Hv & Hrow & Hin).
    exists v. unfold img_item. rewrite Hv. split; [done|].
    apply Z.eqb_neq. rewrite Forall_forall in Hblank.
    apply list_elem_of_In in Hrow. specialize (Hblank row Hrow).
    rewrite Forall_forall in Hblank. by apply Hblank, list_elem_of_In. }
  rewrite (bind_ret_eq _ _ st0 tt st0).
  2:{ apply for_each_fixed. intros rows Hrows. apply In_py_range in Hrows.
      unfold row_scan. cbv zeta.
      rewrite (bind_ret_eq _ _ st0 tt st0); [done|].
      apply for_each_fixed. intros scan Hscan. apply In_py_range in Hscan.
      unfold row_scan_body.
      destruct (Hpx (Z.of_nat R / height / 2 + Z.of_nat R / height * rows) scan)
        as (px & Hitem & Hne); [apply scan_line_in_image; lia|done|].
      rewrite (bind_ret_eq _ _ _ _ _ Hitem). cbn. by rewrite Hne. }
  rewrite for_each_fixed; [done|].
  intros cols Hcols. apply In_py_range in Hcols.
  unfold col_scan. cbv zeta.
  rewrite (bind_ret_eq _ _ st0 tt st0) by done.
  rewrite (bind_ret_eq _ _ st0 tt st0); [done|].
  apply for_each_fixed. intros scan Hscan. apply In_py_range in Hscan.
  unfold col_scan_body.
  destruct (Hpx scan (Z.of_nat C / width / 2 + Z.of_nat C / width * cols))
    as (px & Hitem & Hne); [done|apply scan_line_in_image; lia|].
  rewrite (bind_ret_eq _ _ _ _ _ Hitem). cbn. by rewrite Hne.
Qed.

Lemma blank_image_has_no_wall_witness :
  read_maze_file [[255; 255; 255]; [255; 255; 255]] 3 2
  = Ret (replicate (Z.to_nat 2) (replicate (Z.to_nat 3) 0)).
Proof.
  apply (blank_image_has_no_wall [[255; 255; 255]; [255; 255; 255]] 2 3 3 2);
    try lia.
  - split; [reflexivity|]. repeat constructor.
  - repeat constructor; lia.
Defined.

(** * The pipeline from image to answer *)

Lemma check_inputs_spec cmd_entry :
  1 <= CLProcessor.width cmd_entry -> 1 <= CLProcessor.height cmd_entry ->
  CLProcessor.check_inputs cmd_entry =
  if negb (off_grid (CLProcessor.width cmd_entry) (CLProcessor.height cmd_entry)
             (CLProcessor.start_cell cmd_entry))
     && negb (off_grid (CLProcessor.width cmd_entry) (CLProcessor.height cmd_entry)
                (CLProcessor.finish_cell cmd_entry))
  then inr tt else inl ValueError.
Proof.
  intros Hw Hh. unfold CLProcessor.check_inputs, CLProcessor.in_range, off_grid.
  destruct (Z.ltb_spec (CLProcessor.width cmd_entry) 1); [lia|].
  destruct (Z.ltb_spec (CLProcessor.height cmd_entry) 1); [lia|].
  rewrite !negb_involutive.
  repeat match goal with
  | |- context [?a <=? ?b] => destruct (a <=? b)
  | |- context [?a <? ?b] => destruct (a <? b)
  end; reflexivity.
Qed.

Lemma off_grid_beyond h w a :
  off_grid w h a = false -> off_grid h w a = true -> beyond_index h w a = true.
Proof.
  unfold off_grid, beyond_index. intros Ht Hoff.
  apply negb_false_iff in Ht. apply negb_true_iff in Hoff.
  repeat (apply andb_true_iff in Ht as [Ht ?]).
  apply negb_true_iff.
  repeat match goal with
  | H : (?a <=? ?b) = true |- _ => apply Z.leb_le in H
  | H : (?a <? ?b) = true |- _ => apply Z.ltb_lt in H
  end.
  apply Z.leb_le in Ht.
  repeat match goal with
  | |- context [?a <=? ?b] => destruct (Z.leb_spec a b)
  | |- context [?a <? ?b] => destruct (Z.ltb_spec a b)
  | H : context [?a <=? ?b] |- _ => destruct (Z.leb_spec a b)
  | H : context [?a <? ?b] |- _ => destruct (Z.ltb_spec a b)
  end; simpl in *; try done; lia.
Qed.

(** X16.  What a validated run does on a maze that [process_maze]
    built from an image.  With start and finish cells (row, col):
    - [__check_inputs] tests the row against the width and the column
      against the height; an entry that fails this test ends in
      ValueError, also when its cells are on the grid;
    - an entry that passes it with a cell off the grid ends in
      IndexError from [solve_maze];
    - for every other entry, whatever the run returns is the right
      answer: solved exactly when a route of open unit steps leads from
      start to finish, and otherwise the suggestions are exactly the
      walls between a cell reachable from the start and a cell
      reachable from the finish. *)
Theorem solve_on_processed_maze list_of_set cmd_entry img m :
  set_listing list_of_set ->
  process_maze img (CLProcessor.width cmd_entry) (CLProcessor.height cmd_entry)
  = Ret m ->
  (off_grid (CLProcessor.width cmd_entry) (CLProcessor.height cmd_entry)
     (CLProcessor.start_cell cmd_entry)
   || off_grid (CLProcessor.width cmd_entry) (CLProcessor.height cmd_entry)
        (CLProcessor.finish_cell cmd_entry) = true ->
   solve list_of_set cmd_entry m = (Raise ValueError, m)) /\
  (off_grid (CLProcessor.width cmd_entry) (CLProcessor.height cmd_entry)
     (CLProcessor.start_cell cmd_entry)
   || off_grid (CLProcessor.width cmd_entry) (CLProcessor.height cmd_entry)
        (CLProcessor.finish_cell cmd_entry) = false ->
   (off_grid (CLProcessor.height cmd_entry) (CLProcessor.width cmd_entry)
      (CLProcessor.start_cell cmd_entry)
    || off_grid (CLProcessor.height cmd_entry) (CLProcessor.width cmd_entry)
         (CLProcessor.finish_cell cmd_entry) = true ->
    exists m', solve list_of_set cmd_entry m = (Raise IndexError, m')) /\
   (off_grid (CLProcessor.height cmd_entry) (CLProcessor.width cmd_entry)
      (CLProcessor.start_cell cmd_entry)
    || off_grid (CLProcessor.height cmd_entry) (CLProcessor.width cmd_entry)
         (CLProcessor.finish_cell cmd_entry) = false ->
    forall solved coordinates m',
      solve list_of_set cmd_entry m = (Ret (solved, coordinates), m') ->
      (solved = true <->
       reachable m (CLProcessor.start_cell cmd_entry)
                   (CLProcessor.finish_cell cmd_entry)) /\
      forall row col wall,
        In (row, col, wall) coordinates <->
        ~ reachable m (CLProcessor.start_cell cmd_entry)
                      (CLProcessor.finish_cell cmd_entry) /\
        is_wall wall = true /\
        reachable m (CLProcessor.start_cell cmd_entry) (row, col) /\
        reachable m (CLProcessor.finish_cell cmd_entry)
                    (across (row, col) wall))).
Proof.
  intros Hset Hproc.
  destruct (process_maze_returns _ _ _ _ Hproc)
    as (Hw & Hh & Hshape & Henc & Hfresh & Htw & Hcount & Hin).
  unfold solve. rewrite (check_inputs_spec cmd_entry Hw Hh).
  set (w := CLProcessor.width cmd_entry) in *.
  set (h := CLProcessor.height cmd_entry) in *.
  set (s := CLProcessor.start_cell cmd_entry) in *.
  set (f := CLProcessor.finish_cell cmd_entry) in *.
  split.
  { intros Hbad. apply orb_true_iff in Hbad.
    destruct (off_grid w h s); [done|]. destruct (off_grid w h f); [done|].
    by destruct Hbad. }
  intros Hok. apply orb_false_iff in Hok as [Hs Hf]. rewrite Hs, Hf. simpl.
  split.
  - intros Hoff.
    pose proof (solve_maze_beyond list_of_set cmd_entry m Hshape) as Hb.
    cbv zeta in Hb. fold w h s f in Hb.
    destruct (solve_maze list_of_set cmd_entry m) as [o m'] eqn:Hsolve.
    exists m'. simpl in Hb. rewrite Hb; [done|].
    apply orb_true_iff in Hoff as [Hoff|Hoff]; apply orb_true_iff;
      [left|right]; by apply off_grid_beyond.
  - intros Hon solved coordinates m' Hrun.
    apply orb_false_iff in Hon as [Hs' Hf'].
    apply (solve_maze_answer list_of_set cmd_entry m Hset Henc Hfresh Htw)
      with (m' := m'); try done.
    + fold s. by rewrite Hin, Hs'.
    + fold f. by rewrite Hin, Hf'.
Qed.

Lemma solve_on_processed_maze_witness :
  (off_grid 2 1 (0, 0) || off_grid 2 1 (0, 1) = true ->
   solve last_seen_first
     {| CLProcessor.width := 2; CLProcessor.height := 1;
        CLProcessor.start_cell := (0, 0); CLProcessor.finish_cell := (0, 1) |}
     (tab 1 2 (assembled 1 2 (entry [[9; 0]])))
   = (Raise ValueError, tab 1 2 (assembled 1 2 (entry [[9; 0]])))) /\
  (off_grid 2 1 (0, 0) || off_grid 2 1 (0, 1) = false ->
   (off_grid 1 2 (0, 0) || off_grid 1 2 (0, 1) = true ->
    exists m',
      solve last_seen_first
        {| CLProcessor.width := 2; CLProcessor.height := 1;
           CLProcessor.start_cell := (0, 0); CLProcessor.finish_cell := (0, 1) |}
        (tab 1 2 (assembled 1 2 (entry [[9; 0]])))
      = (Raise IndexError, m')) /\
   (off_grid 1 2 (0, 0) || off_grid 1 2 (0, 1) = false ->
    forall solved coordinates m',
      solve last_seen_first
        {| CLProcessor.width := 2; CLProcessor.height := 1;
           CLProcessor.start_cell := (0, 0); CLProcessor.finish_cell := (0, 1) |}
        (tab 1 2 (assembled 1 2 (entry [[9; 0]])))
      = (Ret (solved, coordinates), m') ->
      (solved = true <->
       reachable (tab 1 2 (assembled 1 2 (entry [[9; 0]]))) (0, 0) (0, 1)) /\
      forall row col wall,
        In (row, col, wall) coordinates <->
        ~ reachable (tab 1 2 (assembled 1 2 (entry [[9; 0]]))) (0, 0) (0, 1) /\
        is_wall wall = true /\
        reachable (tab 1 2 (assembled 1 2 (entry [[9; 0]]))) (0, 0) (row, col) /\
        reachable (tab 1 2 (assembled 1 2 (entry [[9; 0]]))) (0, 1)
                  (across (row, col) wall))).
Proof.
  apply (solve_on_processed_maze last_seen_first
           {| CLProcessor.width := 2; CLProcessor.height := 1;
              CLProcessor.start_cell := (0, 0); CLProcessor.finish_cell := (0, 1) |}
           image_one_row_maze).
  - apply last_seen_first_listing.
  - reflexivity.
Defined.

(** * Properties of circle_wall *)

Lemma is_wall_cases w :
  is_wall w = true ->
  w = wi_left \/ w = wi_top \/ w = wi_right \/ w = wi_bottom.
Proof.
  unfold is_wall. intros H.
  repeat (apply orb_true_iff in H as [H|H]);
    apply Z.eqb_eq in H; tauto.
Qed.

Lemma circle_wall_defined row col wall thickness :
  is_wall wall = true <-> exists e, circle_wall row col wall thickness = Some e.
Proof.
  split.
  - intros H. destruct (is_wall_cases wall H) as [->|[->|[->| ->]]];
      by eexists.
  - intros [e He]. unfold circle_wall, is_wall in *.
    destruct (wall =? wi_left); [done|]. destruct (wall =? wi_top); [done|].
    destruct (wall =? wi_right); [done|]. by destruct (wall =? wi_bottom).
Qed.

(** X17.  [circle_wall] is defined exactly for the four wall masks, so
    the drawing loop of [solve_maze] never meets the unbound local:
    every triple that [find_suggestions] returns has such a mask.  And
    a wall is circled the same way whichever of its two cells names
    it: the ellipse for (row, col, wall) is the ellipse for the cell
    across that wall with the opposite mask. *)
Theorem circle_wall_accepts_suggestions :
  (forall list_of_set from_start from_finish coordinates row col wall thickness,
     set_listing list_of_set ->
     find_suggestions list_of_set from_start from_finish = Ret coordinates ->
     In (row, col, wall) coordinates ->
     exists e, circle_wall row col wall thickness = Some e) /\
  (forall row col wall thickness,
     (exists e, circle_wall row col wall thickness = Some e) <->
     is_wall wall = true) /\
  (forall row col wall thickness,
     is_wall wall = true ->
     circle_wall row col wall thickness
     = circle_wall (fst (across (row, col) wall)) (snd (across (row, col) wall))
                   (opposite_wall wall) thickness).
Proof.
  split; [|split].
  - intros los fs ff coords row col wall t Hset Hfind Hin.
    apply circle_wall_defined.
    unfold find_suggestions in Hfind.
    destruct (collect_coordinates fs ff []) as [[[]|e|] raw] eqn:Hraw;
      [|done|done].
    injection Hfind as <-. rewrite (proj2 (Hset raw)) in Hin.
    by apply (collected_members _ _ _ Hraw) in Hin as [Hw _].
  - intros row col wall t. symmetry. apply circle_wall_defined.
  - intros row col wall t H.
    destruct (is_wall_cases wall H) as [->|[->|[->| ->]]];
      unfold circle_wall, across, opposite_wall; simpl; repeat f_equal; lia.
Qed.

(** * Suggestions are the walls to remove *)

Lemma solve_maze_solved list_of_set cmd_entry m :
  enclosed m = true -> fresh m = true ->
  in_bounds m (CLProcessor.start_cell cmd_entry) = true ->
  in_bounds m (CLProcessor.finish_cell cmd_entry) = true ->
  reachable m (CLProcessor.start_cell cmd_entry)
              (CLProcessor.finish_cell cmd_entry) ->
  exists m', solve_maze list_of_set cmd_entry m = (Ret (true, []), m').
Proof.
  set (s := CLProcessor.start_cell cmd_entry).
  set (f := CLProcessor.finish_cell cmd_entry).
  intros Henc Hfresh Hs Hf Hr.
  destruct (solve_maze_captions cmd_entry m Hs Hf) as (ma & mb & Ha & Hb & Hrel).
  fold s f in Ha, Hb. unfold solve_maze. cbv zeta. fold s f.
  rewrite (bind_ret_eq _ _ _ _ _ Ha), (bind_ret_eq _ _ _ _ _ Hb).
  assert (enclosed mb = true) as Hencb
    by (by rewrite (maze_rel_enclosed _ same_search_walls _ _ Hrel)).
  assert (fresh mb = true) as Hfreshb by (by rewrite (same_search_fresh _ _ Hrel)).
  assert (forall x, in_bounds mb x = in_bounds m x) as Hinb
    by (intros x; by apply (maze_rel_in_bounds _ _ _ _ Hrel)).
  assert (in_bounds mb s = true) as Hsb by (by rewrite Hinb).
  destruct (forward_run mb s f Hencb Hfreshb Hsb)
    as (p & w1 & Hrun & Hle & [(q & -> & Hl & Hlast & _)|(-> & Hno & _)]).
  2:{ exfalso. apply Hno.
      by apply (maze_rel_reachable _ same_search_walls _ _ _ _ Hrel). }
  assert (find_paths s f mb = (Ret (FoundPath (flag :: s :: s :: q)), maze w1))
    as Hfind by (by rewrite find_paths_unfold, Hrun, length_gt_1).
  rewrite (bind_ret_eq _ _ _ _ _ Hfind).
  change (coord_eqb flag flag) with true. cbv iota.
  destruct (for_each_cell_call_runs
              (fun c => set_direction (direction c) c) (s :: s :: q)
              (fun c => set_direction_same (direction c) c) (maze w1))
    as (md & Hloop).
  { intros x Hx. rewrite (maze_le_in_bounds _ _ _ Hle).
    apply (linked_in_bounds mb q Hencb s Hsb Hl).
    destruct Hx as [<-|Hx]; [by left|done]. }
  rewrite (bind_ret_eq _ _ _ _ _ Hloop).
  destruct (cell_call_runs (set_as_finish true) f md (set_as_finish_same true))
    as (me & Hfin & _).
  { rewrite (maze_rel_in_bounds same_search (maze w1) md).
    - by rewrite (maze_le_in_bounds _ _ _ Hle), Hinb.
    - eapply for_each_cell_call_rel; [|exact Hloop].
      intros c. apply set_direction_same. }
  rewrite (bind_ret_eq _ _ _ _ _ Hfin). by exists me.
Qed.

Lemma solve_maze_true_reachable list_of_set cmd_entry m coordinates m' :
  enclosed m = true ->
  in_bounds m (CLProcessor.start_cell cmd_entry) = true ->
  in_bounds m (CLProcessor.finish_cell cmd_entry) = true ->
  solve_maze list_of_set cmd_entry m = (Ret (true, coordinates), m') ->
  reachable m (CLProcessor.start_cell cmd_entry)
              (CLProcessor.finish_cell cmd_entry).
Proof.
  set (s := CLProcessor.start_cell cmd_entry).
  set (f := CLProcessor.finish_cell cmd_entry).
  intros Henc Hs Hf H.
  destruct (solve_maze_captions cmd_entry m Hs Hf) as (ma & mb & Ha & Hb & Hrel).
  fold s f in Ha, Hb.
  unfold solve_maze in H. cbv zeta in H. fold s f in H.
  rewrite (bind_ret_eq _ _ _ _ _ Ha), (bind_ret_eq _ _ _ _ _ Hb) in H.
  apply bind_Ret_inv in H as (found & mc & Hfind & H).
  assert (enclosed mb = true) as Hencb
    by (by rewrite (maze_rel_enclosed _ same_search_walls _ _ Hrel)).
  assert (in_bounds mb s = true) as Hsb
    by (by rewrite (maze_rel_in_bounds _ _ _ _ Hrel)).
  destruct (run_navigate_explored s f mb Hencb Hsb)
    as (p & w1 & Hrun & Hle & _ & _ & new & _ & _ & Hq).
  rewrite find_paths_unfold, Hrun in Hfind.
  destruct Hq as [(q & -> & Hl & Hlast & _)|(-> & _)].
  - apply (maze_rel_reachable _ same_search_walls _ _ _ _ Hrel). by exists q.
  - change (1 <? Z.of_nat (length [s])) with false in Hfind. cbv iota in Hfind.
    destruct (run_navigate f s (maze w1)) as [[[p2 ff]|e|] m2]; [|done|done].
    injection Hfind as <- <-.
    destruct (all_paths w1) as [|fs0 fs]; [done|].
    unfold call_find_suggestions in H.
    by destruct (find_suggestions _ _ _).
Qed.

(** ** A maze with one wall taken out of one cell *)

Lemma maze_rel_fresh (R : Cell -> Cell -> Prop) m m' :
  (forall c c', R c c' -> visited c' = visited c) ->
  maze_rel R m m' -> fresh m' = fresh m.
Proof.
  intros HR. induction 1 as [|r r' m m' Hr _ IH]; [done|].
  unfold fresh in *. simpl. rewrite IH. f_equal.
  induction Hr as [|c c' r r' Hc _ IHr]; [done|].
  simpl. by rewrite IHr, (HR _ _ Hc).
Qed.

Lemma enclosed_shape m :
  enclosed m = true ->
  has_shape m (Z.of_nat (length m)) (Z.of_nat (length (hd [] m))) = true /\
  (1 <= length m)%nat /\ (1 <= length (hd [] m))%nat.
Proof.
  intros H. unfold enclosed in H. cbv zeta in H. rewrite !length_map in H.
  assert (length (hd [] (map (map wall_index) m)) = length (hd [] m)) as Hw
    by (destruct m; [done|apply length_map]).
  rewrite Hw in H.
  apply andb_true_iff in H as [H _]. apply andb_true_iff in H as [H Hrows].
  apply andb_true_iff in H as [Hh Hw1].
  apply Nat.leb_le in Hh, Hw1. split; [|done].
  apply has_shape_spec. split; [done|].
  rewrite forallb_forall in Hrows. apply Forall_forall. intros row Hrow.
  f_equal. apply list_elem_of_In in Hrow.
  specialize (Hrows (map wall_index row) (in_map _ _ _ Hrow)).
  apply Nat.eqb_eq in Hrows. by rewrite length_map in Hrows.
Qed.

Lemma enclosed_intro m :
  has_shape m (Z.of_nat (length m)) (Z.of_nat (length (hd [] m))) = true ->
  (1 <= length m)%nat -> (1 <= length (hd [] m))%nat ->
  (forall r c x, cell_at m r c = Some x ->
     boundary_ok (length m) (length (hd [] m)) r c (wall_index x) = true) ->
  enclosed m = true.
Proof.
  intros Hshape Hh Hw Hb. apply has_shape_spec in Hshape as [_ Hrows].
  unfold enclosed. cbv zeta. rewrite !length_map.
  assert (length (hd [] (map (map wall_index) m)) = length (hd [] m)) as ->
    by (destruct m; [done|apply length_map]).
  repeat (apply andb_true_iff; split).
  - by apply Nat.leb_le.
  - by apply Nat.leb_le.
  - apply forallb_forall. intros row Hrow.
    apply in_map_iff in Hrow as (row0 & <- & Hrow0).
    rewrite Forall_forall in Hrows. apply list_elem_of_In in Hrow0.
    specialize (Hrows row0 Hrow0). apply Nat.eqb_eq. rewrite length_map. lia.
  - apply forallb_forall. intros r Hr. apply in_seq in Hr.
    apply forallb_forall. intros c Hc. apply in_seq in Hc.
    destruct (lookup_lt_is_Some_2 m r) as [row Hrow]; [lia|].
    assert (length row = length (hd [] m)) as Hlen.
    { rewrite Forall_forall in Hrows.
      specialize (Hrows row (list_elem_of_lookup_2 _ _ _ Hrow)). lia. }
    destruct (lookup_lt_is_Some_2 row c) as [x Hx]; [lia|].
    assert (cell_at m r c = Some x) as Hcell by (unfold cell_at; by rewrite Hrow).
    assert (entry (map (map wall_index) m) r c = wall_index x) as ->;
      [|by apply Hb].
    unfold entry.
    rewrite (nth_lookup_Some (map (map wall_index) m) r [] (map wall_index row)).
    2:{ change (map (map wall_index) m) with (fmap (M:=list) (map wall_index) m).
        by rewrite list_lookup_fmap, Hrow. }
    apply nth_lookup_Some.
    change (map wall_index row) with (wall_index <$> row).
    by rewrite list_lookup_fmap, Hx.
Qed.

Lemma across_wall_toward a w :
  is_wall w = true -> wall_toward a (across a w) = Some w.
Proof.
  intros H. destruct (is_wall_cases w H) as [->|[->|[->| ->]]]; unfold across;
    simpl.
  - apply wall_toward_left.
  - apply wall_toward_up.
  - apply wall_toward_right.
  - apply wall_toward_down.
Qed.

Lemma wall_toward_across a b w : wall_toward a b = Some w -> b = across a w.
Proof.
  intros H.
  destruct (wall_toward_cases _ _ _ H) as [[-> ->]|[[-> ->]|[[-> ->]|[-> ->]]]];
    reflexivity.
Qed.

Lemma wall_toward_is_wall a b w : wall_toward a b = Some w -> is_wall w = true.
Proof.
  intros H.
  destruct (wall_toward_cases _ _ _ H) as [[-> _]|[[-> _]|[[-> _]|[-> _]]]];
    reflexivity.
Qed.

Lemma land_ldiff_disjoint x w k :
  Z.land w k = 0 -> Z.land (Z.ldiff x w) k = Z.land x k.
Proof.
  intros H. apply Z.bits_inj'. intros n Hn.
  rewrite !Z.land_spec, Z.ldiff_spec.
  assert (Z.testbit w n && Z.testbit k n = false) as Hwk
    by (rewrite <- Z.land_spec, H; apply Z.testbit_0_l).
  by destruct (Z.testbit x n), (Z.testbit w n), (Z.testbit k n).
Qed.

Lemma land_ldiff_zero x w k : Z.land x k = 0 -> Z.land (Z.ldiff x w) k = 0.
Proof.
  intros H. apply Z.bits_inj'. intros n Hn.
  rewrite !Z.land_spec, Z.ldiff_spec, Z.testbit_0_l.
  assert (Z.testbit x n && Z.testbit k n = false) as Hxk
    by (rewrite <- Z.land_spec, H; apply Z.testbit_0_l).
  by destruct (Z.testbit x n), (Z.testbit w n), (Z.testbit k n).
Qed.

Lemma distinct_walls w k :
  is_wall w = true -> is_wall k = true -> w <> k -> Z.land w k = 0.
Proof.
  intros Hw Hk Hne.
  destruct (is_wall_cases w Hw) as [->|[->|[->| ->]]];
    destruct (is_wall_cases k Hk) as [->|[->|[->| ->]]]; done.
Qed.

Lemma maze_alter_ext f g m row col c :
  maze_get m row col = Some c -> f c = g c ->
  maze_alter f m row col = maze_alter g m row col.
Proof.
  unfold maze_get, maze_alter, py_get, py_alter. intros Hc Hfg.
  destruct (py_index (length m) row) as [i|]; [|done].
  destruct (m !! i) as [r|]; [|done].
  destruct (py_index (length r) col) as [k|]; [|done].
  do 2 f_equal. apply list_alter_ext; [|done].
  intros x Hx. congruence.
Qed.

Lemma remove_wall_open_cell w c :
  is_wall w = true -> remove_wall w c = inr (open_cell w c).
Proof.
  intros Hw. unfold remove_wall. destruct (Z.ltb_spec 16 w) as [Hgt|_]; [|done].
  destruct (is_wall_cases w Hw) as [->|[->|[->| ->]]]; done.
Qed.

Lemma open_cell_opens w c : opens w c (open_cell w c).
Proof.
  split; [done|]. intros k Hk. simpl. rewrite sub_land_ldiff.
  by apply land_ldiff_zero.
Qed.

Lemma opens_refl w c : opens w c c.
Proof. by split. Qed.

Section OneWallOut.
Variables (m m1 : Maze) (a : coord) (w : Z).
Hypothesis Henc : enclosed m = true.
Hypothesis Ha : in_bounds m a = true.
Hypothesis Hb : in_bounds m (across a w) = true.
Hypothesis Hw : is_wall w = true.
Hypothesis Hm1 : maze_alter (open_cell w) m (fst a) (snd a) = Some m1.

Lemma opened_rel : maze_rel (opens w) m m1.
Proof.
  eapply maze_alter_rel; [apply opens_refl|apply open_cell_opens|exact Hm1].
Qed.

Lemma opened_in_bounds x : in_bounds m1 x = in_bounds m x.
Proof. apply (maze_rel_in_bounds _ _ _ _ opened_rel). Qed.

Lemma opened_fresh : fresh m1 = fresh m.
Proof. apply (maze_rel_fresh (opens w)); [by intros ? ? []|apply opened_rel]. Qed.

Lemma opened_passable x y : passable m x y = true -> passable m1 x y = true.
Proof.
  unfold passable. destruct (wall_toward x y) as [wi|]; [|done].
  destruct (maze_get m (fst x) (snd x)) as [c|] eqn:Hc; [|done].
  destruct (maze_rel_get_l _ _ _ _ _ _ opened_rel Hc) as (c' & -> & _ & Hwalls).
  intros H. apply negb_true_iff in H. apply negb_true_iff.
  unfold truthy in *. apply negb_false_iff, Z.eqb_eq in H.
  apply negb_false_iff, Z.eqb_eq. by apply Hwalls.
Qed.

Lemma opened_linked q : linked m q = true -> linked m1 q = true.
Proof.
  induction q as [|x q IH]; [done|]. simpl. destruct q as [|y q]; [done|].
  intros H. apply andb_true_iff in H as [Hs Hl].
  unfold step_ok in *. apply andb_true_iff in Hs as [Hadj Hp].
  by rewrite Hadj, (opened_passable _ _ Hp), (IH Hl).
Qed.

Lemma opened_reachable x y : reachable m x y -> reachable m1 x y.
Proof. intros (q & Hl & Hlast). exists q. split; [by apply opened_linked|done]. Qed.

Lemma opened_step : step_ok m1 a (across a w) = true.
Proof.
  unfold step_ok, passable.
  rewrite (wall_toward_adjacent _ _ _ (across_wall_toward a w Hw)).
  rewrite (across_wall_toward a w Hw). simpl.
  destruct (in_bounds_get _ _ Ha) as [c Hc].
  rewrite (maze_get_alter_same _ _ _ _ _ _ Hc Hm1). simpl.
  rewrite sub_land_ldiff. apply negb_true_iff. unfold truthy.
  apply negb_false_iff, Z.eqb_eq. apply Z.bits_inj'. intros n Hn.
  rewrite Z.land_spec, Z.ldiff_spec, Z.testbit_0_l.
  by destruct (Z.testbit (wall_index c) n), (Z.testbit w n).
Qed.

Lemma opened_step_back x y :
  in_bounds m x = true -> step_ok m1 x y = true ->
  step_ok m x y = true \/ (x = a /\ y = across a w).
Proof.
  intros Hx H. unfold step_ok in *. apply andb_true_iff in H as [Hadj Hp].
  rewrite Hadj. simpl. unfold passable in *.
  destruct (wall_toward x y) as [wi|] eqn:Hwi; [|done].
  destruct (decide (x = a)) as [->|Hne].
  - destruct (in_bounds_get _ _ Ha) as [c Hc].
    rewrite (maze_get_alter_same _ _ _ _ _ _ Hc Hm1) in Hp. rewrite Hc.
    simpl in Hp. rewrite sub_land_ldiff in Hp.
    destruct (decide (wi = w)) as [->|Hnw].
    + right. split; [done|]. by apply wall_toward_across.
    + left. rewrite land_ldiff_disjoint in Hp; [done|].
      apply distinct_walls; [done| |done]. by eapply wall_toward_is_wall.
  - left. by rewrite (maze_get_alter_other _ _ _ _ _ Ha Hx Hm1 Hne) in Hp.
Qed.

Lemma opened_enclosed : enclosed m1 = true.
Proof.
  destruct (enclosed_shape m Henc) as (Hshape & Hh & Hwd).
  pose proof (maze_alter_shape _ _ _ _ _ _ _ Hshape Hm1) as Hshape1.
  assert (length m1 = length m) as Hlen
    by (apply has_shape_spec in Hshape1 as [Hl _]; lia).
  assert (length (hd [] m1) = length (hd [] m)) as Hlenw.
  { apply has_shape_spec in Hshape1 as [_ Hrows].
    destruct m1 as [|row m1']; [simpl in Hlen; lia|].
    apply Forall_cons in Hrows as [Hrow _]. simpl. lia. }
  apply enclosed_intro; rewrite ?Hlen, ?Hlenw; try done.
  intros r c x Hx.
  destruct (enclosed_spec m Henc) as (_ & Hbound).
  pose proof Ha as Ha'. apply in_bounds_nat in Ha' as (ra & ca & xa & Hae & Hxa).
  rewrite Hae in Hm1. simpl in Hm1.
  rewrite (cell_at_alter _ _ _ _ _ Hm1) in Hx.
  destruct (decide (r = ra /\ c = ca)) as [[-> ->]|Hne].
  2:{ by destruct (Hbound _ _ _ Hx) as (_ & _ & ?). }
  rewrite Hxa in Hx. injection Hx as <-.
  destruct (Hbound _ _ _ Hxa) as (Hr & Hc & Hok).
  pose proof Hb as Hb'. apply in_bounds_nat in Hb' as (rb & cb & xb & Hbe & Hxb).
  destruct (Hbound _ _ _ Hxb) as (Hrb & Hcb & _).
  rewrite Hae in Hbe. unfold boundary_ok in *. simpl. rewrite sub_land_ldiff.
  apply andb_true_iff in Hok as [Hok Hright].
  apply andb_true_iff in Hok as [Hok Hleft].
  apply andb_true_iff in Hok as [Htop Hbottom].
  destruct (is_wall_cases w Hw) as [Hww|[Hww|[Hww|Hww]]]; rewrite Hww in *;
    unfold across in Hbe; simpl in Hbe; injection Hbe as Hrbe Hcbe;
    repeat (apply andb_true_iff; split);
    repeat match goal with
    | |- implb (?x =? ?y)%nat _ = true =>
        destruct (Nat.eqb_spec x y); [|done]; simpl
    end;
    try lia;
    rewrite land_ldiff_disjoint by done;
    first [ by rewrite (proj1 (Nat.eqb_eq _ _) eq_refl) in *
          | idtac ].
  all: repeat match goal with
       | H : implb (?x =? ?y)%nat _ = true, E : ?x = ?y |- _ =>
           rewrite (proj2 (Nat.eqb_eq x y) E) in H; simpl in H
       end; done.
Qed.
End OneWallOut.

(** Every route of the opened maze either avoids the new passage, or
    splits at it into two routes of the original maze. *)
Lemma opened_route m m1 a w :
  enclosed m = true -> in_bounds m a = true ->
  in_bounds m (across a w) = true -> is_wall w = true ->
  maze_alter (open_cell w) m (fst a) (snd a) = Some m1 ->
  forall x y, in_bounds m x = true -> reachable m1 x y ->
    reachable m x y \/ (reachable m x a /\ reachable m (across a w) y).
Proof.
  intros Henc Ha Hb Hw Hm1 x y Hx (q & Hl & Hlast).
  revert x Hx Hl Hlast. induction q as [|z q IH]; intros x Hx Hl Hlast.
  - simpl in Hlast. injection Hlast as <-. left. apply reachable_refl.
  - simpl in Hl. apply andb_true_iff in Hl as [Hstep Hl].
    assert (in_bounds m z = true) as Hz.
    { rewrite <- (opened_in_bounds m m1 a w Hm1).
      apply (linked_in_bounds m1 [z] (opened_enclosed m m1 a w Henc Ha Hb Hw Hm1) x).
      - by rewrite (opened_in_bounds m m1 a w Hm1).
      - simpl. by rewrite Hstep.
      - right. by left. }
    assert (last (z :: q) = Some y) as Hlast' by (by destruct q).
    destruct (IH z Hz Hl Hlast') as [Hzy|[Hza Hby]];
      destruct (opened_step_back m m1 a w Ha Hw Hm1 x z Hx Hstep)
        as [Hs|[-> ->]].
    + left. by apply (reachable_step m x z y).
    + right. split; [apply reachable_refl|done].
    + right. split; [by apply (reachable_step m x z a)|done].
    + right. split; [apply reachable_refl|done].
Qed.

(** X18.  The suggestions of an unsolved run are exactly the interior
    walls whose removal opens a route.  Let [m] be the fresh maze on
    which [solve_maze] reported no solution.  A triple (row, col, wall)
    is suggested if and only if wall is one of the four walls, the cell
    and its neighbour across the wall are on the grid, and the maze
    [m1], which is [m] with the cell replaced by the result of its
    [remove_wall(wall)], has a route from start to finish.  And
    whatever [solve_maze] returns on such an [m1], it reports solved
    exactly when the wall was suggested. *)
Theorem suggestions_are_the_opening_walls
    list_of_set cmd_entry m coordinates m' row col wall :
  set_listing list_of_set ->
  enclosed m = true -> fresh m = true -> two_way m = true ->
  in_bounds m (CLProcessor.start_cell cmd_entry) = true ->
  in_bounds m (CLProcessor.finish_cell cmd_entry) = true ->
  solve_maze list_of_set cmd_entry m = (Ret (false, coordinates), m') ->
  (In (row, col, wall) coordinates <->
   is_wall wall = true /\
   in_bounds m (row, col) = true /\
   in_bounds m (across (row, col) wall) = true /\
   exists c c' m1,
     maze_get m row col = Some c /\
     remove_wall wall c = inr c' /\
     maze_alter (fun _ => c') m row col = Some m1 /\
     reachable m1 (CLProcessor.start_cell cmd_entry)
                  (CLProcessor.finish_cell cmd_entry)) /\
  (forall c c' m1 r m2,
     is_wall wall = true ->
     in_bounds m (row, col) = true ->
     in_bounds m (across (row, col) wall) = true ->
     maze_get m row col = Some c ->
     remove_wall wall c = inr c' ->
     maze_alter (fun _ => c') m row col = Some m1 ->
     solve_maze list_of_set cmd_entry m1 = (Ret r, m2) ->
     (In (row, col, wall) coordinates <-> r = (true, []))).
Proof.
  set (s := CLProcessor.start_cell cmd_entry).
  set (f := CLProcessor.finish_cell cmd_entry).
  intros Hset Henc Hfresh Htw Hs Hf Hsolve.
  destruct (solve_maze_answer list_of_set cmd_entry m Hset Henc Hfresh Htw
              Hs Hf false coordinates m' Hsolve) as (Hsolved & Hdiag).
  fold s f in Hsolved, Hdiag.
  assert (~ reachable m s f) as Hno
    by (intros Hr; by apply Hsolved in Hr).
  pose (a := (row, col)).
  assert (forall c, in_bounds m a = true -> is_wall wall = true ->
            maze_get m row col = Some c ->
            exists m1, maze_alter (fun _ => open_cell wall c) m row col = Some m1 /\
                       maze_alter (open_cell wall) m (fst a) (snd a) = Some m1)
    as Halter.
  { intros c Ha Hw Hc.
    destruct (maze_alter_defined (open_cell wall) _ _ _ _ Hc) as [m1 Hm1].
    exists m1. split; [|done].
    by rewrite (maze_alter_ext (fun _ => open_cell wall c) (open_cell wall)
                  m _ _ c Hc eq_refl). }
  assert (forall c c' m1,
            is_wall wall = true -> in_bounds m a = true ->
            in_bounds m (across a wall) = true ->
            maze_get m row col = Some c -> remove_wall wall c = inr c' ->
            maze_alter (fun _ => c') m row col = Some m1 ->
            maze_alter (open_cell wall) m (fst a) (snd a) = Some m1 /\
            (reachable m1 s f <-> In (row, col, wall) coordinates)) as Hopened.
  { intros c c' m1 Hw Ha Hb Hc Hrem Hm1.
    rewrite (remove_wall_open_cell wall c Hw) in Hrem. injection Hrem as <-.
    destruct (Halter c Ha Hw Hc) as (m1' & Hm1' & Hopen).
    rewrite Hm1 in Hm1'. injection Hm1' as <-.
    split; [done|]. rewrite Hdiag. fold a. split.
    - intros Hr.
      destruct (opened_route m m1 a wall Henc Ha Hb Hw Hopen s f Hs Hr)
        as [Hsf|[Hsa Hbf]]; [done|].
      split; [done|]. split; [done|]. split; [done|].
      by apply reachable_sym.
    - intros (_ & _ & Hsa & Hfb).
      apply (reachable_trans m1 s a f);
        [by apply (opened_reachable m m1 a wall Hopen)|].
      apply (reachable_step m1 a (across a wall) f);
        [by apply (opened_step m m1 a wall Ha Hw Hopen)|].
      apply (opened_reachable m m1 a wall Hopen).
      by apply reachable_sym. }
  split.
  - split.
    + intros Hin. pose proof Hin as Hin'.
      apply Hdiag in Hin' as (_ & Hw & Hsa & Hfb). fold a in Hsa, Hfb.
      assert (in_bounds m a = true) as Ha
        by (by apply (reachable_in_bounds m s a)).
      assert (in_bounds m (across a wall) = true) as Hb
        by (by apply (reachable_in_bounds m f (across a wall))).
      split; [done|]. split; [done|]. split; [done|].
      destruct (in_bounds_get _ _ Ha) as [c Hc]. simpl in Hc.
      destruct (Halter c Ha Hw Hc) as (m1 & Hm1 & _).
      exists c, (open_cell wall c), m1.
      split; [done|]. split; [by apply remove_wall_open_cell|].
      split; [done|].
      by apply (Hopened c (open_cell wall c) m1 Hw Ha Hb Hc
                  (remove_wall_open_cell wall c Hw) Hm1).
    + intros (Hw & Ha & Hb & c & c' & m1 & Hc & Hrem & Hm1 & Hr).
      by apply (Hopened c c' m1 Hw Ha Hb Hc Hrem Hm1).
  - intros c c' m1 r m2 Hw Ha Hb Hc Hrem Hm1 Hrun.
    destruct (Hopened c c' m1 Hw Ha Hb Hc Hrem Hm1) as (Hopen & Hiff).
    assert (enclosed m1 = true) as Henc1
      by (by apply (opened_enclosed m m1 a wall)).
    assert (in_bounds m1 s = true) as Hs1
      by (by rewrite (opened_in_bounds m m1 a wall Hopen)).
    assert (in_bounds m1 f = true) as Hf1
      by (by rewrite (opened_in_bounds m m1 a wall Hopen)).
    rewrite <- Hiff. split.
    + intros Hr.
      destruct (solve_maze_solved list_of_set cmd_entry m1) as [m3 Hm3];
        try done.
      { by rewrite (opened_fresh m m1 a wall Hopen). }
      rewrite Hrun in Hm3. by injection Hm3 as -> _.
    + intros ->.
      by apply (solve_maze_true_reachable list_of_set cmd_entry m1 [] m2).
Qed.

Lemma suggestions_are_the_opening_walls_witness :
  (In (0, 0, 4) [(0, 0, 4)] <->
   is_wall 4 = true /\
   in_bounds walled_pair (0, 0) = true /\
   in_bounds walled_pair (across (0, 0) 4) = true /\
   exists c c' m1,
     maze_get walled_pair 0 0 = Some c /\
     remove_wall 4 c = inr c' /\
     maze_alter (fun _ => c') walled_pair 0 0 = Some m1 /\
     reachable m1 (0, 0) (0, 1)) /\
  (forall c c' m1 r m2,
     is_wall 4 = true ->
     in_bounds walled_pair (0, 0) = true ->
     in_bounds walled_pair (across (0, 0) 4) = true ->
     maze_get walled_pair 0 0 = Some c ->
     remove_wall 4 c = inr c' ->
     maze_alter (fun _ => c') walled_pair 0 0 = Some m1 ->
     solve_maze last_seen_first
       {| CLProcessor.width := 2; CLProcessor.height := 1;
          CLProcessor.start_cell := (0, 0); CLProcessor.finish_cell := (0, 1) |}
       m1 = (Ret r, m2) ->
     (In (0, 0, 4) [(0, 0, 4)] <-> r = (true, []))).
Proof.
  eapply (suggestions_are_the_opening_walls last_seen_first
            {| CLProcessor.width := 2; CLProcessor.height := 1;
               CLProcessor.start_cell := (0, 0);
               CLProcessor.finish_cell := (0, 1) |}
            walled_pair [(0, 0, 4)] _ 0 0 4);
    first [apply last_seen_first_listing|vm_compute; reflexivity].
Defined.

(** * Properties of the output file names *)

Lemma rfind_absent s c : ~ In c s -> rfind s c = -1.
Proof.
  induction s as [|x s IH]; [done|]. intros H. simpl.
  rewrite IH by (intros Hin; apply H; by right). simpl.
  destruct (Ascii.eqb_spec x c) as [->|_]; [|done].
  exfalso. apply H. by left.
Qed.

Lemma rfind_last stem ext c :
  ~ In c ext -> rfind (stem ++ c :: ext) c = Z.of_nat (length stem).
Proof.
  intros H. induction stem as [|x stem IH].
  - simpl. rewrite (rfind_absent _ _ H). simpl. by rewrite Ascii.eqb_refl.
  - cbn [app rfind length]. rewrite IH.
    destruct (Z.leb_spec 0 (Z.of_nat (length stem))); lia.
Qed.

(** Every string either has no [c], or splits at its last [c]. *)
Lemma last_occurrence (s : list ascii) c :
  ~ In c s \/ exists stem ext, s = stem ++ c :: ext /\ ~ In c ext.
Proof.
  induction s as [|x s [IH|(stem & ext & -> & Hext)]].
  - left. by intros [].
  - destruct (Ascii.eqb_spec x c) as [->|Hne].
    + right. by exists [], s.
    + left. by intros [?|?].
  - right. by exists (x :: stem), ext.
Qed.

Lemma slice_to_stem {A} (stem ext : list A) :
  ext <> [] ->
  slice_to (stem ++ ext)
    (Z.of_nat (length stem) - Z.of_nat (length (stem ++ ext))) = stem.
Proof.
  intros Hext. unfold slice_to, slice_bound. rewrite length_app.
  assert (0 < length ext)%nat as Hlen by (destruct ext; [done|simpl; lia]).
  destruct (Z.ltb_spec (Z.of_nat (length stem)
                        - Z.of_nat (length stem + length ext)) 0); [|lia].
  replace (Z.to_nat _) with (length stem) by lia.
  by rewrite firstn_app, Nat.sub_diag, firstn_all, firstn_O, app_nil_r.
Qed.

Lemma slice_from_stem {A} (stem ext : list A) :
  slice_from (stem ++ ext) (Z.of_nat (length stem)) = ext.
Proof.
  unfold slice_from, slice_bound. rewrite length_app.
  destruct (Z.ltb_spec (Z.of_nat (length stem)) 0); [lia|].
  replace (Z.to_nat _) with (length stem) by lia.
  by rewrite skipn_app, Nat.sub_diag, skipn_all, skipn_O.
Qed.

Lemma make_new_filename_no_period filename add_string :
  ~ In period filename ->
  make_new_filename filename add_string = filename ++ add_string ++ jpg.
Proof.
  intros H. unfold make_new_filename. cbv zeta.
  by rewrite (rfind_absent _ _ H), <- app_assoc.
Qed.

Lemma make_new_filename_period stem ext add_string :
  ~ In period ext ->
  make_new_filename (stem ++ period :: ext) add_string
  = stem ++ add_string ++ period :: ext.
Proof.
  intros H. unfold make_new_filename. cbv zeta.
  rewrite (rfind_last _ _ _ H).
  destruct (Z.eqb_spec (Z.of_nat (length stem)) (-1)); [lia|].
  by rewrite slice_to_stem, slice_from_stem, <- app_assoc.
Qed.

(** X19.  The new name is the old one with [add_string] put in front of
    the last period; a name without a period gets [add_string] and the
    extension .jpg at its end. *)
Theorem make_new_filename_inserts_before_extension stem ext add_string :
  ~ In period ext ->
  make_new_filename (stem ++ period :: ext) add_string
  = stem ++ add_string ++ period :: ext /\
  make_new_filename ext add_string = ext ++ add_string ++ jpg.
Proof.
  intros H. split.
  - by apply make_new_filename_period.
  - by apply make_new_filename_no_period.
Qed.

Lemma make_new_filename_inserts_before_extension_witness :
  make_new_filename
    (["m"; "y"; "."; "d"; "i"; "r"; "/"; "M"; "a"; "z"; "e"]%char
       ++ period :: ["p"; "n"; "g"]%char)
    [" "; "S"; "o"; "l"; "v"; "e"; "d"]%char
  = ["m"; "y"; "."; "d"; "i"; "r"; "/"; "M"; "a"; "z"; "e"]%char
      ++ [" "; "S"; "o"; "l"; "v"; "e"; "d"]%char
      ++ period :: ["p"; "n"; "g"]%char /\
  make_new_filename ["p"; "n"; "g"]%char
    [" "; "S"; "o"; "l"; "v"; "e"; "d"]%char
  = ["p"; "n"; "g"]%char ++ [" "; "S"; "o"; "l"; "v"; "e"; "d"]%char ++ jpg.
Proof.
  apply (make_new_filename_inserts_before_extension
           ["m"; "y"; "."; "d"; "i"; "r"; "/"; "M"; "a"; "z"; "e"]%char
           ["p"; "n"; "g"]%char
           [" "; "S"; "o"; "l"; "v"; "e"; "d"]%char).
  vm_compute. intuition discriminate.
Defined.

(** X20.  Output names never collide: with a non-empty [add_string] the
    new name differs from the name it was made from, and two different
    additions give two different names. *)
Theorem make_new_filename_never_collides filename add1 add2 :
  add1 <> [] -> add1 <> add2 ->
  make_new_filename filename add1 <> filename /\
  make_new_filename filename add1 <> make_new_filename filename add2.
Proof.
  intros Hne Hdiff.
  destruct (last_occurrence filename period)
    as [Hno|(stem & ext & -> & Hext)].
  - rewrite !(make_new_filename_no_period _ _ Hno). split.
    + intros H. apply (f_equal (@length ascii)) in H.
      rewrite !length_app in H. destruct add1; [done|]. simpl in H. lia.
    + intros H. apply app_inv_head, app_inv_tail in H. done.
  - rewrite !(make_new_filename_period _ _ _ Hext). split.
    + intros H. apply (f_equal (@length ascii)) in H.
      rewrite !length_app in H. destruct add1; [done|]. simpl in H. lia.
    + intros H. apply app_inv_head, app_inv_tail in H. done.
Qed.

Lemma make_new_filename_never_collides_witness :
  make_new_filename ["M"; "a"; "z"; "e"; "."; "p"; "n"; "g"]%char
    [" "; "S"; "o"; "l"; "u"; "t"; "i"; "o"; "n"]%char
  <> ["M"; "a"; "z"; "e"; "."; "p"; "n"; "g"]%char /\
  make_new_filename ["M"; "a"; "z"; "e"; "."; "p"; "n"; "g"]%char
    [" "; "S"; "o"; "l"; "u"; "t"; "i"; "o"; "n"]%char
  <> make_new_filename ["M"; "a"; "z"; "e"; "."; "p"; "n"; "g"]%char
       [" "; "S"; "c"; "a"; "n"; "n"; "e"; "d"]%char.
Proof.
  apply (make_new_filename_never_collides
           ["M"; "a"; "z"; "e"; "."; "p"; "n"; "g"]%char
           [" "; "S"; "o"; "l"; "u"; "t"; "i"; "o"; "n"]%char
           [" "; "S"; "c"; "a"; "n"; "n"; "e"; "d"]%char); discriminate.
Defined.
